(** * Mini A2A Marketplace Simulator: ledger, negotiator and bandit selection

    A shallow embedding of the decision-and-settlement core of the
    marketplace simulator:

    - [src/ledger/mock_ledger.py]   (class [MockLedger]),
    - [src/ai/rl_negotiation.py]    (class [RLNegotiator]),
    - [src/ai/bandit_selection.py]  (classes [MultiArmedBandit] and
      [ContextualBandit]),
    - [src/agents/agent_base.py]    (class [AgentBase]),
    - [src/main.py]                 ([run_simulation]).

    Modelling conventions.

    - Python [int] is [Z]; there is no wrap-around.
    - Python [float] is idealised by the exact rationals [Q]: a literal
      such as [0.8] is the rational 8/10, [/] is exact division and the
      comparisons are decided exactly.  A float that is only stored (a
      Q-value, a weight, a reputation) can differ from its rational in the
      last digits.  Where a theorem reads a bucket or an integer off a
      float, it is stated for prices within [Negotiator.price_limit],
      where binary64 gives the same bucket and the same integer; module
      [Binary64] writes these expressions with IEEE 754 binary64
      operations, and the two are checked to agree on the simulator's
      prices and at the scale of the limit.  Where the rounding of a
      division can decide a result ([select_epsilon_greedy]) the division
      is a section variable.  [np.log] and [np.sqrt] have no rational
      counterpart and are taken as section variables.
    - A Python object with mutable fields is a record threaded through a
      state-and-exception monad [M]; an uncaught exception keeps the store
      as it was at the raising statement.
    - [dict]s are [gmap]s where only lookups matter and association lists
      in insertion order where the iteration order decides a result
      ([max (d, key=d.get)]).
    - [random.random], [random.choice], [time.time] and the salted [hash]
      are inputs supplied by the environment. *)

From Stdlib Require Import ZArith QArith Lia Lqa Floats.
From stdpp Require Import gmap strings list fin_maps pretty.

Open Scope Z_scope.

(* ===================================================================== *)
(** * Part I: the embedding                                               *)
(* ===================================================================== *)

(** ** The fragment of the Python runtime the classes rely on *)

Module Py.

Inductive exn : Type :=
| KeyError (key : string)
| ZeroDivisionError
| IndexError
| ValueError.

Inductive outcome (A : Type) : Type :=
| Returned (a : A)
| Raised (e : exn).
Arguments Returned {A} a.
Arguments Raised {A} e.

(** A method body: it runs on the object's store, either returns a value
    or raises, and leaves a store behind in both cases. *)
Definition M (S A : Type) : Type := S → outcome A * S.

Definition ret {S A : Type} (a : A) : M S A := λ s, (Returned a, s).

Definition raise {S A : Type} (e : exn) : M S A := λ s, (Raised e, s).

Definition bind {S A B : Type} (m : M S A) (k : A → M S B) : M S B :=
  λ s, match m s with
       | (Returned a, s') => k a s'
       | (Raised e, s') => (Raised e, s')
       end.

Definition gets {S A : Type} (f : S → A) : M S A := λ s, (Returned (f s), s).

Definition modify {S : Type} (f : S → S) : M S unit := λ s, (Returned tt, f s).

#[global] Instance M_ret {S : Type} : MRet (M S) := λ A, ret.
#[global] Instance M_bind {S : Type} : MBind (M S) := λ A B k m, bind m k.

(** [d[k]] as an expression: [KeyError] when the key is missing. *)
Definition getitem {S V : Type} (d : gmap string V) (k : string) : M S V :=
  match d !! k with
  | Some v => ret v
  | None => raise (KeyError k)
  end.

(** [d.get(k, dflt)] *)
Definition dict_get {V : Type} (d : gmap string V) (k : string) (dflt : V) : V :=
  default dflt (d !! k).

(** The value a call returned (or the exception it raised) and the store
    it left. *)
Definition result {S A : Type} (r : outcome A * S) : outcome A := fst r.
Definition store {S A : Type} (r : outcome A * S) : S := snd r.

(** [int(x)] on a float: truncation towards zero. *)
Definition int (x : Q) : Z := Z.quot (Qnum x) (Z.pos (Qden x)).

(** [str(n)] and f-string interpolation of an [int]. *)
Definition str (n : Z) : string := pretty n.

(** [x < y] and [x > y] on floats. *)
Definition Qltb (x y : Q) : bool := negb (Qle_bool y x).
Definition Qgtb (x y : Q) : bool := Qltb y x.

(** [sum(f(v) for v in d.values())] over integers. *)
Definition sum_values {V : Type} (f : V → Z) (d : gmap string V) : Z :=
  map_fold (λ _ v acc, acc + f v) 0 d.

(** *** Dicts whose iteration order matters: association lists in insertion
    order, without duplicate keys. *)

Fixpoint odict_lookup {V : Type} (d : list (string * V)) (k : string) : option V :=
  match d with
  | [] => None
  | (k', v) :: d' => if decide (k' = k) then Some v else odict_lookup d' k
  end.

(** [d[k] = v]: an existing key keeps its position, a new one goes last. *)
Fixpoint odict_set {V : Type} (d : list (string * V)) (k : string) (v : V) : list (string * V) :=
  match d with
  | [] => [(k, v)]
  | (k', v') :: d' => if decide (k' = k) then (k, v) :: d' else (k', v') :: odict_set d' k v
  end.

Definition odict_getitem {S V : Type} (d : list (string * V)) (k : string) : M S V :=
  match odict_lookup d k with
  | Some v => ret v
  | None => raise (KeyError k)
  end.

(** The scan of the builtin [max]: a later item replaces the current one
    only when it is strictly greater, so the first maximal item wins. *)
Fixpoint max_scan {A : Type} (gt : A → A → bool) (best : A) (rest : list A) : A :=
  match rest with
  | [] => best
  | x :: rest' => if gt x best then max_scan gt x rest' else max_scan gt best rest'
  end.

(** [max(d, key=d.get)]; [ValueError] on an empty dict. *)
Definition max_key {S V : Type} (gt : V → V → bool) (d : list (string * V)) : M S string :=
  match d with
  | [] => raise ValueError
  | kv :: rest => ret (fst (max_scan (λ x y, gt (snd x) (snd y)) kv rest))
  end.

(** [max(d.values())] *)
Definition max_value {S V : Type} (gt : V → V → bool) (d : list (string * V)) : M S V :=
  match d with
  | [] => raise ValueError
  | kv :: rest => ret (max_scan gt (snd kv) (snd <$> rest))
  end.

(** [random.choice(seq)], the generator's pick being the index
    [pick mod len(seq)]; [IndexError] on an empty sequence. *)
Definition random_choice {S A : Type} (seq : list A) (pick : nat) : M S A :=
  match seq !! (pick `mod` length seq)%nat with
  | Some x => ret x
  | None => raise IndexError
  end.

(** What the generator hands to one decision: the value of
    [random.random()] and the pick of a following [random.choice]. *)
Record Draw : Type := mkDraw {
  rand_u : Q;
  rand_pick : nat
}.

(** A pure computation that may raise, run inside a method. *)
Definition lift {S A : Type} (o : outcome A) : M S A := λ s, (o, s).

End Py.

(** ** [src/ledger/mock_ledger.py] *)

Module Ledger.
Import Py.

(** [class Transaction]: the timestamp is the clock reading [now] taken in
    the constructor; the id interpolates its integer part and the salted
    hash of [f'{sender}{receiver}{amount}'] modulo 10000. *)
Record Transaction : Type := mkTransaction {
  tx_sender : string;
  tx_receiver : string;
  tx_amount : Z;
  tx_service : option string;
  tx_timestamp : Q;
  tx_id : string
}.

(** A value of the [locked_funds] dict:
    [{'agent':…, 'amount':…, 'purpose':…, 'timestamp':…}]. *)
Record Lock : Type := mkLock {
  lock_agent : string;
  lock_amount : Z;
  lock_purpose : string;
  lock_timestamp : Q
}.

Record MockLedger : Type := mkLedger {
  accounts : gmap string Z;
  transaction_history : list Transaction;
  locked_funds : gmap string Lock
}.

Definition set_accounts (f : gmap string Z → gmap string Z) (st : MockLedger) : MockLedger :=
  mkLedger (f (accounts st)) (transaction_history st) (locked_funds st).

Definition set_history (f : list Transaction → list Transaction) (st : MockLedger) : MockLedger :=
  mkLedger (accounts st) (f (transaction_history st)) (locked_funds st).

Definition set_locked (f : gmap string Lock → gmap string Lock) (st : MockLedger) : MockLedger :=
  mkLedger (accounts st) (transaction_history st) (f (locked_funds st)).

(** [MockLedger.__init__] *)
Definition init : MockLedger := mkLedger ∅ [] ∅.

(** [create_account]: an unconditional assignment. *)
Definition create_account (agent_name : string) (initial_balance : Z) : M MockLedger unit :=
  modify (set_accounts (<[agent_name := initial_balance]>)).

Definition get_balance (st : MockLedger) (agent_name : string) : Z :=
  dict_get (accounts st) agent_name 0.

Section Hash.
(** Python's [hash] on [str], salted per process. *)
Variable hash : string → Z.

Definition new_Transaction (sender receiver : string) (amount : Z)
    (service : option string) (now : Q) : Transaction :=
  {| tx_sender := sender; tx_receiver := receiver; tx_amount := amount;
     tx_service := service; tx_timestamp := now;
     tx_id := "tx_" +:+ str (int now) +:+ "_"
              +:+ str (hash (sender +:+ receiver +:+ str amount) `mod` 10000) |}.

(** [transfer]; [now] is the clock reading of [Transaction.__init__]. *)
Definition transfer (sender receiver : string) (amount : Z)
    (service : option string) (now : Q) : M MockLedger bool :=
  acc ← gets accounts;
  if bool_decide (amount ≤ dict_get acc sender 0) then
    bal ← getitem acc sender;
    modify (set_accounts (<[sender := bal - amount]>));;
    acc' ← gets accounts;
    modify (set_accounts (<[receiver := dict_get acc' receiver 0 + amount]>));;
    modify (set_history (λ h, h ++ [new_Transaction sender receiver amount service now]));;
    ret true
  else ret false.

(** The id [f"lock_{int(time.time())}_{hash(purpose) % 10000}"]. *)
Definition make_lock_id (t_id : Q) (purpose : string) : string :=
  "lock_" +:+ str (int t_id) +:+ "_" +:+ str (hash purpose `mod` 10000).

(** [lock_funds]; [t_id] and [t_stamp] are its two clock readings.  The
    result is the lock id, or [None]. *)
Definition lock_funds (agent_name : string) (amount : Z) (purpose : string)
    (t_id t_stamp : Q) : M MockLedger (option string) :=
  acc ← gets accounts;
  if bool_decide (amount ≤ dict_get acc agent_name 0) then
    bal ← getitem acc agent_name;
    modify (set_accounts (<[agent_name := bal - amount]>));;
    let lock_id := make_lock_id t_id purpose in
    modify (set_locked (<[lock_id := mkLock agent_name amount purpose t_stamp]>));;
    ret (Some lock_id)
  else ret None.
End Hash.

(** [release_funds] *)
Definition release_funds (lock_id to_agent : string) : M MockLedger bool :=
  locks ← gets locked_funds;
  match locks !! lock_id with
  | Some locked =>
      modify (set_locked (delete lock_id));;
      acc ← gets accounts;
      modify (set_accounts (<[to_agent := dict_get acc to_agent 0 + lock_amount locked]>));;
      ret true
  | None => ret false
  end.

(** [return_locked_funds]: the lock is popped before the owner's balance
    is read with [accounts[...]]. *)
Definition return_locked_funds (lock_id : string) : M MockLedger bool :=
  locks ← gets locked_funds;
  match locks !! lock_id with
  | Some locked =>
      modify (set_locked (delete lock_id));;
      acc ← gets accounts;
      bal ← getitem acc (lock_agent locked);
      modify (set_accounts (<[lock_agent locked := bal + lock_amount locked]>));;
      ret true
  | None => ret false
  end.

(** [get_transaction_history]; an empty name is falsy, like [None]. *)
Definition get_transaction_history (st : MockLedger) (agent_name : option string)
    : list Transaction :=
  match agent_name with
  | Some n =>
      if bool_decide (n = EmptyString) then transaction_history st
      else filter (λ tx, tx_sender tx = n ∨ tx_receiver tx = n) (transaction_history st)
  | None => transaction_history st
  end.

(** [get_ledger_stats()['total_supply']] *)
Definition total_supply (st : MockLedger) : Z :=
  sum_values id (accounts st) + sum_values lock_amount (locked_funds st).

Record LedgerStats : Type := mkStats {
  total_accounts : nat;
  stats_total_supply : Z;
  total_transactions : nat;
  stats_locked_funds : nat
}.

Definition get_ledger_stats (st : MockLedger) : LedgerStats :=
  {| total_accounts := size (accounts st);
     stats_total_supply := total_supply st;
     total_transactions := length (transaction_history st);
     stats_locked_funds := size (locked_funds st) |}.

(** The module-level [ledger_instance] after its four [create_account]
    calls. *)
Definition ledger_instance : MockLedger :=
  store ((create_account "DataProcessor_A" 100;;
          create_account "Translator_B" 100;;
          create_account "Computer_C" 100;;
          create_account "Client_X" 200) init).

Section Runs.
Variable hash : string → Z.

(** One call of a mutating method, with the readings of the clock it
    takes. *)
Inductive op : Type :=
| CreateAccount (agent_name : string) (initial_balance : Z)
| Transfer (sender receiver : string) (amount : Z) (service : option string) (now : Q)
| LockFunds (agent_name : string) (amount : Z) (purpose : string) (t_id t_stamp : Q)
| ReleaseFunds (lock_id to_agent : string)
| ReturnLockedFunds (lock_id : string).

(** The store a call leaves behind, whether it returned or raised. *)
Definition exec (o : op) (st : MockLedger) : MockLedger :=
  match o with
  | CreateAccount a b => store (create_account a b st)
  | Transfer s r amt svc now => store (transfer hash s r amt svc now st)
  | LockFunds a amt p t_id t_stamp => store (lock_funds hash a amt p t_id t_stamp st)
  | ReleaseFunds l to => store (release_funds l to st)
  | ReturnLockedFunds l => store (return_locked_funds l st)
  end.

Definition exec_all (ops : list op) (st : MockLedger) : MockLedger :=
  foldl (λ s o, exec o s) st ops.

(** The call is a [lock_funds] that computes the id [lock_id]. *)
Definition issues (lock_id : string) (o : op) : Prop :=
  match o with
  | LockFunds _ _ p t_id _ => make_lock_id hash t_id p = lock_id
  | _ => False
  end.

(** The call is a [release_funds] or a [return_locked_funds] on
    [lock_id]. *)
Definition settles (lock_id : string) (o : op) : Prop :=
  match o with
  | ReleaseFunds l _ | ReturnLockedFunds l => l = lock_id
  | _ => False
  end.

(** The call passes no negative amount (or initial balance). *)
Definition nonneg_args (o : op) : Prop :=
  match o with
  | CreateAccount _ b => 0 ≤ b
  | Transfer _ _ amt _ _ => 0 ≤ amt
  | LockFunds _ amt _ _ _ => 0 ≤ amt
  | ReleaseFunds _ _ | ReturnLockedFunds _ => True
  end.
End Runs.

(** Every active lock belongs to an account that exists. *)
Definition owners_have_accounts (st : MockLedger) : Prop :=
  ∀ l locked, locked_funds st !! l = Some locked →
              is_Some (accounts st !! lock_agent locked).

Definition nonneg_state (st : MockLedger) : Prop :=
  (∀ a b, accounts st !! a = Some b → 0 ≤ b) ∧
  (∀ l locked, locked_funds st !! l = Some locked → 0 ≤ lock_amount locked).

(** A stand-in for the salted [hash] where a concrete run needs one: the
    sum of the character codes. *)
Definition sample_hash (s : string) : Z :=
  foldr (λ c acc, Z.of_nat (Ascii.nat_of_ascii c) + acc) 0 (String.list_ascii_of_string s).

(** The scenario ledger: accounts [A] and [B] with 100 each. *)
Definition scenario_accounts : list op :=
  [CreateAccount "A" 100; CreateAccount "B" 100].

Definition scenario : MockLedger := exec_all sample_hash scenario_accounts init.

(** The scenario's calls, all within the second 1700000000. *)
Definition scenario_calls : list op :=
  [Transfer "A" "B" 50 None 1700000000.25;
   Transfer "A" "B" 100 None 1700000000.5;
   LockFunds "A" 30 "escrow" 1700000000.75 1700000000.75;
   ReturnLockedFunds (make_lock_id sample_hash 1700000000.75 "escrow")].

(** The scenario ledger with 30 of [A] in escrow, and two later calls. *)
Definition scenario_locked : MockLedger :=
  exec sample_hash (LockFunds "A" 30 "escrow" 1700000000.75 1700000000.75) scenario.

Definition scenario_later : list op :=
  [Transfer "A" "B" 10 None 1700000001.5;
   LockFunds "A" 5 "deposit" 1700000002.5 1700000002.5].

(** The scenario ledger after the lock of [A] has been returned and [B]
    has locked 20 with the same purpose within the same second: the id of
    the settled lock is in use again. *)
Definition scenario_reissued : MockLedger :=
  exec sample_hash (LockFunds "B" 20 "escrow" 1700000000.9 1700000000.9)
    (exec sample_hash (ReturnLockedFunds "lock_1700000000_659") scenario_locked).

End Ledger.

(** ** [src/ai/rl_negotiation.py] *)

Module Negotiator.
Import Py.

(** [self.actions] *)
Definition actions : list string := ["accept"; "reject"; "counter_low"; "counter_high"].

(** The store of an [RLNegotiator]; [negotiation_history] is never written
    and is left out.  A row of the table is the dict [{action: q_value}],
    in insertion order. *)
Record RLNegotiator : Type := mkNegotiator {
  q_table : gmap string (list (string * Q));
  learning_rate : Q;
  discount_factor : Q;
  epsilon : Q
}.

Definition set_q_table
    (f : gmap string (list (string * Q)) → gmap string (list (string * Q)))
    (st : RLNegotiator) : RLNegotiator :=
  mkNegotiator (f (q_table st)) (learning_rate st) (discount_factor st) (epsilon st).

(** [RLNegotiator.__init__] *)
Definition init (lr df eps : Q) : RLNegotiator := mkNegotiator ∅ lr df eps.

(** The module-level [global_negotiator = RLNegotiator()] *)
Definition global_negotiator : RLNegotiator := init 0.1 0.9 0.1.

(** [{action: 0.0 for action in self.actions}] *)
Definition zero_row : list (string * Q) := (λ a, (a, 0.0%Q)) <$> actions.

(** [get_state] *)
Definition get_state (service_type : string) (offered_price market_price : Z)
    (agent_reputation urgency : Q) : string :=
  let price_ratio := (inject_Z offered_price / inject_Z (Z.max market_price 1))%Q in
  let price_category :=
    if Qltb price_ratio 0.8 then "low" else if Qltb price_ratio 1.2 then "fair" else "high" in
  let reputation_category :=
    if Qltb agent_reputation 3.0 then "low"
    else if Qltb agent_reputation 4.5 then "medium" else "high" in
  let urgency_category :=
    if Qltb urgency 0.3 then "low" else if Qltb urgency 0.7 then "medium" else "high" in
  service_type +:+ "_" +:+ price_category +:+ "_" +:+ reputation_category
    +:+ "_" +:+ urgency_category.

(** [if state not in self.q_table: self.q_table[state] = {…}] *)
Definition ensure_row (state : string) : M RLNegotiator unit :=
  tbl ← gets q_table;
  match tbl !! state with
  | Some _ => ret tt
  | None => modify (set_q_table (<[state := zero_row]>))
  end.

(** The store [ensure_row] leaves. *)
Definition ensure_row_store (state : string) (st : RLNegotiator) : RLNegotiator :=
  match q_table st !! state with
  | Some _ => st
  | None => set_q_table (<[state := zero_row]>) st
  end.

(** [get_action]; the generator is consulted only when [explore] holds. *)
Definition get_action (state : string) (explore : bool) (d : Draw) : M RLNegotiator string :=
  ensure_row state;;
  eps ← gets epsilon;
  if explore && Qltb (rand_u d) eps then random_choice actions (rand_pick d)
  else
    tbl ← gets q_table;
    row ← getitem tbl state;
    max_key Qgtb row.

(** Truthiness of the optional [next_state]: [None] and the empty string are falsy. *)
Definition truthy (next_state : option string) : option string :=
  match next_state with
  | Some s => if decide (s = EmptyString) then None else Some s
  | None => None
  end.

(** [update_q_value] *)
Definition update_q_value (state action : string) (reward : Q)
    (next_state : option string) : M RLNegotiator unit :=
  ensure_row state;;
  match truthy next_state with
  | Some ns => ensure_row ns
  | None => ret tt
  end;;
  tbl ← gets q_table;
  row ← getitem tbl state;
  current_q ← odict_getitem row action;
  max_next_q ← match truthy next_state with
               | Some ns => row' ← getitem tbl ns; max_value Qgtb row'
               | None => ret 0%Q
               end;
  lr ← gets learning_rate;
  df ← gets discount_factor;
  let new_q := (current_q + lr * (reward + df * max_next_q - current_q))%Q in
  modify (set_q_table (<[state := odict_set row action new_q]>)).

(** [calculate_reward]: the quotient [final_price / market_price] raises
    [ZeroDivisionError] on a zero market price. *)
Definition calculate_reward (final_price market_price : Z) (deal_made : bool) : outcome Q :=
  if negb deal_made then Returned (-1.0)%Q
  else if decide (market_price = 0) then Raised ZeroDivisionError
  else
    let price_ratio := (inject_Z final_price / inject_Z market_price)%Q in
    if Qgtb price_ratio 1.2 then Returned 1.0%Q
    else if Qgtb price_ratio 1.0 then Returned 0.5%Q
    else if Qgtb price_ratio 0.8 then Returned 0.0%Q
    else Returned (-0.5)%Q.

(** The two counter-offers. *)
Definition counter_low (current_offer : Z) : Z :=
  Z.max 1 (int (inject_Z current_offer * 0.8)%Q).

Definition counter_high (current_offer : Z) : Z :=
  int (inject_Z current_offer * 1.2)%Q.

(** The steps after the loop: the forced accept. *)
Definition forced_accept (service_type : string) (current_offer market_price : Z)
    (agent_reputation : Q) : M RLNegotiator (string * Z) :=
  let final_state := get_state service_type current_offer market_price agent_reputation 1.0 in
  reward ← lift (calculate_reward current_offer market_price true);
  update_q_value final_state "accept" reward None;;
  ret ("accept", current_offer).

(** The loop [for round_num in range(max_rounds)] from [round_num] on, with
    [remaining] iterations left, followed by the forced accept.  [draws i]
    is what the generator hands to round [i].  Next to the result the model
    logs the actions [get_action] returned, one per decision taken. *)
Fixpoint negotiate_rounds (service_type : string) (market_price : Z) (agent_reputation : Q)
    (max_rounds : Z) (draws : nat → Draw) (remaining : nat) (round_num : nat)
    (current_offer : Z) : M RLNegotiator ((string * Z) * list string) :=
  match remaining with
  | O =>
      r ← forced_accept service_type current_offer market_price agent_reputation;
      ret (r, [])
  | S remaining' =>
      let urgency := (inject_Z (Z.of_nat round_num) / inject_Z max_rounds)%Q in
      let state := get_state service_type current_offer market_price
                     agent_reputation urgency in
      action ← get_action state true (draws round_num);
      if decide (action = "accept") then
        reward ← lift (calculate_reward current_offer market_price true);
        update_q_value state action reward None;;
        ret (("accept", current_offer), [action])
      else if decide (action = "reject") then
        reward ← lift (calculate_reward current_offer market_price false);
        update_q_value state action reward None;;
        ret (("reject", 0), [action])
      else
        current_offer' ←
          (if decide (action = "counter_low") then
             update_q_value state action (-0.1)%Q None;;
             ret (counter_low current_offer)
           else if decide (action = "counter_high") then
             update_q_value state action (-0.1)%Q None;;
             ret (counter_high current_offer)
           else ret current_offer);
        '(r, log) ← negotiate_rounds service_type market_price agent_reputation
                      max_rounds draws remaining' (S round_num) current_offer';
        ret (r, action :: log)
  end.

(** [negotiate] with the log of its decisions. *)
Definition negotiate_logged (service_type : string) (initial_offer market_price : Z)
    (agent_reputation : Q) (max_rounds : Z) (draws : nat → Draw)
    : M RLNegotiator ((string * Z) * list string) :=
  negotiate_rounds service_type market_price agent_reputation max_rounds draws
    (Z.to_nat max_rounds) 0 initial_offer.

(** [negotiate] *)
Definition negotiate (service_type : string) (initial_offer market_price : Z)
    (agent_reputation : Q) (max_rounds : Z) (draws : nat → Draw)
    : M RLNegotiator (string * Z) :=
  r ← negotiate_logged service_type initial_offer market_price agent_reputation
        max_rounds draws;
  ret (fst r).

(** The offer after a run of counter actions. *)
Definition apply_counter (offer : Z) (action : string) : Z :=
  if decide (action = "counter_low") then counter_low offer
  else if decide (action = "counter_high") then counter_high offer
  else offer.

Definition is_counter (action : string) : Prop :=
  action = "counter_low" ∨ action = "counter_high".

(** The shape of an episode of at most [rounds] decisions that starts at
    [offer]: a run of counter actions closed by an accept at the offer
    they lead to, or closed by a reject with price 0, or [rounds] counter
    actions followed by the forced accept. *)
Definition episode_shape (offer : Z) (rounds : nat) (r : string * Z) (log : list string) : Prop :=
  ∃ cs, Forall is_counter cs ∧
    ((log = cs ++ ["accept"] ∧ r = ("accept", foldl apply_counter offer cs)) ∨
     (log = cs ++ ["reject"] ∧ r = ("reject", 0)) ∨
     (log = cs ∧ length cs = rounds ∧ r = ("accept", foldl apply_counter offer cs))).

(** Every row of the table has exactly the action keys, as
    [ensure_row] creates it and [update_q_value] keeps it. *)
Definition table_ok (st : RLNegotiator) : Prop :=
  ∀ s row, q_table st !! s = Some row → fst <$> row = actions.

(** [Q(s, a)], when the entry exists. *)
Definition q_value (st : RLNegotiator) (state action : string) : option Q :=
  row ← q_table st !! state; odict_lookup row action.

(** [max(self.q_table[state].values())], 0 for a state without a row. *)
Definition max_q (st : RLNegotiator) (state : string) : Q :=
  match q_table st !! state with
  | Some (kv :: rest) => max_scan Qgtb (snd kv) (snd <$> rest)
  | _ => 0%Q
  end.

(** The entry exists and equals [v] as a rational. *)
Definition q_is (st : RLNegotiator) (state action : string) (v : Q) : Prop :=
  ∃ q, q_value st state action = Some q ∧ (q == v)%Q.

(** Two rounds in which the generator makes the negotiator explore
    (0.05 < ε) and picks [counter_high], then [accept]. *)
Definition raise_then_accept (round_num : nat) : Draw :=
  match round_num with
  | O => mkDraw 0.05 3
  | _ => mkDraw 0.05 0
  end.

(** [global_negotiator] after one and after two identical episodes
    [negotiate("x", 109, 100, 5.0, 2)] with those draws. *)
Definition after_first_episode : RLNegotiator :=
  store (negotiate "x" 109 100 5.0 2 raise_then_accept global_negotiator).

Definition after_second_episode : RLNegotiator :=
  store (negotiate "x" 109 100 5.0 2 raise_then_accept after_first_episode).

(** The row a method finds for [state] once [ensure_row] has run. *)
Definition row_of (st : RLNegotiator) (state : string) : list (string * Q) :=
  default zero_row (q_table st !! state).

(** [max(row.values())] of a row that is not empty. *)
Definition row_max (row : list (string * Q)) : Q :=
  match row with
  | kv :: rest => max_scan Qgtb (snd kv) (snd <$> rest)
  | [] => 0%Q
  end.

(** The bootstrap term [max_next_q] of [update_q_value]. *)
Definition bootstrap (st : RLNegotiator) (next_state : option string) : Q :=
  match truthy next_state with
  | Some ns => row_max (row_of st ns)
  | None => 0%Q
  end.

(** [st'] has the learning parameters of [st] and every state of its
    table. *)
Definition grows (st st' : RLNegotiator) : Prop :=
  learning_rate st' = learning_rate st ∧ discount_factor st' = discount_factor st ∧
  epsilon st' = epsilon st ∧
  ∀ s, is_Some (q_table st !! s) → is_Some (q_table st' !! s).

(** A method body that, from every store, keeps the learning parameters
    and every state of the table, and adds only states of [Y] and at most
    [n] others, whether it returns or raises. *)
Definition learns {A : Type} (Y : gset string) (n : nat) (m : M RLNegotiator A) : Prop :=
  ∀ st, ∃ X : gset string,
    (size X ≤ n)%nat ∧ grows st (store (m st)) ∧
    dom (q_table (store (m st))) ⊆ dom (q_table st) ∪ Y ∪ X.

(** What [get_strategy_stats] returns: the message of the empty table, or
    the three statistics. *)
Inductive StrategyStats : Type :=
| NoData (message : string)
| Stats (states_learned : nat) (action_preferences : list (string * Z))
        (exploration_rate : Q).

(** One turn of the loop of [get_strategy_stats]:
    [action_preferences[max(row, key=row.get)] += 1]. *)
Definition tally (prefs : list (string * Z)) (row : list (string * Q))
    : outcome (list (string * Z)) :=
  match row with
  | [] => Raised ValueError
  | kv :: rest =>
      let best_action := fst (max_scan (λ x y, Qgtb (snd x) (snd y)) kv rest) in
      match odict_lookup prefs best_action with
      | Some n => Returned (odict_set prefs best_action (n + 1))
      | None => Raised (KeyError best_action)
      end
  end.

Fixpoint tally_all (prefs : list (string * Z)) (rows : list (list (string * Q)))
    : outcome (list (string * Z)) :=
  match rows with
  | [] => Returned prefs
  | row :: rows' =>
      match tally prefs row with
      | Returned prefs' => tally_all prefs' rows'
      | Raised e => Raised e
      end
  end.

(** [get_strategy_stats].  The rows are visited in the order of
    [map_to_list]; the tally does not depend on the order. *)
Definition get_strategy_stats (st : RLNegotiator) : outcome StrategyStats :=
  if decide (q_table st = ∅) then Returned (NoData "No learning data available")
  else
    match tally_all ((λ a, (a, 0)) <$> actions) (snd <$> map_to_list (q_table st)) with
    | Returned prefs => Returned (Stats (size (q_table st)) prefs (epsilon st))
    | Raised e => Raised e
    end.

(** [max(row, key=row.get)] of a row that is not empty. *)
Definition greedy_action (row : list (string * Q)) : string :=
  match row with
  | kv :: rest => fst (max_scan (λ x y, Qgtb (snd x) (snd y)) kv rest)
  | [] => EmptyString
  end.

(** The number of rows of a list whose greedy action is [a]. *)
Definition greedy_count (rows : list (list (string * Q))) (a : string) : Z :=
  Z.of_nat (length (filter (λ row, greedy_action row = a) rows)).

(** The number of states of the table whose greedy action is [a]. *)
Definition prefer_count (st : RLNegotiator) (a : string) : Z :=
  Z.of_nat (size (filter (λ kv, greedy_action (snd kv) = a) (q_table st))).

(** What [get_state] appends after the price category. *)
Definition state_tail (agent_reputation urgency : Q) : string :=
  "_" +:+ (if Qltb agent_reputation 3.0 then "low"
           else if Qltb agent_reputation 4.5 then "medium" else "high")
      +:+ "_" +:+ (if Qltb urgency 0.3 then "low"
                   else if Qltb urgency 0.7 then "medium" else "high").

(** The prices up to which the theorems below speak about the price
    ratio, the counter-offers and the asking threshold.  The embedding
    takes the quotient [p / m] and the products [n * 0.8] and [n * 1.2] as
    exact rationals, where the source computes them on binary64.  For
    integers of at most this size both give the same bucket and the same
    integer: two different quotients of such integers are at least
    [2·10^-13] apart and a product that is not an integer is at least 0.2
    away from one, while binary64 is off by less than [10^-3] of that.
    Beyond about [10^15] they part (section [Binary64Limits]), and from
    about [1.8·10^308] on the source raises [OverflowError]. *)
Definition price_limit : Z := 10 ^ 12.

(** The offers of an episode of up to [max_rounds] rounds stay within the
    limit: a counter-offer raises an offer by at most a fifth. *)
Definition offers_in_range (initial_offer max_rounds : Z) : Prop :=
  Z.abs initial_offer * 6 ^ Z.max max_rounds 0 ≤ price_limit * 5 ^ Z.max max_rounds 0.

(** The price bucket of [get_state], on integers. *)
Definition price_bucket (offered_price market_price : Z) : string :=
  if decide (5 * offered_price < 4 * Z.max market_price 1) then "low"
  else if decide (5 * offered_price < 6 * Z.max market_price 1) then "fair"
  else "high".

End Negotiator.

(** ** The same arithmetic on binary64

    The float expressions of [rl_negotiation.py] that decide a bucket or an
    offer, written with IEEE 754 binary64 operations, to check the exact
    rationals of [Negotiator] against them on the simulator's prices. *)

Module Binary64.

#[local] Set Warnings "-inexact-float".

(** [float(n)] for [0 ≤ n < 2^63]: exact below [2^53], rounded to the
    nearest float from there on. *)
Definition of_int (n : Z) : float := PrimFloat.of_uint63 (Uint63.of_Z n).

(** [int(x)] on a finite float: truncation towards zero. *)
Definition to_int (x : float) : Z :=
  match Prim2SF x with
  | S754_finite s m e =>
      let v := if 0 <=? e then Z.pos m * 2 ^ e else Z.pos m / 2 ^ (- e) in
      if s then - v else v
  | _ => 0
  end.

(** The rational a finite float stands for. *)
Definition to_Q (x : float) : Q :=
  match Prim2SF x with
  | S754_finite s m e =>
      let v := if 0 <=? e then inject_Z (Z.pos m * 2 ^ e)
               else Z.pos m # Z.to_pos (2 ^ (- e)) in
      if s then Qopp v else v
  | _ => 0%Q
  end.

(** [price_category] of [get_state] *)
Definition price_category (offered_price market_price : Z) : string :=
  let price_ratio := (of_int offered_price / of_int (Z.max market_price 1))%float in
  if (price_ratio <? 0.8)%float then "low"
  else if (price_ratio <? 1.2)%float then "fair" else "high".

(** [urgency_category] of [get_state] for [urgency=round_num/max_rounds] *)
Definition urgency_category (round_num max_rounds : Z) : string :=
  let urgency := (of_int round_num / of_int max_rounds)%float in
  if (urgency <? 0.3)%float then "low"
  else if (urgency <? 0.7)%float then "medium" else "high".

(** [calculate_reward(final_price, market_price, True)], [market_price ≠ 0] *)
Definition calculate_reward (final_price market_price : Z) : float :=
  let price_ratio := (of_int final_price / of_int market_price)%float in
  if (1.2 <? price_ratio)%float then 1.0%float
  else if (1.0 <? price_ratio)%float then 0.5%float
  else if (0.8 <? price_ratio)%float then 0.0%float
  else (-0.5)%float.

Definition counter_low (current_offer : Z) : Z :=
  Z.max 1 (to_int (of_int current_offer * 0.8)%float).

Definition counter_high (current_offer : Z) : Z :=
  to_int (of_int current_offer * 1.2)%float.

(** Agreement with [Negotiator] at one pair of prices, and at one round. *)
Definition agrees_at_prices (offer market_price : Z) : bool :=
  bool_decide (Negotiator.get_state "s" offer market_price 5.0 0.5
               = "s_" +:+ price_category offer market_price +:+ "_high_medium")
  && (if decide (market_price = 0) then true
      else match Negotiator.calculate_reward offer market_price true with
           | Py.Returned r => Qeq_bool r (to_Q (calculate_reward offer market_price))
           | Py.Raised _ => false
           end).

Definition agrees_at_round (round_num max_rounds : Z) : bool :=
  bool_decide (Negotiator.get_state "s" 100 100 5.0
                 (inject_Z round_num / inject_Z max_rounds)%Q
               = "s_fair_high_" +:+ urgency_category round_num max_rounds).

Definition agrees_at_offer (offer : Z) : bool :=
  (Negotiator.counter_low offer =? counter_low offer)
  && (Negotiator.counter_high offer =? counter_high offer).

(** [offered_price >= actual_price * 0.8] of [handle_request], and
    [int(base_price * (1 + load * 0.1) * 1.0)] of [get_dynamic_price]. *)
Definition asking_met (actual_price offered_price : Z) : bool :=
  (of_int actual_price * 0.8 <=? of_int offered_price)%float.

Definition dynamic_price (base_price load : Z) : Z :=
  to_int (of_int base_price * (1 + of_int load * 0.1) * 1.0)%float.

(** Agreement at the prices within 2 of 0.8, 1.0 and 1.2 times a market
    price, where a rounded quotient could fall on the other side, and
    agreement on the asking threshold at the offers within 2 of 0.8 times
    a price. *)
Definition agrees_near_boundaries (market_price : Z) : bool :=
  forallb (λ d, agrees_at_prices (4 * market_price / 5 + d) market_price
                && agrees_at_prices (market_price + d) market_price
                && agrees_at_prices (6 * market_price / 5 + d) market_price)
          (seqZ (-2) 5).

Definition agrees_at_asking (actual_price : Z) : bool :=
  forallb (λ d, bool_decide (asking_met actual_price (4 * actual_price / 5 + d) = true
                             ↔ 4 * actual_price ≤ 5 * (4 * actual_price / 5 + d)))
          (seqZ (-2) 5).

(** Market prices and offers spread up to [price_limit]: the greatest
    thousand and a thousand more spaced out below them. *)
Definition prices_at_scale : list Z :=
  ((λ j, Negotiator.price_limit - j) <$> seqZ 0 1000)
  ++ ((λ j, Negotiator.price_limit - 987654321 * j) <$> seqZ 1 1000).

End Binary64.

(** ** [src/ai/bandit_selection.py] *)

Module Bandit.
Import Py.

(** *** [class MultiArmedBandit] *)

Record MultiArmedBandit : Type := mkBandit {
  agents : list string;
  rewards : gmap string (list Q);
  selection_count : gmap string Z;
  cumulative_reward : gmap string Q;
  confidence_interval : gmap string Q;
  total_selections : Z
}.

(** [{agent: v for agent in agents}] *)
Definition dict_of_keys {V : Type} (keys : list string) (v : V) : gmap string V :=
  foldl (λ d k, <[k := v]> d) ∅ keys.

(** [MultiArmedBandit.__init__] *)
Definition init (agents : list string) (initial_confidence : Q) : MultiArmedBandit :=
  {| agents := agents;
     rewards := dict_of_keys agents [];
     selection_count := dict_of_keys agents 0;
     cumulative_reward := dict_of_keys agents 0.0%Q;
     confidence_interval := dict_of_keys agents initial_confidence;
     total_selections := 0 |}.

(** The module-level [service_bandit] *)
Definition service_bandit : MultiArmedBandit :=
  init ["DataProcessor_A"; "Translator_B"; "Computer_C"] 1.0.

(** A UCB value: a float, or [float('inf')]. *)
Inductive score : Type :=
| Finite (q : Q)
| Infinity.

(** [x > y] on those. *)
Definition score_gtb (x y : score) : bool :=
  match x, y with
  | Infinity, Finite _ => true
  | Finite a, Finite b => Qgtb a b
  | _, Infinity => false
  end.

(** [update_reward] *)
Definition update_reward (agent : string) (reward : Q) : M MultiArmedBandit unit :=
  rws ← gets rewards;
  rs ← getitem rws agent;
  modify (λ b, mkBandit (agents b) (<[agent := rs ++ [reward]]> (rewards b))
                 (selection_count b) (cumulative_reward b) (confidence_interval b)
                 (total_selections b));;
  cums ← gets cumulative_reward;
  cum ← getitem cums agent;
  modify (λ b, mkBandit (agents b) (rewards b) (selection_count b)
                 (<[agent := (cum + reward)%Q]> (cumulative_reward b))
                 (confidence_interval b) (total_selections b));;
  cnts ← gets selection_count;
  cnt ← getitem cnts agent;
  modify (λ b, mkBandit (agents b) (rewards b) (<[agent := cnt + 1]> (selection_count b))
                 (cumulative_reward b) (confidence_interval b) (total_selections b));;
  modify (λ b, mkBandit (agents b) (rewards b) (selection_count b)
                 (cumulative_reward b) (confidence_interval b) (total_selections b + 1)).

Section Numpy.
(** [np.log] and [np.sqrt] on the floats. *)
Variable np_log np_sqrt : Q → Q.

(** The body of the loop of [select_ucb1] for one agent. *)
Definition ucb_value (c : Q) (agent : string) : M MultiArmedBandit score :=
  cnts ← gets selection_count;
  cnt ← getitem cnts agent;
  if decide (cnt = 0) then mret Infinity
  else
    cums ← gets cumulative_reward;
    cum ← getitem cums agent;
    total ← gets total_selections;
    let avg_reward := (cum / inject_Z cnt)%Q in
    let confidence := (c * np_sqrt (np_log (inject_Z total) / inject_Z cnt))%Q in
    mret (Finite (avg_reward + confidence)%Q).

(** [for agent in self.agents: ucb_values[agent] = …] *)
Fixpoint ucb_values (c : Q) (todo : list string) (acc : list (string * score))
    : M MultiArmedBandit (list (string * score)) :=
  match todo with
  | [] => mret acc
  | agent :: todo' =>
      v ← ucb_value c agent;
      ucb_values c todo' (odict_set acc agent v)
  end.

(** [select_ucb1]; [pick] is the generator's pick for [random.choice]. *)
Definition select_ucb1 (c : Q) (pick : nat) : M MultiArmedBandit string :=
  total ← gets total_selections;
  ags ← gets agents;
  if decide (total = 0) then random_choice ags pick
  else
    vals ← ucb_values c ags [];
    max_key score_gtb vals.

(** [n] rounds of the loop "select with UCB, then report the reward of the
    selected arm", from round [k] on; [picks k] is the generator's pick and
    [outcome_of k a] the reward observed for arm [a] in round [k].  The
    result is the list of the arms selected. *)
Fixpoint ucb_rounds (c : Q) (picks : nat → nat) (outcome_of : nat → string → Q)
    (n k : nat) : M MultiArmedBandit (list string) :=
  match n with
  | O => mret []
  | S n' =>
      a ← select_ucb1 c (picks k);
      update_reward a (outcome_of k a);;
      rest ← ucb_rounds c picks outcome_of n' (S k);
      mret (a :: rest)
  end.

End Numpy.

(** Each arm of [agents] has its entry in the three dicts the methods read,
    with a count that is not negative, and no selection has been counted
    unless [total_selections] says so. *)
Definition bandit_ok (b : MultiArmedBandit) : Prop :=
  (∀ a, a ∈ agents b ↔ is_Some (rewards b !! a)) ∧
  (∀ a, a ∈ agents b ↔ is_Some (selection_count b !! a)) ∧
  (∀ a, a ∈ agents b ↔ is_Some (cumulative_reward b !! a)) ∧
  (∀ a n, selection_count b !! a = Some n → 0 ≤ n) ∧
  0 ≤ total_selections b ∧
  (total_selections b = 0 → ∀ a n, selection_count b !! a = Some n → n = 0).

(** Arm [a] has never been selected. *)
Definition untried (b : MultiArmedBandit) (a : string) : Prop :=
  a ∈ agents b ∧ selection_count b !! a = Some 0.

(** The arms selected so far are [sel], once each, and no other arm has
    been selected. *)
Definition explored (ags : list string) (b : MultiArmedBandit) (sel : list string) : Prop :=
  agents b = ags ∧ bandit_ok b ∧ NoDup sel ∧ (∀ a, a ∈ sel → a ∈ ags) ∧
  (∀ a, a ∈ ags → selection_count b !! a = Some (if decide (a ∈ sel) then 1 else 0)) ∧
  total_selections b = Z.of_nat (length sel).

(** The invariant of the dict [ucb_values] while it is filled: its keys
    are arms, and a value is infinite exactly for an arm never selected. *)
Definition scores_ok (b : MultiArmedBandit) (vals : list (string * score)) : Prop :=
  ∀ k v, (k, v) ∈ vals → k ∈ agents b ∧ (v = Infinity ↔ selection_count b !! k = Some 0).

(** *** [class ContextualBandit] *)

(** An entry of [history]. *)
Record Observation : Type := mkObservation {
  obs_agent : string;
  obs_context : list Q;
  obs_reward : Q;
  obs_error : Q;
  obs_timestamp : Q
}.

Record ContextualBandit : Type := mkContextual {
  cb_agents : list string;
  context_dim : nat;
  weights : gmap string (list Q);
  history : list Observation
}.

(** [ContextualBandit.__init__]; [normal a i] is component [i] of the
    sample [np.random.normal(0, 0.1, context_dimensions)] drawn for agent
    [a]. *)
Definition cb_init (agents : list string) (context_dimensions : nat)
    (normal : string → nat → Q) : ContextualBandit :=
  {| cb_agents := agents;
     context_dim := context_dimensions;
     weights := foldl (λ d a, <[a := normal a <$> seq 0 context_dimensions]> d) ∅ agents;
     history := [] |}.

(** The module-level [contextual_bandit], for a given sample. *)
Definition contextual_bandit (normal : string → nat → Q) : ContextualBandit :=
  cb_init ["DataProcessor_A"; "Translator_B"; "Computer_C"] 4 normal.

(** [np.dot] on two vectors: [ValueError] when their lengths differ.  The
    sum of the products is exact here; binary64 rounds every step. *)
Definition np_dot (x y : list Q) : outcome Q :=
  if decide (length x = length y)
  then Returned (foldr Qplus 0%Q (zip_with Qmult x y))
  else Raised ValueError.

(** [predict_reward] *)
Definition predict_reward (agent : string) (context : list Q) : M ContextualBandit Q :=
  ws ← gets weights;
  w ← getitem ws agent;
  lift (np_dot w context).

(** [update_weights]; [now] is the clock reading stored in the history. *)
Definition update_weights (agent : string) (context : list Q) (reward learning_rate now : Q)
    : M ContextualBandit unit :=
  predicted ← predict_reward agent context;
  let error := (reward - predicted)%Q in
  ws ← gets weights;
  w ← getitem ws agent;
  modify (λ b, mkContextual (cb_agents b) (context_dim b)
                 (<[agent := zip_with (λ wi ci, (wi + learning_rate * error * ci)%Q)
                               w context]> (weights b))
                 (history b));;
  modify (λ b, mkContextual (cb_agents b) (context_dim b) (weights b)
                 (history b ++ [mkObservation agent context reward error now])).

(** Each arm of [cb_agents], and no other name, has a weight vector, of
    the dimension of the contexts. *)
Definition contextual_ok (b : ContextualBandit) : Prop :=
  (∀ a, a ∈ cb_agents b ↔ is_Some (weights b !! a)) ∧
  (∀ a w, weights b !! a = Some w → length w = context_dim b).

(** Stand-ins for [np.log] and [np.sqrt] where a concrete run needs them:
    a few terms of [2·atanh((x-1)/(x+1))] and a Newton iteration. *)
Definition approx_log (x : Q) : Q :=
  let y := Qred ((x - 1) / (x + 1))%Q in
  let y2 := Qred (y * y)%Q in
  Qred (2 * y * (1 + y2 / 3 + y2 * y2 / 5 + y2 * y2 * y2 / 7))%Q.

Definition approx_sqrt (x : Q) : Q :=
  if Qle_bool x 0 then 0%Q
  else Nat.iter 5 (λ g, Qred ((g + x / g) / 2)%Q) (Qred ((x + 1) / 2)%Q).

(** The reward of the demonstration runs: 1.0 for the first arm, 0.0 for
    the others. *)
Definition first_arm_pays (k : nat) (a : string) : Q :=
  if decide (a = "DataProcessor_A") then 1.0%Q else 0.0%Q.

(** *** The other selection strategies of [MultiArmedBandit] *)

Section Division.
(** [x / n] for a float [x] and an int [n ≥ 1], as binary64 rounds it.
    The averages of [select_epsilon_greedy] only serve to be compared, so
    the rounding can decide which agent is returned: the division is
    left to the floats. *)
Variable float_div : Q → Z → Q.

(** One value of the dict comprehension of [select_epsilon_greedy]:
    [self.cumulative_reward[agent] / max(self.selection_count[agent], 1)]. *)
Definition avg_reward (agent : string) : M MultiArmedBandit Q :=
  cums ← gets cumulative_reward;
  cum ← getitem cums agent;
  cnts ← gets selection_count;
  cnt ← getitem cnts agent;
  mret (float_div cum (Z.max cnt 1)).

(** [{agent: … for agent in self.agents}] *)
Fixpoint avg_rewards (todo : list string) (acc : list (string * Q))
    : M MultiArmedBandit (list (string * Q)) :=
  match todo with
  | [] => mret acc
  | agent :: todo' =>
      v ← avg_reward agent;
      avg_rewards todo' (odict_set acc agent v)
  end.

(** [select_epsilon_greedy]; [random.random()] is drawn before the count
    is looked at. *)
Definition select_epsilon_greedy (epsilon : Q) (d : Draw) : M MultiArmedBandit string :=
  total ← gets total_selections;
  ags ← gets agents;
  if Qltb (rand_u d) epsilon || bool_decide (total = 0) then random_choice ags (rand_pick d)
  else
    vals ← avg_rewards ags [];
    max_key Qgtb vals.

(** The average [select_epsilon_greedy] computes for an agent. *)
Definition average (b : MultiArmedBandit) (agent : string) : Q :=
  float_div (dict_get (cumulative_reward b) agent 0%Q)
    (Z.max (dict_get (selection_count b) agent 0%Z) 1).

End Division.

(** The division on exact rationals, for concrete runs. *)
Definition exact_div (x : Q) (n : Z) : Q := (x / inject_Z n)%Q.

(** [sum(1 for r in rewards if r > 0.5)] *)
Definition hits (rs : list Q) : Z :=
  Z.of_nat (length (filter (λ r, Qgtb r 0.5 = true) rs)).

(** The two parameters [select_thompson_sampling] hands to the Beta
    distribution. *)
Definition successes (rs : list Q) : Z := Z.max 1 (hits rs).

Definition failures (rs : list Q) : Z :=
  Z.max 1 (Z.of_nat (length rs) - successes rs + 1).

(** [np.random.beta(a, b)]: [ValueError] unless both parameters are
    positive, otherwise the sample the generator draws. *)
Definition np_random_beta (a b : Z) (sample : Q) : outcome Q :=
  if decide (0 < a ∧ 0 < b) then Returned sample else Raised ValueError.

(** The loop of [select_thompson_sampling]; [draws k] is the sample of
    iteration [k]. *)
Fixpoint thompson_samples (draws : nat → Q) (k : nat) (todo : list string)
    (acc : list (string * Q)) : M MultiArmedBandit (list (string * Q)) :=
  match todo with
  | [] => mret acc
  | agent :: todo' =>
      rws ← gets rewards;
      rs ← getitem rws agent;
      v ← lift (np_random_beta (successes rs) (failures rs) (draws k));
      thompson_samples draws (S k) todo' (odict_set acc agent v)
  end.

(** [select_thompson_sampling] *)
Definition select_thompson_sampling (draws : nat → Q) : M MultiArmedBandit string :=
  ags ← gets agents;
  samples ← thompson_samples draws 0 ags [];
  max_key Qgtb samples.

(** A run of [update_reward] calls, one per reported [(agent, reward)]. *)
Fixpoint update_rewards (reports : list (string * Q)) : M MultiArmedBandit unit :=
  match reports with
  | [] => mret tt
  | (agent, reward) :: reports' =>
      update_reward agent reward;;
      update_rewards reports'
  end.

(** The rewards reported for [agent], in the order of the reports. *)
Definition reported (reports : list (string * Q)) (agent : string) : list Q :=
  snd <$> filter (λ ar, fst ar = agent) reports.

(** *** The other methods of [ContextualBandit] *)

(** The dict literal of [get_context]. *)
Definition service_complexity : gmap string Q :=
  list_to_map [("clean_data", 0.3%Q); ("translate_text", 0.5%Q);
               ("analyze_sentiment", 0.6%Q); ("run_analysis", 0.8%Q);
               ("generate_report", 0.9%Q); ("optimize_model", 1.0%Q)].

(** [get_context] *)
Definition get_context (service_type : string) (urgency : Q) (budget : Z)
    (time_of_day : Q) : list Q :=
  [dict_get service_complexity service_type 0.5%Q; urgency;
   (inject_Z budget / 100.0)%Q; time_of_day].

(** [{agent: self.predict_reward(agent, context) for agent in self.agents}] *)
Fixpoint predictions (context : list Q) (todo : list string) (acc : list (string * Q))
    : M ContextualBandit (list (string * Q)) :=
  match todo with
  | [] => mret acc
  | agent :: todo' =>
      v ← predict_reward agent context;
      predictions context todo' (odict_set acc agent v)
  end.

(** [select_agent] *)
Definition select_agent (context : list Q) (exploration : Q) (d : Draw)
    : M ContextualBandit string :=
  ags ← gets cb_agents;
  if Qltb (rand_u d) exploration then random_choice ags (rand_pick d)
  else
    preds ← predictions context ags [];
    max_key Qgtb preds.

(** The dict a comprehension [{k: g(k) for k in keys}] builds on top of
    [acc]. *)
Definition comprehension {V : Type} (g : string → V) (keys : list string)
    (acc : list (string * V)) : list (string * V) :=
  foldl (λ acc k, odict_set acc k (g k)) acc keys.

(** The dot product of two vectors of equal length. *)
Definition dot (x y : list Q) : Q := foldr Qplus 0%Q (zip_with Qmult x y).

(** The reward the linear model predicts for an agent. *)
Definition prediction (b : ContextualBandit) (context : list Q) (agent : string) : Q :=
  dot (dict_get (weights b) agent []) context.

End Bandit.

(** ** [src/agents/agent_base.py] *)

Module Agent.
Import Py Ledger.

(** [ServiceRequest] and [ServiceResponse] of
    [communication/message_schema.py]; the optional [deadline] and
    [requirements] of a request, which no method reads, are left out.  The
    timestamps are the clock readings of [__post_init__]. *)
Record ServiceRequest : Type := mkRequest {
  sender : string;
  receiver : string;
  service_type : string;
  offered_price : Z;
  request_timestamp : Q
}.

Record ServiceResponse : Type := mkResponse {
  success : bool;
  message : string;
  cost : Z;
  execution_time : Q;
  response_timestamp : Q
}.

(** An entry of [service_history]. *)
Record Completed : Type := mkCompleted {
  done_service : string;
  done_price : Z;
  done_client : string;
  done_timestamp : Q
}.

Record AgentBase : Type := mkAgent {
  name : string;
  services : gmap string Z;
  balance : Z;
  service_history : list Completed;
  success_rate : Q;
  response_time : Q;
  load : Z;
  reputation : Q
}.

(** An agent together with the ledger object its [ledger] attribute refers
    to: the methods of the agent act on both. *)
Record Site : Type := mkSite {
  self : AgentBase;
  ledger : MockLedger
}.

(** [AgentBase.__init__]; [uniform_1_3] is the draw of
    [random.uniform(1, 3)]. *)
Definition init (name : string) (services : gmap string Z) (uniform_1_3 : Q) : AgentBase :=
  mkAgent name services 100 [] 0.95 uniform_1_3 0 5.0.

(** A method of the ledger, called through [self.ledger]. *)
Definition on_ledger {A : Type} (m : M MockLedger A) : M Site A :=
  λ s, (result (m (ledger s)), mkSite (self s) (store (m (ledger s)))).

(** [get_dynamic_price].  For an agent without load the product is the
    base price, on binary64 as well while the base price is below [2^53];
    with load the float product can fall just below the integer the exact
    product gives. *)
Definition get_dynamic_price (a : AgentBase) (service_type : string) (base_demand : Q) : Z :=
  let base_price := dict_get (services a) service_type 0 in
  let load_multiplier := (1 + inject_Z (load a) * 0.1)%Q in
  let demand_multiplier := base_demand in
  int (inject_Z base_price * load_multiplier * demand_multiplier)%Q.

(** What [handle_request] reads from outside: the clock at the transfer,
    at the history entry and at the response, and the draw of
    [random.uniform(1, 5)]. *)
Record Readings : Type := mkReadings {
  t_transfer : Q;
  t_history : Q;
  t_response : Q;
  uniform_1_5 : Q
}.

Section Hash.
Variable hash : string → Z.

(** [handle_request] *)
Definition handle_request (request : ServiceRequest) (r : Readings)
    : M Site ServiceResponse :=
  a ← gets self;
  if decide (services a !! service_type request = None) then
    mret (mkResponse false "Service not offered" 0 0 (t_response r))
  else
    let actual_price := get_dynamic_price a (service_type request) 1.0 in
    if Qle_bool (inject_Z actual_price * 0.8) (inject_Z (offered_price request)) then
      paid ← on_ledger (transfer hash (sender request) (name a) (offered_price request)
                          None (t_transfer r));
      if paid : bool then
        modify (λ s, mkSite
                  (mkAgent (name (self s)) (services (self s)) (balance (self s))
                     (service_history (self s)
                      ++ [mkCompleted (service_type request) (offered_price request)
                            (sender request) (t_history r)])
                     (success_rate (self s)) (response_time (self s))
                     (Z.max 0 (load (self s) - 1)) (reputation (self s)))
                  (ledger s));;
        mret (mkResponse true
                (name a +:+ " completed " +:+ service_type request +:+ " for "
                 +:+ sender request)
                (offered_price request) (uniform_1_5 r) (t_response r))
      else
        mret (mkResponse false "Payment failed - insufficient funds" 0 0 (t_response r))
    else
      mret (mkResponse false ("Price too low. Minimum: " +:+ str actual_price)
              actual_price 0 (t_response r)).
End Hash.

(** The builtins [min] and [max] on two floats: the first argument unless
    the second is strictly smaller (greater). *)
Definition py_min (x y : Q) : Q := if Qltb y x then y else x.
Definition py_max (x y : Q) : Q := if Qgtb y x then y else x.

(** [update_reputation] *)
Definition update_reputation (rating : Q) : M Site unit :=
  modify (λ s, mkSite
            (mkAgent (name (self s)) (services (self s)) (balance (self s))
               (service_history (self s)) (success_rate (self s)) (response_time (self s))
               (load (self s))
               (py_max 1.0 (py_min 5.0 (reputation (self s) * 0.9 + rating * 0.1)%Q)))
            (ledger s)).

(** A call of one of the two methods that change the agent. *)
Inductive call : Type :=
| HandleRequest (request : ServiceRequest) (r : Readings)
| UpdateReputation (rating : Q).

(** The site a call leaves, whether it returns or raises, and the site a
    run of calls leaves. *)
Definition step (hash : string → Z) (c : call) (s : Site) : Site :=
  match c with
  | HandleRequest request r => store (handle_request hash request r s)
  | UpdateReputation rating => store (update_reputation rating s)
  end.

Definition run (hash : string → Z) (calls : list call) (s : Site) : Site :=
  foldl (λ s c, step hash c s) s calls.

End Agent.

(** ** [src/agents/agent_a.py], [agent_b.py], [agent_c.py] and the
    simulation loop of [src/main.py] *)

Module Simulation.
Import Py.

(** The three agent modules: the constructor, then the three attributes
    they overwrite. *)
Definition agent_a : Agent.AgentBase :=
  Agent.mkAgent "DataProcessor_A"
    (list_to_map [("clean_data", 5); ("validate_data", 3); ("transform_data", 7)])
    100 [] 0.98 1.5 0 4.8.

Definition agent_b : Agent.AgentBase :=
  Agent.mkAgent "Translator_B"
    (list_to_map [("translate_text", 4); ("summarize_text", 6); ("analyze_sentiment", 5)])
    100 [] 0.95 2.0 0 4.6.

Definition agent_c : Agent.AgentBase :=
  Agent.mkAgent "Computer_C"
    (list_to_map [("run_analysis", 8); ("generate_report", 10); ("optimize_model", 15)])
    100 [] 0.92 3.5 0 4.4.

(** The objects the loop works on: the dict [agents] of
    [initialize_system], and the module-level ledger (to which every agent
    refers), negotiator and bandits. *)
Record World : Type := mkWorld {
  agents : list (string * Agent.AgentBase);
  ledger : Ledger.MockLedger;
  negotiator : Negotiator.RLNegotiator;
  service_bandit : Bandit.MultiArmedBandit;
  contextual_bandit : Bandit.ContextualBandit
}.

(** The world [main] starts the simulation in; [normal] is the sample
    drawn for the weights of the contextual bandit. *)
Definition initial_world (normal : string → nat → Q) : World :=
  mkWorld [("DataProcessor_A", agent_a); ("Translator_B", agent_b); ("Computer_C", agent_c)]
    Ledger.ledger_instance Negotiator.global_negotiator Bandit.service_bandit
    (Bandit.contextual_bandit normal).

(** Methods of the module-level objects, called from the loop. *)
Definition on_negotiator {A : Type} (m : M Negotiator.RLNegotiator A) : M World A :=
  λ w, (result (m (negotiator w)),
        mkWorld (agents w) (ledger w) (store (m (negotiator w))) (service_bandit w)
          (contextual_bandit w)).

Definition on_service_bandit {A : Type} (m : M Bandit.MultiArmedBandit A) : M World A :=
  λ w, (result (m (service_bandit w)),
        mkWorld (agents w) (ledger w) (negotiator w) (store (m (service_bandit w)))
          (contextual_bandit w)).

Definition on_contextual_bandit {A : Type} (m : M Bandit.ContextualBandit A) : M World A :=
  λ w, (result (m (contextual_bandit w)),
        mkWorld (agents w) (ledger w) (negotiator w) (service_bandit w)
          (store (m (contextual_bandit w)))).

(** A method of the agent object stored under [key], which acts on that
    object and on the ledger. *)
Definition on_agent {A : Type} (key : string) (m : M Agent.Site A) : M World A :=
  λ w, match odict_lookup (agents w) key with
       | Some a =>
           let r := m (Agent.mkSite a (ledger w)) in
           (result r,
            mkWorld (odict_set (agents w) key (Agent.self (store r)))
              (Agent.ledger (store r)) (negotiator w) (service_bandit w)
              (contextual_bandit w))
       | None => (Raised (KeyError key), w)
       end.

(** [random.randint(a, b)]: [ValueError] on an empty range. *)
Definition random_randint {S : Type} (a b : Z) (pick : nat) : M S Z :=
  if decide (a ≤ b) then ret (a + Z.of_nat pick `mod` (b - a + 1))
  else raise ValueError.

(** What one round reads from the generator and the clock. *)
Record Inputs : Type := mkInputs {
  pick_sender : nat;
  pick_receiver : nat;
  pick_service : nat;
  pick_offer : nat;
  random_urgency : Q;
  time_of_day : Q;
  select_draw : Draw;
  pick_capable : nat;
  negotiation_draws : nat → Draw;
  request_clock : Q;
  readings : Agent.Readings;
  uniform_satisfaction : Q;
  update_clock : Q
}.

Inductive status : Type := Success | Failed | Rejected.

(** An entry of [results]. *)
Record Result : Type := mkResult {
  res_round : Z;
  res_sender : string;
  res_receiver : string;
  res_service : string;
  res_price : option Z;
  res_status : status;
  res_time : option Q
}.

Section Hash.
Variable hash : string → Z.

(** The end of a round of [run_simulation], from the answer of the
    negotiator on: the request at the negotiated price, what is learned
    from its outcome, and the entry of [results]. *)
Definition settle (i : nat) (inp : Inputs) (sender receiver service_type : string)
    (context : list Q) (market_price : Z) (agent_reputation : Q)
    (negotiated : string * Z) : M World (option Result) :=
  let final_price := snd negotiated in
  if decide (fst negotiated = "accept") then
    let request := Agent.mkRequest sender receiver service_type final_price
                     (request_clock inp) in
    response ← on_agent receiver (Agent.handle_request hash request (readings inp));
    if Agent.success response then
      on_contextual_bandit
        (Bandit.update_weights receiver context (uniform_satisfaction inp) 0.01
           (update_clock inp));;
      on_service_bandit (Bandit.update_reward receiver (uniform_satisfaction inp));;
      reward ← lift (Negotiator.calculate_reward (Agent.cost response) market_price true);
      on_negotiator
        (Negotiator.update_q_value
           (Negotiator.get_state service_type (Agent.cost response) market_price
              agent_reputation 0.5)
           "accept" reward None);;
      mret (Some (mkResult (Z.of_nat i + 1) sender receiver service_type
                    (Some (Agent.cost response)) Success
                    (Some (Agent.execution_time response))))
    else
      on_contextual_bandit
        (Bandit.update_weights receiver context (-0.5) 0.01 (update_clock inp));;
      on_service_bandit (Bandit.update_reward receiver (-0.5));;
      mret (Some (mkResult (Z.of_nat i + 1) sender receiver service_type
                    (Some final_price) Failed None))
  else
    mret (Some (mkResult (Z.of_nat i + 1) sender receiver service_type
                  None Rejected None)).

(** The body of the loop of [run_simulation] for round [i]; [None] stands
    for [continue].  The listing of a dict's keys follows [map_to_list];
    the prints and the pauses are left out. *)
Definition simulation_round (i : nat) (inp : Inputs) : M World (option Result) :=
  ags ← gets agents;
  sender ← random_choice (fst <$> ags) (pick_sender inp);
  let receiver_options := filter (λ n, n ≠ sender) (fst <$> ags) in
  receiver ← random_choice receiver_options (pick_receiver inp);
  receiver_agent ← odict_getitem ags receiver;
  if decide (Agent.services receiver_agent = ∅) then mret None
  else
    service_type ← random_choice (fst <$> map_to_list (Agent.services receiver_agent))
                     (pick_service inp);
    base_price ← getitem (Agent.services receiver_agent) service_type;
    offered_price ← random_randint (int (inject_Z base_price * 0.5))
                      (int (inject_Z base_price * 1.5)) (pick_offer inp);
    let capable_agents :=
      fst <$> filter (λ na, is_Some (Agent.services (snd na) !! service_type)
                            ∧ fst na ≠ sender) ags in
    if decide (capable_agents = []) then mret None
    else
      let context := Bandit.get_context service_type (random_urgency inp) offered_price
                       (time_of_day inp) in
      selected ← on_contextual_bandit (Bandit.select_agent context 0.1 (select_draw inp));
      selected_agent ← (if decide (selected ∈ capable_agents) then mret selected
                        else random_choice capable_agents (pick_capable inp));
      final_receiver ← (if decide (selected_agent = receiver)
                        then mret (receiver, receiver_agent)
                        else a ← odict_getitem ags selected_agent;
                             mret (selected_agent, a));
      let receiver := fst final_receiver in
      let receiver_agent := snd final_receiver in
      if decide (Agent.services receiver_agent !! service_type = None) then mret None
      else
        market_price ← getitem (Agent.services receiver_agent) service_type;
        let agent_reputation := Agent.reputation receiver_agent in
        negotiated ← on_negotiator
                       (Negotiator.negotiate service_type offered_price market_price
                          agent_reputation 3 (negotiation_draws inp));
        settle i inp sender receiver service_type context market_price agent_reputation
          negotiated.

(** The loop, from round [i] on, with [n] rounds left. *)
Fixpoint simulation_rounds (inputs : nat → Inputs) (n i : nat) : M World (list Result) :=
  match n with
  | O => mret []
  | S n' =>
      r ← simulation_round i (inputs i);
      rest ← simulation_rounds inputs n' (S i);
      mret (match r with Some x => x :: rest | None => rest end)
  end.

(** [run_simulation] *)
Definition run_simulation (inputs : nat → Inputs) (num_rounds : Z) : M World (list Result) :=
  simulation_rounds inputs (Z.to_nat num_rounds) 0.

End Hash.

(** What the loop relies on and keeps: at least two agents under distinct
    keys; every agent without load, offering at least one service, all at
    a price of at least 1; every key with an account in the ledger and an
    arm in both bandits; the bandits and the table of the negotiator
    well-formed, with contexts of dimension 4. *)
Definition world_ok (w : World) : Prop :=
  NoDup (fst <$> agents w) ∧ (2 ≤ length (agents w))%nat ∧
  (∀ k a, (k, a) ∈ agents w →
     Agent.load a = 0 ∧ Agent.services a ≠ ∅ ∧
     (∀ s p, Agent.services a !! s = Some p → 1 ≤ p) ∧
     is_Some (Ledger.accounts (ledger w) !! k) ∧
     k ∈ Bandit.agents (service_bandit w) ∧
     k ∈ Bandit.cb_agents (contextual_bandit w)) ∧
  Bandit.bandit_ok (service_bandit w) ∧
  Bandit.contextual_ok (contextual_bandit w) ∧
  Bandit.context_dim (contextual_bandit w) = 4%nat ∧
  Negotiator.table_ok (negotiator w).

End Simulation.

(* ===================================================================== *)
(** * Part II: properties                                                 *)
(* ===================================================================== *)

(** ** The runtime fragment *)

Section PyFacts.
Import Py.

(** *** Running binds *)

Lemma bind_returned {S A B : Type} (m : M S A) (k : A → M S B) st a st' :
  m st = (Returned a, st') → (m ≫= k) st = k a st'.
Proof. intros H. unfold mbind, M_bind, bind. by rewrite H. Qed.

Lemma bind_raised {S A B : Type} (m : M S A) (k : A → M S B) st e st' :
  m st = (Raised e, st') → (m ≫= k) st = (Raised e, st').
Proof. intros H. unfold mbind, M_bind, bind. by rewrite H. Qed.

Lemma bind_gets {S A B : Type} (f : S → A) (k : A → M S B) st :
  (gets f ≫= k) st = k (f st) st.
Proof. done. Qed.

Lemma bind_ret {S A B : Type} (a : A) (k : A → M S B) st :
  (mret a ≫= k) st = k a st.
Proof. done. Qed.

Lemma bind_pure {S A B : Type} (a : A) (k : A → M S B) st :
  (ret a ≫= k) st = k a st.
Proof. done. Qed.

Lemma bind_getitem {S V B : Type} (d : gmap string V) (key : string) (v : V)
    (k : V → M S B) st :
  d !! key = Some v → (getitem d key ≫= k) st = k v st.
Proof. intros H. unfold getitem. by rewrite H. Qed.

Lemma bind_odict_getitem {S V B : Type} (d : list (string * V)) (key : string) (v : V)
    (k : V → M S B) st :
  odict_lookup d key = Some v → (odict_getitem d key ≫= k) st = k v st.
Proof. intros H. unfold odict_getitem. by rewrite H. Qed.

Lemma bind_lift_returned {S A B : Type} (a : A) (k : A → M S B) (st : S) :
  (lift (Returned a) ≫= k) st = k a st.
Proof. done. Qed.

Lemma bind_lift_raised {S A B : Type} (e : exn) (k : A → M S B) (st : S) :
  (lift (Raised e) ≫= k) st = (Raised e, st).
Proof. done. Qed.

(** *** Ordered dicts and [max] *)

Lemma max_scan_elem {A : Type} (gt : A → A → bool) (rest : list A) (best : A) :
  max_scan gt best rest ∈ best :: rest.
Proof.
  revert best. induction rest as [|x rest IH]; intros best; simpl.
  - apply list_elem_of_here.
  - destruct (gt x best).
    + apply list_elem_of_further, IH.
    + specialize (IH best). apply elem_of_cons in IH as [->|IH].
      * apply list_elem_of_here.
      * by do 2 apply list_elem_of_further.
Qed.

Lemma odict_lookup_is_Some {V : Type} (d : list (string * V)) (k : string) :
  k ∈ fst <$> d → is_Some (odict_lookup d k).
Proof.
  induction d as [|[k' v] d IH]; simpl; intros Hin.
  - by apply elem_of_nil in Hin.
  - case_decide; [eauto|].
    apply elem_of_cons in Hin as [->|Hin]; [done|]. by apply IH.
Qed.

Lemma odict_set_keys {V : Type} (d : list (string * V)) (k : string) (v : V) :
  k ∈ fst <$> d → fst <$> odict_set d k v = fst <$> d.
Proof.
  induction d as [|[k' v'] d IH]; simpl; intros Hin.
  - by apply elem_of_nil in Hin.
  - case_decide; [by subst|].
    apply elem_of_cons in Hin as [->|Hin]; [done|].
    rewrite !fmap_cons. f_equal. by apply IH.
Qed.

Lemma odict_lookup_set_eq {V : Type} (d : list (string * V)) (k : string) (v : V) :
  odict_lookup (odict_set d k v) k = Some v.
Proof.
  induction d as [|[k' v'] d IH]; simpl.
  - by rewrite decide_True.
  - case_decide; simpl; [by rewrite decide_True|]. by rewrite decide_False.
Qed.

Lemma random_choice_returns {S A : Type} (seq : list A) (pick : nat) (st : S) :
  seq ≠ [] → ∃ x, random_choice seq pick st = (Returned x, st) ∧ x ∈ seq.
Proof.
  intros Hne. unfold random_choice.
  assert (pick `mod` length seq < length seq)%nat as Hlt.
  { apply Nat.mod_upper_bound. destruct seq; simpl; [done|lia]. }
  destruct (lookup_lt_is_Some_2 seq _ Hlt) as [x Hx].
  rewrite Hx. exists x. split; [done|]. by eapply list_elem_of_lookup_2.
Qed.

Lemma max_key_returns {S : Type} (row : list (string * Q)) (st : S) :
  row ≠ [] → ∃ k, max_key Qgtb row st = (Returned k, st) ∧ k ∈ fst <$> row.
Proof.
  destruct row as [|kv rest]; [done|]. intros _.
  eexists. split; [reflexivity|].
  apply (list_elem_of_fmap_2 fst). apply (max_scan_elem _ rest kv).
Qed.

Lemma max_value_returns {S : Type} (row : list (string * Q)) (st : S) :
  row ≠ [] → ∃ v, max_value Qgtb row st = (Returned v, st).
Proof. destruct row; [done|]. intros _. simpl. eauto. Qed.

End PyFacts.

(** ** Ledger *)

Section LedgerFacts.
Import Py Ledger.

Ltac run_ledger :=
  unfold transfer, lock_funds, release_funds, return_locked_funds, create_account,
    getitem, dict_get, store, result, mbind, M_bind, mret, M_ret,
    bind, ret, raise, gets, modify in *;
  simpl in *.

Lemma sum_values_empty {V} (f : V → Z) : sum_values f (∅ : gmap string V) = 0.
Proof. unfold sum_values. apply map_fold_empty. Qed.

Lemma sum_values_insert_fresh {V} (f : V → Z) (d : gmap string V) k v :
  d !! k = None → sum_values f (<[k := v]> d) = sum_values f d + f v.
Proof.
  intros Hk. unfold sum_values.
  rewrite map_fold_insert_L; [done | | done].
  intros; lia.
Qed.

Lemma sum_values_delete {V} (f : V → Z) (d : gmap string V) k :
  sum_values f (delete k d) = sum_values f d - from_option f 0 (d !! k).
Proof.
  destruct (d !! k) as [v|] eqn:Hk; simpl.
  - pose proof (sum_values_insert_fresh f (delete k d) k v (lookup_delete_eq d k)) as H.
    rewrite insert_delete_id in H by done. lia.
  - rewrite delete_id by done. lia.
Qed.

Lemma sum_values_insert {V} (f : V → Z) (d : gmap string V) k v :
  sum_values f (<[k := v]> d) = sum_values f d - from_option f 0 (d !! k) + f v.
Proof.
  rewrite <- insert_delete_eq.
  rewrite sum_values_insert_fresh by apply lookup_delete_eq.
  rewrite sum_values_delete. lia.
Qed.

Section WithHash.
Variable hash : string → Z.

(** *** What one call does to the total supply *)

Lemma create_account_supply st a b :
  total_supply (store (create_account a b st))
  = total_supply st + b - get_balance st a.
Proof.
  unfold total_supply, get_balance. run_ledger.
  rewrite sum_values_insert. unfold id. lia.
Qed.

Lemma transfer_supply st s r amt svc now :
  total_supply (store (transfer hash s r amt svc now st)) = total_supply st.
Proof.
  unfold total_supply. run_ledger.
  case_bool_decide; simpl; [|done].
  destruct (accounts st !! s) as [bal|] eqn:Hs; simpl; [|done].
  rewrite !sum_values_insert, Hs. unfold id. simpl. lia.
Qed.

Lemma lock_funds_supply st a amt p t_id t_stamp :
  locked_funds st !! make_lock_id hash t_id p = None →
  total_supply (store (lock_funds hash a amt p t_id t_stamp st)) = total_supply st.
Proof.
  intros Hfresh. unfold total_supply. run_ledger.
  case_bool_decide; simpl; [|done].
  destruct (accounts st !! a) as [bal|] eqn:Ha; simpl; [|done].
  rewrite !sum_values_insert, Ha, Hfresh. unfold id. simpl. lia.
Qed.

Lemma release_funds_supply st l to :
  total_supply (store (release_funds l to st)) = total_supply st.
Proof.
  unfold total_supply. run_ledger.
  destruct (locked_funds st !! l) as [locked|] eqn:Hl; simpl; [|done].
  rewrite sum_values_insert, sum_values_delete, Hl.
  unfold id. simpl. lia.
Qed.

Lemma return_locked_funds_supply st l :
  owners_have_accounts st →
  total_supply (store (return_locked_funds l st)) = total_supply st.
Proof.
  intros Hown. unfold total_supply. run_ledger.
  destruct (locked_funds st !! l) as [locked|] eqn:Hl; simpl; [|done].
  destruct (Hown _ _ Hl) as [bal Hbal]. rewrite Hbal. simpl.
  rewrite sum_values_insert, sum_values_delete, Hl, Hbal.
  unfold id. simpl. lia.
Qed.

(** *** Locks are owned by existing accounts in every state the methods
    can produce *)

Lemma exec_owners o st :
  owners_have_accounts st → owners_have_accounts (exec hash o st).
Proof.
  unfold owners_have_accounts. intros Hown.
  destruct o as [a b|s r amt svc now|a amt p t_id t_stamp|l to|l];
    simpl; run_ledger.
  - intros l locked Hl. destruct (decide (a = lock_agent locked)) as [->|Hne].
    + rewrite lookup_insert_eq. eauto.
    + rewrite lookup_insert_ne by done. eauto.
  - case_bool_decide; simpl; [|done].
    destruct (accounts st !! s) as [bal|] eqn:Hs; simpl; [|done].
    intros l locked Hl. rewrite !lookup_insert.
    repeat case_decide; eauto.
  - case_bool_decide; simpl; [|done].
    destruct (accounts st !! a) as [bal|] eqn:Ha; simpl; [|done].
    intros l locked Hl. rewrite lookup_insert in Hl. rewrite lookup_insert.
    case_decide; simplify_eq; simpl.
    + by rewrite decide_True.
    + case_decide; eauto.
  - destruct (locked_funds st !! l) as [locked0|] eqn:Hl0; simpl; [|done].
    intros l' locked Hl. rewrite lookup_delete in Hl.
    case_decide; [done|]. rewrite lookup_insert. case_decide; eauto.
  - destruct (locked_funds st !! l) as [locked0|] eqn:Hl0; simpl; [|done].
    destruct (Hown _ _ Hl0) as [bal Hbal]. rewrite Hbal. simpl.
    intros l' locked Hl. rewrite lookup_delete in Hl.
    case_decide; [done|]. rewrite lookup_insert. case_decide; eauto.
Qed.

Lemma exec_all_owners ops st :
  owners_have_accounts st → owners_have_accounts (exec_all hash ops st).
Proof.
  revert st. induction ops as [|o ops IH]; intros st Hst; simpl; [done|].
  apply IH. by apply exec_owners.
Qed.

Lemma init_owners : owners_have_accounts init.
Proof. intros l locked Hl. simpl in Hl. by rewrite lookup_empty in Hl. Qed.

(** Two [lock_funds] calls within the same second and with the same
    purpose compute the same id: the second entry replaces the first,
    whose amount then belongs to no balance and to no lock. *)
Lemma lock_id_reuse_loses_funds st a amt p t_id ts1 ts2 t_id' bal :
  accounts st !! a = Some bal → 2 * amt ≤ bal → 0 ≤ amt →
  int t_id' = int t_id →
  locked_funds st !! make_lock_id hash t_id p = None →
  total_supply (store (lock_funds hash a amt p t_id' ts2
                         (store (lock_funds hash a amt p t_id ts1 st))))
  = total_supply st - amt.
Proof.
  intros Ha Hbal Hamt Ht Hfresh. unfold total_supply. run_ledger.
  unfold make_lock_id in *.
  rewrite Ha. simpl. rewrite (bool_decide_true (amt ≤ bal)) by lia. simpl.
  rewrite lookup_insert_eq. simpl. rewrite bool_decide_true by lia. simpl.
  rewrite Ht.
  rewrite !sum_values_insert, !lookup_insert_eq, Ha, Hfresh. unfold id. simpl. lia.
Qed.

(** *** [transfer], case by case *)

Lemma transfer_insufficient st s r amt svc now :
  get_balance st s < amt →
  transfer hash s r amt svc now st = (Returned false, st).
Proof.
  unfold get_balance. intros Hlt. run_ledger.
  by rewrite bool_decide_false by lia.
Qed.

Lemma transfer_sufficient st s r amt svc now bal :
  accounts st !! s = Some bal → amt ≤ bal →
  ∃ st', transfer hash s r amt svc now st = (Returned true, st') ∧
         locked_funds st' = locked_funds st ∧
         transaction_history st'
           = transaction_history st ++ [new_Transaction hash s r amt svc now] ∧
         (s ≠ r → get_balance st' s = bal - amt ∧
                  get_balance st' r = get_balance st r + amt) ∧
         (s = r → get_balance st' s = bal) ∧
         (∀ a, a ≠ s → a ≠ r → accounts st' !! a = accounts st !! a).
Proof.
  intros Hs Hle. unfold get_balance. run_ledger.
  rewrite Hs. simpl. rewrite bool_decide_true by lia. simpl.
  eexists. split; [reflexivity|]. simpl.
  repeat split; try done.
  - rewrite lookup_insert_ne, lookup_insert_eq by done. done.
  - rewrite lookup_insert_eq, lookup_insert_ne by done. done.
  - intros <-. rewrite !lookup_insert_eq. simpl. lia.
  - intros a Has Har. by rewrite !lookup_insert_ne.
Qed.

(** *** Settled locks stay settled *)

Lemma exec_settles_removes l o st :
  settles l o → locked_funds (exec hash o st) !! l = None.
Proof.
  destruct o as [a b|s r amt svc now|a amt p t_id t_stamp|l' to|l'];
    simpl; try done; intros ->; run_ledger.
  - destruct (locked_funds st !! l) eqn:Hl; simpl; [|done].
    apply lookup_delete_eq.
  - destruct (locked_funds st !! l) eqn:Hl; simpl; [|done].
    destruct (accounts st !! lock_agent _); simpl; apply lookup_delete_eq.
Qed.

Lemma exec_keeps_inactive l o st :
  ¬ issues hash l o →
  locked_funds st !! l = None → locked_funds (exec hash o st) !! l = None.
Proof.
  intros Hno Hl.
  destruct o as [a b|s r amt svc now|a amt p t_id t_stamp|l' to|l'];
    simpl in *; run_ledger.
  - done.
  - case_bool_decide; simpl; [|done].
    by destruct (accounts st !! s).
  - case_bool_decide; simpl; [|done].
    destruct (accounts st !! a); simpl; [|done].
    by rewrite lookup_insert_ne.
  - destruct (locked_funds st !! l') eqn:Hl'; simpl; [|done].
    rewrite lookup_delete. by case_decide.
  - destruct (locked_funds st !! l') eqn:Hl'; simpl; [|done].
    destruct (accounts st !! lock_agent _); simpl;
      rewrite lookup_delete; by case_decide.
Qed.

Lemma exec_all_keeps_inactive l ops st :
  Forall (λ o, ¬ issues hash l o) ops →
  locked_funds st !! l = None → locked_funds (exec_all hash ops st) !! l = None.
Proof.
  revert st. induction ops as [|o ops IH]; intros st Hall Hl; simpl; [done|].
  inversion Hall; subst. apply IH; [done|]. by apply exec_keeps_inactive.
Qed.

Lemma settle_inactive st l :
  locked_funds st !! l = None →
  (∀ to, release_funds l to st = (Returned false, st)) ∧
  return_locked_funds l st = (Returned false, st).
Proof. intros Hl. split; [intros to|]; run_ledger; by rewrite Hl. Qed.

(** *** Balances stay non-negative under non-negative arguments *)

Lemma exec_nonneg o st :
  nonneg_args o → nonneg_state st → nonneg_state (exec hash o st).
Proof.
  unfold nonneg_state. intros Hargs [Hacc Hlock].
  destruct o as [a b|s r amt svc now|a amt p t_id t_stamp|l to|l];
    simpl in *; run_ledger.
  - split; [|done]. intros a' b'. rewrite lookup_insert.
    case_decide; [intros [= <-]; done | eauto].
  - case_bool_decide as Hle; simpl; [|done].
    destruct (accounts st !! s) as [bal|] eqn:Hs; simpl in *; [|done].
    split; [|done]. intros a' b'. rewrite !lookup_insert.
    case_decide; [intros [= <-]|].
    + case_decide; simpl; [lia|].
      destruct (accounts st !! r) as [br|] eqn:Hr; simpl; [|lia].
      specialize (Hacc _ _ Hr). lia.
    + case_decide; [intros [= <-]; lia | eauto].
  - case_bool_decide as Hle; simpl; [|done].
    destruct (accounts st !! a) as [bal|] eqn:Ha; simpl in *; [|done].
    split.
    + intros a' b'. rewrite lookup_insert.
      case_decide; [intros [= <-]; lia | eauto].
    + intros l locked. rewrite lookup_insert.
      case_decide; [intros [= <-]; done | eauto].
  - destruct (locked_funds st !! l) as [locked0|] eqn:Hl0; simpl; [|done].
    pose proof (Hlock _ _ Hl0) as Hamt.
    split.
    + intros a' b'. rewrite lookup_insert.
      case_decide; [intros [= <-]|eauto].
      destruct (accounts st !! to) as [bt|] eqn:Hto; simpl; [|lia].
      specialize (Hacc _ _ Hto). lia.
    + intros l' locked. rewrite lookup_delete. case_decide; [done|eauto].
  - destruct (locked_funds st !! l) as [locked0|] eqn:Hl0; simpl; [|done].
    pose proof (Hlock _ _ Hl0) as Hamt.
    destruct (accounts st !! lock_agent locked0) as [bal|] eqn:Hbal; simpl.
    + split.
      * intros a' b'. rewrite lookup_insert.
        case_decide; [intros [= <-]|eauto].
        specialize (Hacc _ _ Hbal). lia.
      * intros l' locked. rewrite lookup_delete. case_decide; [done|eauto].
    + split; [done|].
      intros l' locked. rewrite lookup_delete. case_decide; [done|eauto].
Qed.

Lemma exec_all_nonneg ops st :
  Forall nonneg_args ops → nonneg_state st → nonneg_state (exec_all hash ops st).
Proof.
  revert st. induction ops as [|o ops IH]; intros st Hall Hst; simpl; [done|].
  inversion Hall; subst. apply IH; [done|]. by apply exec_nonneg.
Qed.

End WithHash.

Lemma init_nonneg : nonneg_state init.
Proof. split; intros ? ? H; simpl in H; by rewrite lookup_empty in H. Qed.

(** *** The scenario, step by step *)

Example scenario_transfer_ok :
  transfer sample_hash "A" "B" 50 None 1700000000.25 scenario
  = (Returned true,
     mkLedger (<["B" := 150]> (<["A" := 50]> (accounts scenario)))
              [new_Transaction sample_hash "A" "B" 50 None 1700000000.25] ∅).
Proof. vm_compute. reflexivity. Qed.

Example scenario_balances :
  let st1 := exec sample_hash (Transfer "A" "B" 50 None 1700000000.25) scenario in
  let st2 := exec sample_hash (Transfer "A" "B" 100 None 1700000000.5) st1 in
  let r3 := lock_funds sample_hash "A" 30 "escrow" 1700000000.75 1700000000.75 st2 in
  let r4 := return_locked_funds "lock_1700000000_659" (store r3) in
  (get_balance st1 "A", get_balance st1 "B") = (50, 150) ∧
  transfer sample_hash "A" "B" 100 None 1700000000.5 st1 = (Returned false, st1) ∧
  result r3 = Returned (Some "lock_1700000000_659") ∧
  get_balance (store r3) "A" = 20 ∧
  result r4 = Returned true ∧
  get_balance (store r4) "A" = 50.
Proof. vm_compute. repeat split; reflexivity. Qed.

(** *** The claims about the ledger *)

(** C1, as the code has it.  From a ledger in which every lock belongs to
    an existing account (the empty ledger is one, and every call keeps it
    so), after any sequence of calls: [transfer], [release_funds] and
    [return_locked_funds] leave the total supply (balances plus active
    locks) exactly as it was, whether they return or raise; [lock_funds]
    does so whenever the id it computes is not already active; and
    [create_account] changes it by the new balance minus the balance the
    name had before (0 if none), so that it does not decrease exactly when
    the new balance is at least the old one. *)
Theorem total_supply_conserved (hash : string → Z) (st0 : MockLedger) (ops : list op)
    (s r : string) (amt : Z) (svc : option string) (now : Q)
    (a p : string) (lamt : Z) (t_id t_stamp : Q) (l to n : string) (b : Z) :
  owners_have_accounts st0 →
  let st := exec_all hash ops st0 in
  total_supply (store (transfer hash s r amt svc now st)) = total_supply st ∧
  (locked_funds st !! make_lock_id hash t_id p = None →
   total_supply (store (lock_funds hash a lamt p t_id t_stamp st)) = total_supply st) ∧
  total_supply (store (release_funds l to st)) = total_supply st ∧
  total_supply (store (return_locked_funds l st)) = total_supply st ∧
  total_supply (store (create_account n b st)) = total_supply st + b - get_balance st n ∧
  (total_supply st ≤ total_supply (store (create_account n b st)) ↔ get_balance st n ≤ b).
Proof.
  intros Hown st.
  assert (owners_have_accounts st) as Hst by (by apply exec_all_owners).
  pose proof (create_account_supply st n b) as Hcreate.
  repeat split.
  - apply transfer_supply.
  - apply lock_funds_supply.
  - apply release_funds_supply.
  - by apply return_locked_funds_supply.
  - done.
  - lia.
  - lia.
Qed.

Lemma total_supply_conserved_witness :
  owners_have_accounts init ∧
  locked_funds scenario !! make_lock_id sample_hash 1700000000.75 "escrow" = None ∧
  total_supply (store (transfer sample_hash "A" "B" 50 None 1700000000.25 scenario)) = 200 ∧
  total_supply (store (lock_funds sample_hash "A" 30 "escrow"
                         1700000000.75 1700000000.75 scenario)) = 200 ∧
  total_supply (store (create_account "C" 25 scenario)) = 225.
Proof.
  pose proof (total_supply_conserved sample_hash init scenario_accounts
                "A" "B" 50 None 1700000000.25
                "A" "escrow" 30 1700000000.75 1700000000.75
                "lock_1700000000_659" "B" "C" 25 init_owners) as H.
  cbv zeta in H. destruct H as (Ht & Hl & _ & _ & Hc & _).
  assert (locked_funds scenario !! make_lock_id sample_hash 1700000000.75 "escrow" = None)
    as Hfresh by (vm_compute; reflexivity).
  specialize (Hl Hfresh).
  split; [exact init_owners|]. split; [exact Hfresh|].
  fold scenario in Ht, Hl, Hc.
  rewrite Ht, Hl, Hc. vm_compute. repeat split; reflexivity.
Defined.

(** C1 as stated fails for [create_account]: the assignment overwrites an
    existing balance, so re-creating [Client_X] with 50 on the module's
    own ledger takes the total supply from 500 to 350. *)
Lemma create_account_can_shrink_supply :
  total_supply ledger_instance = 500 ∧
  total_supply (store (create_account "Client_X" 50 ledger_instance)) = 350 ∧
  total_supply (store (create_account "Client_X" 50 ledger_instance))
  < total_supply ledger_instance.
Proof. vm_compute. repeat split; reflexivity. Qed.

(** C2 at a sender that has no account and an amount of 0: the guard reads
    the balance with [.get(sender, 0)] and passes, the debit reads it with
    [accounts[sender]] and raises [KeyError]; nothing is returned. *)
Theorem transfer_unknown_sender_raises (hash : string → Z) (now : Q) :
  get_balance ledger_instance "Ghost" = 0 ∧
  transfer hash "Ghost" "Client_X" 0 None now ledger_instance
  = (Raised (KeyError "Ghost"), ledger_instance).
Proof. split; vm_compute; reflexivity. Qed.

(** C3, as the code has it.  From a ledger whose balances and lock amounts
    are non-negative (the empty ledger is one), after any sequence of calls
    none of which passes a negative amount or initial balance, every
    account balance is at least 0. *)
Theorem balances_nonneg (hash : string → Z) (st0 : MockLedger) (ops : list op)
    (a : string) (b : Z) :
  nonneg_state st0 →
  Forall nonneg_args ops →
  accounts (exec_all hash ops st0) !! a = Some b →
  0 ≤ b.
Proof.
  intros Hst0 Hops Ha.
  destruct (exec_all_nonneg hash ops st0 Hops Hst0) as [Hacc _]. eauto.
Qed.

Lemma balances_nonneg_witness :
  nonneg_state init ∧
  Forall nonneg_args (scenario_accounts ++ scenario_calls) ∧
  accounts (exec_all sample_hash (scenario_accounts ++ scenario_calls) init) !! "A" = Some 50 ∧
  0 ≤ 50.
Proof.
  assert (Forall nonneg_args (scenario_accounts ++ scenario_calls)) as Hargs
    by (repeat constructor; simpl; lia).
  assert (accounts (exec_all sample_hash (scenario_accounts ++ scenario_calls) init) !! "A"
          = Some 50) as Hlook by (vm_compute; reflexivity).
  split; [exact init_nonneg|]. split; [exact Hargs|]. split; [exact Hlook|].
  exact (balances_nonneg sample_hash init (scenario_accounts ++ scenario_calls) "A" 50
           init_nonneg Hargs Hlook).
Defined.

(** C3 as stated fails: no method checks the sign of an amount, and a
    transfer of -500 from [A] to [B] passes the guard (100 ≥ -500) and
    leaves [B] with -400. *)
Lemma negative_balance_reachable :
  accounts (exec_all sample_hash
              (scenario_accounts ++ [Transfer "A" "B" (-500) None 1700000000.25]) init)
    !! "B" = Some (-400).
Proof. vm_compute. reflexivity. Qed.

(** C4, as the code has it.  Once [release_funds] or [return_locked_funds]
    has been called on a lock id, then after any further calls that do not
    lock funds under the very same id again, both [release_funds] (to any recipient) and
    [return_locked_funds] on that id return [False] and leave the whole
    ledger, balances and escrow table included, as it was: a lock is
    settled at most once. *)
Theorem escrow_single_settlement (hash : string → Z) (st : MockLedger)
    (lock_id : string) (first : op) (later : list op) (to : string) :
  settles lock_id first →
  Forall (λ o, ¬ issues hash lock_id o) later →
  let st' := exec_all hash later (exec hash first st) in
  release_funds lock_id to st' = (Returned false, st') ∧
  return_locked_funds lock_id st' = (Returned false, st').
Proof.
  intros Hfirst Hlater st'.
  assert (locked_funds st' !! lock_id = None) as Hgone.
  { apply exec_all_keeps_inactive; [done|]. by apply exec_settles_removes. }
  destruct (settle_inactive st' lock_id Hgone) as [Hrel Hret]. by split.
Qed.

Lemma escrow_single_settlement_witness :
  result (return_locked_funds "lock_1700000000_659" scenario_locked) = Returned true ∧
  settles "lock_1700000000_659" (ReturnLockedFunds "lock_1700000000_659") ∧
  Forall (λ o, ¬ issues sample_hash "lock_1700000000_659" o) scenario_later ∧
  release_funds "lock_1700000000_659" "B"
    (exec_all sample_hash scenario_later
       (exec sample_hash (ReturnLockedFunds "lock_1700000000_659") scenario_locked))
  = (Returned false,
     exec_all sample_hash scenario_later
       (exec sample_hash (ReturnLockedFunds "lock_1700000000_659") scenario_locked)).
Proof.
  assert (Forall (λ o, ¬ issues sample_hash "lock_1700000000_659" o) scenario_later)
    as Hlater.
  { repeat constructor; simpl; [tauto|].
    intros Heq. vm_compute in Heq. discriminate Heq. }
  split; [vm_compute; reflexivity|]. split; [reflexivity|]. split; [exact Hlater|].
  exact (proj1 (escrow_single_settlement sample_hash scenario_locked
                  "lock_1700000000_659" (ReturnLockedFunds "lock_1700000000_659")
                  scenario_later "B" eq_refl Hlater)).
Defined.

(** C4 as stated fails when the id is issued again.  The lock of [A] is
    returned; [B] then locks 20 with the same purpose within the same
    second and is given the same id; a second settlement on that id, a
    [release_funds] to [A], returns [True] and pays [A] the 20 of [B]. *)
Lemma settled_lock_id_reissued :
  result (return_locked_funds "lock_1700000000_659" scenario_locked) = Returned true ∧
  result (lock_funds sample_hash "B" 20 "escrow" 1700000000.9 1700000000.9
            (store (return_locked_funds "lock_1700000000_659" scenario_locked)))
  = Returned (Some "lock_1700000000_659") ∧
  result (release_funds "lock_1700000000_659" "A" scenario_reissued) = Returned true ∧
  get_balance scenario_reissued "A" = 100 ∧
  get_balance (store (release_funds "lock_1700000000_659" "A" scenario_reissued)) "A" = 120.
Proof. split_and!; vm_compute; reflexivity. Qed.

End LedgerFacts.

(** ** Negotiator *)

Section NegotiatorFacts.
Import Py Negotiator.

(** *** The table keeps its shape *)

Lemma row_nonempty (row : list (string * Q)) : fst <$> row = actions → row ≠ [].
Proof. by destruct row. Qed.

Lemma zero_row_keys : fst <$> zero_row = actions.
Proof. reflexivity. Qed.

Lemma init_table_ok lr df eps : table_ok (init lr df eps).
Proof. intros s row H. simpl in H. by rewrite lookup_empty in H. Qed.

Lemma ensure_row_run state st :
  ensure_row state st = (Returned tt, ensure_row_store state st).
Proof.
  unfold ensure_row, ensure_row_store. rewrite bind_gets.
  by destruct (q_table st !! state).
Qed.

Lemma ensure_row_spec state st :
  table_ok st →
  ∃ st', ensure_row state st = (Returned tt, st') ∧ table_ok st' ∧
         q_table st' !! state = Some (default zero_row (q_table st !! state)) ∧
         (∀ s, is_Some (q_table st !! s) → is_Some (q_table st' !! s)) ∧
         learning_rate st' = learning_rate st ∧
         discount_factor st' = discount_factor st ∧ epsilon st' = epsilon st.
Proof.
  intros Hok. unfold ensure_row. rewrite bind_gets.
  destruct (q_table st !! state) as [row|] eqn:Hrow; simpl.
  - exists st. eauto 10.
  - eexists. split; [reflexivity|]. simpl. split_and!; try done.
    + intros s row. simpl. rewrite lookup_insert. case_decide; [|by apply Hok].
      intros [= <-]. apply zero_row_keys.
    + apply lookup_insert_eq.
    + intros s Hs. rewrite lookup_insert. case_decide; eauto.
Qed.

Lemma get_action_spec state explore d st :
  table_ok st →
  ∃ a st', get_action state explore d st = (Returned a, st') ∧
           a ∈ actions ∧ table_ok st' ∧ is_Some (q_table st' !! state) ∧
           (∀ s, is_Some (q_table st !! s) → is_Some (q_table st' !! s)).
Proof.
  intros Hok. unfold get_action.
  destruct (ensure_row_spec state st Hok) as (st' & Hrun & Hok' & Hrow & Hmono & _).
  rewrite (bind_returned _ _ _ _ _ Hrun), bind_gets.
  destruct (explore && Qltb (rand_u d) (epsilon st')).
  - destruct (random_choice_returns (S:=RLNegotiator) actions (rand_pick d) st')
      as (a & Ha & Hin); [done|].
    exists a, st'. rewrite Ha. by eauto 10.
  - rewrite bind_gets, (bind_getitem _ _ _ _ _ Hrow).
    pose proof (Hok' _ _ Hrow) as Hkeys.
    destruct (max_key_returns (S:=RLNegotiator) _ st' (row_nonempty _ Hkeys))
      as (a & Ha & Hin).
    exists a, st'. rewrite Ha. rewrite Hkeys in Hin. by eauto 10.
Qed.

Lemma table_ok_update st state row action v :
  table_ok st → fst <$> row = actions → action ∈ actions →
  table_ok (set_q_table <[state := odict_set row action v]> st).
Proof.
  intros Hok Hrow Hin s r. simpl. rewrite lookup_insert.
  case_decide; [|by apply Hok].
  intros [= <-]. rewrite odict_set_keys; [done|]. by rewrite Hrow.
Qed.

(** [update_q_value] returns for every state key and every optional next
    state, seen or not, as long as the action is one of the four. *)
Lemma update_q_value_spec state action reward next_state st :
  table_ok st → action ∈ actions →
  ∃ st', update_q_value state action reward next_state st = (Returned tt, st') ∧
         table_ok st' ∧ is_Some (q_table st' !! state) ∧
         (∀ ns, truthy next_state = Some ns → is_Some (q_table st' !! ns)) ∧
         (∀ s, is_Some (q_table st !! s) → is_Some (q_table st' !! s)).
Proof.
  intros Hok Hin. unfold update_q_value.
  destruct (ensure_row_spec state st Hok) as (st1 & Hrun1 & Hok1 & Hrow1 & Hmono1 & _).
  rewrite (bind_returned _ _ _ _ _ Hrun1).
  assert (∃ st2, match truthy next_state with
                 | Some ns => ensure_row ns
                 | None => mret tt
                 end st1 = (Returned tt, st2) ∧ table_ok st2 ∧
                 (∀ ns, truthy next_state = Some ns → is_Some (q_table st2 !! ns)) ∧
                 (∀ s, is_Some (q_table st1 !! s) → is_Some (q_table st2 !! s)))
    as (st2 & Hrun2 & Hok2 & Hns2 & Hmono2).
  { destruct (truthy next_state) as [ns|].
    - destruct (ensure_row_spec ns st1 Hok1) as (st2 & Hrun2 & Hok2 & Hrow2 & Hmono2 & _).
      exists st2. split_and!; try done. intros ? [= <-]. eauto.
    - exists st1. split_and!; done. }
  rewrite (bind_returned _ _ _ _ _ Hrun2), bind_gets.
  destruct (Hmono2 state) as [row Hrow]; [eauto|].
  rewrite (bind_getitem _ _ _ _ _ Hrow).
  pose proof (Hok2 _ _ Hrow) as Hkeys.
  destruct (odict_lookup_is_Some row action) as [current Hcur]; [by rewrite Hkeys|].
  rewrite (bind_odict_getitem _ _ _ _ _ Hcur).
  assert (∃ mx, match truthy next_state with
                | Some ns => row' ← getitem (q_table st2) ns; max_value Qgtb row'
                | None => mret 0%Q
                end st2 = (Returned mx, st2)) as [mx Hmx].
  { destruct (truthy next_state) as [ns|]; [|by eexists].
    destruct (Hns2 ns eq_refl) as [row' Hrow'].
    rewrite (bind_getitem _ _ _ _ _ Hrow').
    apply max_value_returns. eapply row_nonempty, Hok2, Hrow'. }
  rewrite (bind_returned _ _ _ _ _ Hmx), !bind_gets.
  eexists. split; [reflexivity|]. split_and!.
  - by apply table_ok_update.
  - simpl. rewrite lookup_insert_eq. eauto.
  - intros ns Hns. simpl. rewrite lookup_insert. case_decide; eauto.
  - intros s Hs. simpl. rewrite lookup_insert. case_decide; eauto.
Qed.

(** Without a next state the bootstrap term of the update is 0: the new
    entry is [q + α·(r + γ·0 − q)], where [q] is the old entry (that of a
    fresh all-zero row when the state is new). *)
Lemma update_q_value_terminal state action reward st current :
  odict_lookup (default zero_row (q_table st !! state)) action = Some current →
  ∃ st', update_q_value state action reward None st = (Returned tt, st') ∧
         q_value st' state action
         = Some (current + learning_rate st
                           * (reward + discount_factor st * 0 - current))%Q.
Proof.
  intros Hcur. unfold update_q_value.
  rewrite (bind_returned _ _ _ _ _ (ensure_row_run state st)).
  simpl truthy. cbv beta iota. rewrite bind_pure, bind_gets.
  assert (q_table (ensure_row_store state st) !! state
          = Some (default zero_row (q_table st !! state))) as Hrow.
  { unfold ensure_row_store. destruct (q_table st !! state) eqn:E; simpl; [done|].
    apply lookup_insert_eq. }
  rewrite (bind_getitem _ _ _ _ _ Hrow), (bind_odict_getitem _ _ _ _ _ Hcur).
  rewrite bind_pure, !bind_gets.
  eexists. split; [reflexivity|].
  unfold q_value. simpl. rewrite lookup_insert_eq. simpl.
  rewrite odict_lookup_set_eq.
  unfold ensure_row_store. by destruct (q_table st !! state).
Qed.

(** *** The reward *)

Lemma calculate_reward_returns final_price market_price deal_made :
  market_price ≠ 0 ∨ deal_made = false →
  ∃ reward, calculate_reward final_price market_price deal_made = Returned reward.
Proof.
  unfold calculate_reward. intros [Hmp| ->]; simpl; [|eauto].
  destruct deal_made; simpl; [|eauto].
  rewrite decide_False by done.
  repeat match goal with |- context [if ?b then _ else _] => destruct b end; eauto.
Qed.

Lemma calculate_reward_zero_price final_price :
  calculate_reward final_price 0 true = Raised ZeroDivisionError.
Proof. reflexivity. Qed.

(** *** The rounds *)

Lemma actions_cases a :
  a ∈ actions →
  a = "accept" ∨ a = "reject" ∨ a = "counter_low" ∨ a = "counter_high".
Proof. unfold actions. rewrite !elem_of_cons, elem_of_nil. tauto. Qed.

Lemma episode_shape_cons offer rounds a r log :
  is_counter a →
  episode_shape (apply_counter offer a) rounds r log →
  episode_shape offer (S rounds) r (a :: log).
Proof.
  intros Ha (cs & Hcs & Hshape). exists (a :: cs). split; [by constructor|].
  simpl. destruct Hshape as [[-> ->]|[[-> ->]|(-> & <- & ->)]]; eauto 6.
Qed.

Lemma negotiate_rounds_S service_type market_price agent_reputation max_rounds draws
    remaining round_num offer :
  negotiate_rounds service_type market_price agent_reputation max_rounds draws
    (S remaining) round_num offer
  = (let state := get_state service_type offer market_price agent_reputation
                    (inject_Z (Z.of_nat round_num) / inject_Z max_rounds)%Q in
     action ← get_action state true (draws round_num);
     if decide (action = "accept") then
       reward ← lift (calculate_reward offer market_price true);
       update_q_value state action reward None;;
       mret (("accept", offer), [action])
     else if decide (action = "reject") then
       reward ← lift (calculate_reward offer market_price false);
       update_q_value state action reward None;;
       mret (("reject", 0), [action])
     else
       offer' ←
         (if decide (action = "counter_low") then
            update_q_value state action (-0.1)%Q None;;
            mret (counter_low offer)
          else if decide (action = "counter_high") then
            update_q_value state action (-0.1)%Q None;;
            mret (counter_high offer)
          else mret offer);
       '(r, log) ← negotiate_rounds service_type market_price agent_reputation
                     max_rounds draws remaining (S round_num) offer';
       mret (r, action :: log)).
Proof. reflexivity. Qed.

Lemma negotiate_rounds_O service_type market_price agent_reputation max_rounds draws
    round_num offer :
  negotiate_rounds service_type market_price agent_reputation max_rounds draws
    O round_num offer
  = (r ← forced_accept service_type offer market_price agent_reputation; mret (r, [])).
Proof. reflexivity. Qed.

Lemma forced_accept_returns service_type offer market_price agent_reputation st :
  market_price ≠ 0 → table_ok st →
  ∃ st', forced_accept service_type offer market_price agent_reputation st
         = (Returned ("accept", offer), st') ∧ table_ok st'.
Proof.
  intros Hmp Hok. unfold forced_accept.
  destruct (calculate_reward_returns offer market_price true) as [rw Hrw]; [by left|].
  destruct (update_q_value_spec
              (get_state service_type offer market_price agent_reputation 1.0)
              "accept" rw None st Hok) as (st' & Hupd & Hok' & _);
    [unfold actions; set_solver|].
  cbv zeta. rewrite Hrw, bind_lift_returned, (bind_returned _ _ _ _ _ Hupd).
  by exists st'.
Qed.

(** One round that draws a counter action and the rounds after it. *)
Lemma counter_round_run service_type market_price agent_reputation max_rounds draws
    remaining round_num offer st a st1 st2 :
  let state := get_state service_type offer market_price agent_reputation
                 (inject_Z (Z.of_nat round_num) / inject_Z max_rounds)%Q in
  get_action state true (draws round_num) st = (Returned a, st1) →
  is_counter a →
  update_q_value state a (-0.1)%Q None st1 = (Returned tt, st2) →
  negotiate_rounds service_type market_price agent_reputation max_rounds draws
    (S remaining) round_num offer st
  = ('(r, log) ← negotiate_rounds service_type market_price agent_reputation max_rounds
                   draws remaining (S round_num) (apply_counter offer a);
     mret (r, a :: log)) st2.
Proof.
  intros state Hact Hcounter Hupd. rewrite negotiate_rounds_S. cbv zeta. fold state.
  rewrite (bind_returned _ _ _ _ _ Hact). unfold apply_counter.
  destruct Hcounter as [-> | ->].
  - rewrite !(decide_False (P := "counter_low" = "accept")) by done.
    rewrite !(decide_False (P := "counter_low" = "reject")) by done.
    rewrite !(decide_True (P := "counter_low" = "counter_low")) by done.
    erewrite bind_returned; [reflexivity|].
    by rewrite (bind_returned _ _ _ _ _ Hupd).
  - rewrite !(decide_False (P := "counter_high" = "accept")) by done.
    rewrite !(decide_False (P := "counter_high" = "reject")) by done.
    rewrite !(decide_False (P := "counter_high" = "counter_low")) by done.
    rewrite !(decide_True (P := "counter_high" = "counter_high")) by done.
    erewrite bind_returned; [reflexivity|].
    by rewrite (bind_returned _ _ _ _ _ Hupd).
Qed.

(** With a non-zero market price every episode returns, after at most
    [remaining] decisions, in one of the three shapes. *)
Lemma negotiate_rounds_returns service_type market_price agent_reputation max_rounds draws
    remaining round_num offer st :
  market_price ≠ 0 → table_ok st →
  ∃ r log st',
    negotiate_rounds service_type market_price agent_reputation max_rounds draws
      remaining round_num offer st = (Returned (r, log), st') ∧
    table_ok st' ∧ (length log ≤ remaining)%nat ∧ episode_shape offer remaining r log.
Proof.
  intros Hmp. revert round_num offer st.
  induction remaining as [|remaining IH]; intros round_num offer st Hok.
  - destruct (forced_accept_returns service_type offer market_price agent_reputation st
                Hmp Hok) as (st' & Hrun & Hok').
    rewrite negotiate_rounds_O, (bind_returned _ _ _ _ _ Hrun).
    eexists _, _, _. split; [reflexivity|]. split_and!; [done|done|].
    exists []. split; [constructor|]. by right; right.
  - set (state := get_state service_type offer market_price agent_reputation
                    (inject_Z (Z.of_nat round_num) / inject_Z max_rounds)%Q).
    destruct (get_action_spec state true (draws round_num) st Hok)
      as (a & st1 & Hact & Hin & Hok1 & _).
    destruct (actions_cases a Hin) as [-> | [-> | Hcounter]].
    + destruct (calculate_reward_returns offer market_price true) as [rw Hrw]; [by left|].
      destruct (update_q_value_spec state "accept" rw None st1 Hok1)
        as (st' & Hupd & Hok' & _); [done|].
      rewrite negotiate_rounds_S. cbv zeta. fold state.
      rewrite (bind_returned _ _ _ _ _ Hact).
      rewrite (decide_True (P := "accept" = "accept")) by done.
      rewrite Hrw, bind_lift_returned, (bind_returned _ _ _ _ _ Hupd).
      eexists _, _, _. split; [reflexivity|]. split_and!; [done|simpl; lia|].
      exists []. split; [constructor|]. by left.
    + destruct (update_q_value_spec state "reject" (-1.0)%Q None st1 Hok1)
        as (st' & Hupd & Hok' & _); [unfold actions; set_solver|].
      rewrite negotiate_rounds_S. cbv zeta. fold state.
      rewrite (bind_returned _ _ _ _ _ Hact).
      rewrite (decide_False (P := "reject" = "accept")) by done.
      rewrite (decide_True (P := "reject" = "reject")) by done.
      change (calculate_reward offer market_price false) with (Returned (-1.0)%Q : outcome Q).
      rewrite bind_lift_returned, (bind_returned _ _ _ _ _ Hupd).
      eexists _, _, _. split; [reflexivity|]. split_and!; [done|simpl; lia|].
      exists []. split; [constructor|]. by right; left.
    + fold (is_counter a) in Hcounter.
      destruct (update_q_value_spec state a (-0.1)%Q None st1 Hok1)
        as (st2 & Hupd & Hok2 & _); [done|].
      rewrite (counter_round_run _ _ _ _ _ _ _ _ _ _ _ _ Hact Hcounter Hupd).
      destruct (IH (S round_num) (apply_counter offer a) st2 Hok2)
        as (r & log & st' & Hrun & Hok' & Hlen & Hshape).
      rewrite (bind_returned _ _ _ _ _ Hrun).
      eexists _, _, _. split; [reflexivity|]. split_and!; [done|simpl; lia|].
      by apply episode_shape_cons.
Qed.


Lemma negotiate_of_logged service_type initial_offer market_price agent_reputation
    max_rounds draws st r log st' :
  negotiate_logged service_type initial_offer market_price agent_reputation
    max_rounds draws st = (Returned (r, log), st') →
  negotiate service_type initial_offer market_price agent_reputation
    max_rounds draws st = (Returned r, st').
Proof. intros H. unfold negotiate. by rewrite (bind_returned _ _ _ _ _ H). Qed.


(** *** The offers of an episode stay within the limit *)

Lemma int_abs_le (n : Z) (a b : positive) :
  Z.pos b * Z.abs (int (inject_Z n * (Z.pos a # b))) ≤ Z.pos a * Z.abs n.
Proof.
  unfold int. simpl. change (Z.pos (1 * b)) with (Z.pos b).
  assert (Z.abs ((n * Z.pos a) `quot` Z.pos b) = (Z.abs n * Z.pos a) / Z.pos b) as ->.
  { rewrite <- (Z.abs_eq (Z.pos b)) at 1 by lia.
    rewrite <- Z.quot_abs by lia. rewrite Z.abs_mul, (Z.abs_eq (Z.pos a)) by lia.
    apply Z.quot_div_nonneg; lia. }
  pose proof (Z.mul_div_le (Z.abs n * Z.pos a) (Z.pos b)). lia.
Qed.

Lemma apply_counter_abs (offer : Z) (a : string) :
  is_counter a →
  (Z.abs offer ≤ 1 → Z.abs (apply_counter offer a) ≤ 1) ∧
  (Z.abs (apply_counter offer a) ≤ 1 ∨ 5 * Z.abs (apply_counter offer a) ≤ 6 * Z.abs offer).
Proof.
  intros [-> | ->]; unfold apply_counter; simpl.
  - unfold counter_low. pose proof (int_abs_le offer 8 10). lia.
  - unfold counter_high. pose proof (int_abs_le offer 12 10). lia.
Qed.

Lemma pow_bound_later (k d : nat) (p o : Z) :
  0 ≤ p → 0 ≤ o →
  5 ^ Z.of_nat k * p ≤ 6 ^ Z.of_nat k * o →
  5 ^ Z.of_nat (k + d) * p ≤ 6 ^ Z.of_nat (k + d) * o.
Proof.
  intros Hp Ho Hk. induction d as [|d IH].
  - by rewrite Nat.add_0_r.
  - rewrite Nat.add_succ_r, Nat2Z.inj_succ, !Z.pow_succ_r by lia.
    pose proof (Z.pow_pos_nonneg 6 (Z.of_nat (k + d))).
    pose proof (Z.pow_pos_nonneg 5 (Z.of_nat (k + d))). nia.
Qed.

Lemma counters_abs (cs : list string) (offer : Z) :
  Forall is_counter cs →
  Z.abs (foldl apply_counter offer cs) ≤ 1 ∨
  5 ^ Z.of_nat (length cs) * Z.abs (foldl apply_counter offer cs)
  ≤ 6 ^ Z.of_nat (length cs) * Z.abs offer.
Proof.
  intros Hcs. revert offer. induction Hcs as [|c cs Hc Hcs IH]; intros offer.
  - right. simpl. lia.
  - change (foldl apply_counter offer (c :: cs))
      with (foldl apply_counter (apply_counter offer c) cs).
    destruct (IH (apply_counter offer c)) as [Hsmall|Hb]; [by left|].
    destruct (apply_counter_abs offer c Hc) as [_ [Hone|Hstep]].
    + destruct (decide (Z.abs (foldl apply_counter (apply_counter offer c) cs) ≤ 1));
        [by left|].
      exfalso. clear IH Hb. revert Hone n. generalize (apply_counter offer c).
      induction Hcs as [|c' cs Hc' Hcs IH']; intros o Ho Hn; [simpl in Hn; lia|].
      apply (IH' (apply_counter o c')); [|done].
      by apply (apply_counter_abs o c' Hc').
    + right. rewrite length_cons, Nat2Z.inj_succ, !Z.pow_succ_r by lia.
      pose proof (Z.pow_pos_nonneg 5 (Z.of_nat (length cs))). nia.
Qed.

Lemma counters_in_range (cs : list string) (offer max_rounds : Z) :
  Forall is_counter cs → Z.of_nat (length cs) ≤ Z.max max_rounds 0 →
  offers_in_range offer max_rounds →
  Z.abs (foldl apply_counter offer cs) ≤ price_limit.
Proof.
  intros Hcs Hlen Hrange. unfold offers_in_range in Hrange.
  assert (1 ≤ price_limit) as Hone by (by vm_compute).
  destruct (counters_abs cs offer Hcs) as [Hsmall|Hb]; [lia|].
  assert (Z.max max_rounds 0
          = Z.of_nat (length cs + (Z.to_nat max_rounds - length cs))) as Hsplit by lia.
  rewrite Hsplit in Hrange.
  pose proof (pow_bound_later (length cs) (Z.to_nat max_rounds - length cs)
                (Z.abs (foldl apply_counter offer cs)) (Z.abs offer)
                ltac:(lia) ltac:(lia) Hb) as Hlater.
  pose proof (Z.pow_pos_nonneg 5
                (Z.of_nat (length cs + (Z.to_nat max_rounds - length cs)))
                ltac:(lia) ltac:(lia)).
  nia.
Qed.

Lemma episode_in_range (offer max_rounds : Z) (r : string * Z) (log : list string) :
  episode_shape offer (Z.to_nat max_rounds) r log →
  (length log ≤ Z.to_nat max_rounds)%nat →
  offers_in_range offer max_rounds →
  Z.abs (snd r) ≤ price_limit.
Proof.
  intros (cs & Hcs & Hshape) Hlen Hrange.
  assert (0 ≤ price_limit) as Hpos by (by vm_compute).
  destruct Hshape as [[-> ->]|[[-> ->]|(-> & Hn & ->)]]; simpl.
  - apply (counters_in_range cs offer max_rounds); [done| |done].
    rewrite length_app in Hlen. simpl in Hlen. lia.
  - lia.
  - apply (counters_in_range cs offer max_rounds); [done|lia|done].
Qed.

(** *** The claims about the negotiator *)



(** The episode of the witness, evaluated: one counter, then the accept. *)
Example episode_evaluated :
  result (negotiate_logged "x" 109 100 5.0 2 raise_then_accept global_negotiator)
  = Returned (("accept", 130), ["counter_high"; "accept"]).
Proof. vm_compute. reflexivity. Qed.

(** A draw that is not below ε leaves the choice to the table. *)
Lemma get_action_exploits state d st :
  (epsilon st <= rand_u d)%Q →
  get_action state true d st = get_action state false d st.
Proof.
  intros Hu. unfold get_action.
  rewrite !(bind_returned _ _ _ _ _ (ensure_row_run state st)), !bind_gets.
  replace (epsilon (ensure_row_store state st)) with (epsilon st)
    by (unfold ensure_row_store; by destruct (q_table st !! state)).
  unfold Qltb. apply Qle_bool_iff in Hu. by rewrite Hu.
Qed.

(** With ε = 0 and a fresh table the episode does not depend on the
    generator: the greedy choice is the first action of the all-zero row,
    so an offer equal to the market price is accepted in the first round,
    and the only entry learnt is the 0.0 of that accept. *)
Lemma greedy_episode_accepts (draws : nat → Draw) :
  (0 <= rand_u (draws O))%Q →
  negotiate "service" 100 100 5.0 3 draws (init 0.1 0.9 0)
  = (Returned ("accept", 100),
     set_q_table (<["service_fair_high_low" := odict_set zero_row "accept"
                                                 (0.0 + 0.1 * (0.0 + 0.9 * 0 - 0.0))%Q]>)
       (init 0.1 0.9 0)).
Proof.
  intros Hu. unfold negotiate, negotiate_logged.
  change (Z.to_nat 3) with 3%nat. rewrite negotiate_rounds_S. cbv zeta.
  unfold mbind at 1 2, M_bind, bind.
  rewrite get_action_exploits by exact Hu.
  vm_compute. reflexivity.
Qed.

Lemma Qltb_lt (x y : Q) : Qltb x y = true ↔ (x < y)%Q.
Proof.
  unfold Qltb. rewrite negb_true_iff. split.
  - intros H. apply Qnot_le_lt. intros Hle. apply Qle_bool_iff in Hle. congruence.
  - intros Hlt. destruct (Qle_bool y x) eqn:E; [|done].
    apply Qle_bool_iff in E. by apply Qlt_not_le in Hlt.
Qed.

Lemma Qltb_ge (x y : Q) : Qltb x y = false ↔ (y <= x)%Q.
Proof.
  unfold Qltb. rewrite negb_false_iff. apply Qle_bool_iff.
Qed.

(** For a positive market price, [b·p = a·m] says the ratio [p/m] is
    exactly [a/b]. *)
Lemma price_ratio_exact (p m a : Z) (b : positive) :
  0 < m → Z.pos b * p = a * m → (inject_Z p / inject_Z m == a # b)%Q.
Proof.
  intros Hm Heq. destruct m as [|mp|mp]; try lia.
  unfold Qeq, Qdiv, Qmult, Qinv, inject_Z. simpl. lia.
Qed.

(** C6, as the code has it.  For a market price [m > 0] and a price [p],
    both within [price_limit], where the quotient of the floats falls on
    the same side of 0.8, 1.0 and 1.2 as the exact ratio: without a deal
    the reward is -1.0; with a deal at price [p] it is 1.0 when
    [p/m > 1.2], 0.5 when [1.0 < p/m ≤ 1.2], 0.0 when [0.8 < p/m ≤ 1.0]
    and -0.5 when [p/m ≤ 0.8].  In particular a ratio of exactly 1.2
    ([5p = 6m]) gives 0.5 and a ratio of exactly 0.8 ([5p = 4m]) gives
    -0.5: every comparison is strict, so each boundary belongs to the
    bucket below it. *)
Theorem calculate_reward_buckets (p m : Z) :
  0 < m → m ≤ price_limit → Z.abs p ≤ price_limit →
  calculate_reward p m false = Returned (-1.0)%Q ∧
  ((1.2 < inject_Z p / inject_Z m)%Q → calculate_reward p m true = Returned 1.0%Q) ∧
  ((1.0 < inject_Z p / inject_Z m)%Q → (inject_Z p / inject_Z m <= 1.2)%Q →
   calculate_reward p m true = Returned 0.5%Q) ∧
  ((0.8 < inject_Z p / inject_Z m)%Q → (inject_Z p / inject_Z m <= 1.0)%Q →
   calculate_reward p m true = Returned 0.0%Q) ∧
  ((inject_Z p / inject_Z m <= 0.8)%Q → calculate_reward p m true = Returned (-0.5)%Q) ∧
  (5 * p = 6 * m → calculate_reward p m true = Returned 0.5%Q) ∧
  (5 * p = 4 * m → calculate_reward p m true = Returned (-0.5)%Q).
Proof.
  intros Hm _ _.
  assert (∀ ratio : Q,
    (if Qgtb ratio 1.2 then Returned 1.0%Q
     else if Qgtb ratio 1.0 then Returned 0.5%Q
     else if Qgtb ratio 0.8 then Returned 0.0%Q else Returned (-0.5)%Q)
    = calculate_reward p m true →
    ((1.2 < ratio)%Q → calculate_reward p m true = Returned 1.0%Q) ∧
    ((1.0 < ratio)%Q → (ratio <= 1.2)%Q → calculate_reward p m true = Returned 0.5%Q) ∧
    ((0.8 < ratio)%Q → (ratio <= 1.0)%Q → calculate_reward p m true = Returned 0.0%Q) ∧
    ((ratio <= 0.8)%Q → calculate_reward p m true = Returned (-0.5)%Q)) as Hbuckets.
  { intros ratio <-. unfold Qgtb.
    destruct (Qltb 1.2 ratio) eqn:E1; [apply Qltb_lt in E1|apply Qltb_ge in E1];
    destruct (Qltb 1.0 ratio) eqn:E2; [apply Qltb_lt in E2|apply Qltb_ge in E2| |];
    try (apply Qltb_lt in E2); try (apply Qltb_ge in E2);
    destruct (Qltb 0.8 ratio) eqn:E3;
    try (apply Qltb_lt in E3); try (apply Qltb_ge in E3);
    split_and!; intros; try done; exfalso; lra. }
  assert (calculate_reward p m true
          = (if Qgtb (inject_Z p / inject_Z m) 1.2 then Returned 1.0%Q
             else if Qgtb (inject_Z p / inject_Z m) 1.0 then Returned 0.5%Q
             else if Qgtb (inject_Z p / inject_Z m) 0.8 then Returned 0.0%Q
             else Returned (-0.5)%Q)) as Hdef.
  { unfold calculate_reward. simpl negb. cbv iota. by rewrite decide_False by lia. }
  destruct (Hbuckets (inject_Z p / inject_Z m)%Q (eq_sym Hdef)) as (H1 & H2 & H3 & H4).
  split_and!; try done.
  - intros Heq. pose proof (price_ratio_exact p m 6 5 Hm Heq) as Hr.
    apply H2; rewrite Hr; [reflexivity|discriminate].
  - intros Heq. pose proof (price_ratio_exact p m 4 5 Hm Heq) as Hr.
    apply H4; rewrite Hr; discriminate.
Qed.

Lemma calculate_reward_buckets_witness :
  0 < 100 ∧ 100 ≤ price_limit ∧ Z.abs 120 ≤ price_limit ∧ Z.abs 80 ≤ price_limit ∧
  calculate_reward 120 100 true = Returned 0.5%Q ∧
  calculate_reward 80 100 true = Returned (-0.5)%Q.
Proof.
  assert (0 < 100) as Hm by lia.
  assert (100 ≤ price_limit) as Hl by (vm_compute; discriminate).
  assert (Z.abs 120 ≤ price_limit) as Hp by (vm_compute; discriminate).
  assert (Z.abs 80 ≤ price_limit) as Hp' by (vm_compute; discriminate).
  destruct (calculate_reward_buckets 120 100 Hm Hl Hp) as (_ & _ & _ & _ & _ & H12 & _).
  destruct (calculate_reward_buckets 80 100 Hm Hl Hp') as (_ & _ & _ & _ & _ & _ & H08).
  split; [exact Hm|]. split; [exact Hl|]. split; [exact Hp|]. split; [exact Hp'|].
  split; [apply H12; reflexivity|apply H08; reflexivity].
Defined.

(** C6 as stated fails at the lower boundary: at a price ratio of exactly
    0.8 (80 against a market price of 100) the test [price_ratio > 0.8] is
    false and the reward is -0.5, not 0.0. *)
Lemma reward_at_ratio_08 :
  (inject_Z 80 / inject_Z 100 == 0.8)%Q ∧
  calculate_reward 80 100 true = Returned (-0.5)%Q ∧
  calculate_reward 80 100 true ≠ Returned 0.0%Q.
Proof. split_and!; [reflexivity|reflexivity|discriminate]. Qed.

(** C7 on two identical episodes of [global_negotiator].  In the second
    one the first round takes [counter_high] in state [x_fair_high_low]
    and moves to [x_high_high_medium], whose best action value is 0.1 by
    then.  The entry goes from -0.01 to -0.019, which is the update with
    the next-state term taken as 0; with [max_a' Q(s', a') = 0.1] it would
    stay at -0.01. *)
Theorem counter_update_ignores_next_state :
  get_state "x" 109 100 5.0 (inject_Z 0 / inject_Z 2) = "x_fair_high_low" ∧
  get_state "x" (counter_high 109) 100 5.0 (inject_Z 1 / inject_Z 2) = "x_high_high_medium" ∧
  result (negotiate_logged "x" 109 100 5.0 2 raise_then_accept after_first_episode)
  = Returned (("accept", 130), ["counter_high"; "accept"]) ∧
  q_is after_first_episode "x_fair_high_low" "counter_high" (-0.01) ∧
  (max_q after_first_episode "x_high_high_medium" == 0.1)%Q ∧
  q_is after_second_episode "x_fair_high_low" "counter_high" (-0.019) ∧
  (-0.019 == -0.01 + 0.1 * (-0.1 + 0.9 * 0 - -0.01))%Q ∧
  ¬ (-0.019 == -0.01 + 0.1 * (-0.1 + 0.9 * 0.1 - -0.01))%Q.
Proof.
  split_and!; try (vm_compute; reflexivity).
  - eexists. split; [vm_compute; reflexivity|]. reflexivity.
  - eexists. split; [vm_compute; reflexivity|]. reflexivity.
  - intros H. vm_compute in H. discriminate H.
Qed.




(** On an accepting path the zero market price raises: the first episode
    of [raise_then_accept], with market price 0, is a counter and then an
    accept. *)
Example accept_at_zero_price_raises :
  result (negotiate "x" 109 0 5.0 2 raise_then_accept global_negotiator)
  = Raised ZeroDivisionError.
Proof. vm_compute. reflexivity. Qed.

End NegotiatorFacts.

(** ** Exact rationals against binary64 *)

Section Binary64Facts.
Import Py Negotiator.

(** On offers up to 300 against market prices up to 150 the price bucket
    and the reward of the rational model are those of the binary64
    expressions; so are the urgency bucket for up to 12 rounds and both
    counter-offers on offers up to 5000. *)
Example binary64_prices_agree :
  forallb (λ offer, forallb (Binary64.agrees_at_prices offer) (seqZ 0 151)) (seqZ 0 301)
  = true.
Proof. vm_compute. reflexivity. Qed.

Example binary64_rounds_agree :
  forallb (λ max_rounds,
             forallb (λ round_num, Binary64.agrees_at_round round_num max_rounds)
                     (seqZ 0 max_rounds))
          (seqZ 1 12)
  = true.
Proof. vm_compute. reflexivity. Qed.

Example binary64_offers_agree :
  forallb Binary64.agrees_at_offer (seqZ 0 5001) = true.
Proof. vm_compute. reflexivity. Qed.

(** The two boundaries of the reward on binary64: 120/100 is not above
    1.2, 80/100 is not above 0.8. *)
Example binary64_boundaries :
  (Binary64.to_Q (Binary64.calculate_reward 120 100) == 0.5)%Q ∧
  (Binary64.to_Q (Binary64.calculate_reward 80 100) == -0.5)%Q.
Proof. split; vm_compute; reflexivity. Qed.

(** The same at the scale of [price_limit], on two thousand market prices
    between [10^10] and [10^12]: the price bucket and the reward at
    the offers next to 0.8, 1.0 and 1.2 times the market price, both
    counter-offers, the asking threshold of [handle_request] next to 0.8
    of the price, and the price of an agent without load. *)
Example binary64_prices_agree_at_scale :
  forallb Binary64.agrees_near_boundaries Binary64.prices_at_scale = true.
Proof. vm_compute. reflexivity. Qed.

Example binary64_offers_agree_at_scale :
  forallb Binary64.agrees_at_offer Binary64.prices_at_scale = true.
Proof. vm_compute. reflexivity. Qed.

Example binary64_asking_agrees_at_scale :
  forallb Binary64.agrees_at_asking Binary64.prices_at_scale = true.
Proof. vm_compute. reflexivity. Qed.

Example binary64_price_without_load_at_scale :
  forallb (λ p, Binary64.dynamic_price p 0 =? p) Binary64.prices_at_scale = true.
Proof. vm_compute. reflexivity. Qed.

End Binary64Facts.

(** Where the rational model and binary64 part: beyond [price_limit], and
    for an agent with load.  The theorems stay on this side of both. *)
Section Binary64Limits.
Import Py Negotiator.

(** At [4·10^17 + 1] against [5·10^17] the exact ratio is above 0.8 and
    the float quotient is 0.8: the reward is 0.0 on rationals and -0.5 on
    binary64. *)
Example binary64_reward_beyond_limit :
  calculate_reward 400000000000000001 500000000000000000 true = Returned 0.0%Q ∧
  (Binary64.to_Q (Binary64.calculate_reward 400000000000000001 500000000000000000)
   == -0.5)%Q ∧
  Binary64.agrees_at_prices 400000000000000001 500000000000000000 = false.
Proof. split_and!; vm_compute; reflexivity. Qed.

(** At [10^17 + 1] the counter-offer [int(n * 1.2)] differs, and from
    [2^53 + 1] on an agent's price is no longer its base price. *)
Example binary64_counter_beyond_limit :
  counter_high 100000000000000001 = 120000000000000001 ∧
  Binary64.counter_high 100000000000000001 = 120000000000000000.
Proof. split; vm_compute; reflexivity. Qed.

Example binary64_price_beyond_limit :
  Binary64.dynamic_price (2 ^ 53) 0 = 2 ^ 53 ∧
  Binary64.dynamic_price (2 ^ 53 + 1) 0 = 2 ^ 53.
Proof. split; vm_compute; reflexivity. Qed.

(** With load the product is rounded below the integer: a base price of 45
    at load 4 is 63 on rationals and 62 on binary64. *)
Example binary64_price_with_load :
  int (inject_Z 45 * (1 + inject_Z 4 * 0.1) * 1.0)%Q = 63 ∧
  Binary64.dynamic_price 45 4 = 62.
Proof. split; vm_compute; reflexivity. Qed.

End Binary64Limits.

(** ** Bandits *)

Section BanditFacts.
Import Py Negotiator Bandit.

(** *** Dict construction and ordered dicts *)

Lemma foldl_insert_lookup {V : Type} (keys : list string) (f : string → V)
    (d : gmap string V) (a : string) :
  foldl (λ d k, <[k := f k]> d) d keys !! a
  = if decide (a ∈ keys) then Some (f a) else d !! a.
Proof.
  revert d. induction keys as [|k keys IH]; intros d.
  - simpl. destruct (decide (a ∈ [])) as [Hin|_]; [|done]. by apply elem_of_nil in Hin.
  - simpl foldl. rewrite IH.
    destruct (decide (a ∈ keys)) as [Hin|Hnin];
      destruct (decide (a ∈ k :: keys)) as [Hin'|Hnin']; try done.
    + destruct Hnin'. by apply list_elem_of_further.
    + apply elem_of_cons in Hin' as [->|Hin']; [apply lookup_insert_eq|done].
    + rewrite lookup_insert_ne; [done|]. intros ->. apply Hnin', list_elem_of_here.
Qed.

Lemma dict_of_keys_lookup {V : Type} (keys : list string) (v : V) (a : string) :
  dict_of_keys keys v !! a = if decide (a ∈ keys) then Some v else None.
Proof.
  unfold dict_of_keys. rewrite (foldl_insert_lookup keys (λ _, v)).
  by rewrite lookup_empty.
Qed.

Lemma odict_set_elem {V : Type} (d : list (string * V)) (k : string) (v : V) kv :
  kv ∈ odict_set d k v → kv = (k, v) ∨ kv ∈ d.
Proof.
  induction d as [|[k' v'] d IH]; simpl.
  - rewrite list_elem_of_singleton. by left.
  - case_decide.
    + rewrite !elem_of_cons. tauto.
    + rewrite !elem_of_cons. intros [->|Hin]; [tauto|]. destruct (IH Hin); tauto.
Qed.

Lemma odict_set_keys_elem {V : Type} (d : list (string * V)) (k : string) (v : V) a :
  a = k ∨ a ∈ fst <$> d → a ∈ fst <$> odict_set d k v.
Proof.
  induction d as [|[k' v'] d IH].
  - intros [->|Hin]; [apply list_elem_of_here|by apply elem_of_nil in Hin].
  - simpl odict_set. case_decide as Hk; rewrite !fmap_cons; simpl fst;
      rewrite !elem_of_cons.
    + subst. tauto.
    + intros [->|[->|Hin]]; [right|tauto|right]; apply IH; tauto.
Qed.

(** An infinite score somewhere in the dict: the scan ends on one. *)
Lemma max_scan_keeps_infinity (rest : list (string * score)) (best : string * score) :
  snd best = Infinity →
  max_scan (λ x y, score_gtb (snd x) (snd y)) best rest = best.
Proof.
  intros Hbest. induction rest as [|x rest IH]; simpl; [done|].
  rewrite Hbest. by destruct (snd x).
Qed.

Lemma max_scan_infinity (rest : list (string * score)) (best : string * score) :
  (∃ x, x ∈ best :: rest ∧ snd x = Infinity) →
  snd (max_scan (λ x y, score_gtb (snd x) (snd y)) best rest) = Infinity.
Proof.
  revert best. induction rest as [|x rest IH]; intros best (y & Hy & Hinf); simpl.
  - apply list_elem_of_singleton in Hy. by subst.
  - destruct (snd best) as [qb|] eqn:Hb.
    + destruct (snd x) as [qx|] eqn:Hx; simpl.
      * apply elem_of_cons in Hy as [->|Hy]; [congruence|].
        apply elem_of_cons in Hy as [->|Hy]; [congruence|].
        destruct (Qgtb qx qb); apply IH; exists y;
          (split; [by apply list_elem_of_further|done]).
      * apply IH. exists x. split; [apply list_elem_of_here|done].
    + replace (score_gtb x.2 Infinity) with false by (by destruct (snd x)).
      rewrite max_scan_keeps_infinity; done.
Qed.

(** *** [MultiArmedBandit]: construction and [update_reward] *)

Lemma init_bandit_ok ags ic : bandit_ok (init ags ic).
Proof.
  unfold bandit_ok, init. simpl.
  assert (∀ (V : Type) (v : V) a,
            a ∈ ags ↔ is_Some (if decide (a ∈ ags) then Some v else None)) as Hkeys.
  { intros V v a. case_decide; split; eauto; [done|]. by intros [x Hx]. }
  split_and!; try done; intros a; rewrite ?dict_of_keys_lookup; try apply Hkeys.
  - intros n. case_decide; [|done]. intros [= <-]. lia.
  - intros a' n. rewrite dict_of_keys_lookup. case_decide; [|done]. by intros [= <-].
Qed.

Lemma update_reward_spec agent reward b :
  bandit_ok b → agent ∈ agents b →
  ∃ b' cnt, update_reward agent reward b = (Returned tt, b') ∧
            selection_count b !! agent = Some cnt ∧
            agents b' = agents b ∧
            selection_count b' = <[agent := cnt + 1]> (selection_count b) ∧
            total_selections b' = total_selections b + 1 ∧
            bandit_ok b'.
Proof.
  intros (Hrw & Hcnt & Hcum & Hpos & Htot & Hzero) Hin.
  destruct (proj1 (Hrw agent) Hin) as [rs Hrs].
  destruct (proj1 (Hcnt agent) Hin) as [cnt Hc].
  destruct (proj1 (Hcum agent) Hin) as [cum Hcu].
  unfold update_reward.
  rewrite bind_gets, (bind_getitem _ _ _ _ _ Hrs).
  erewrite bind_returned by reflexivity.
  rewrite bind_gets. simpl. rewrite (bind_getitem _ _ _ _ _ Hcu).
  erewrite bind_returned by reflexivity.
  rewrite bind_gets. simpl. rewrite (bind_getitem _ _ _ _ _ Hc).
  erewrite bind_returned by reflexivity.
  eexists _, cnt. split; [reflexivity|]. simpl. split_and!; try done.
  unfold bandit_ok. simpl. split_and!.
  - intros a. rewrite lookup_insert. case_decide; [subst; split; eauto|apply Hrw].
  - intros a. rewrite lookup_insert. case_decide; [subst; split; eauto|apply Hcnt].
  - intros a. rewrite lookup_insert. case_decide; [subst; split; eauto|apply Hcum].
  - intros a n. rewrite lookup_insert. case_decide; [|apply Hpos].
    intros [= <-]. specialize (Hpos _ _ Hc). lia.
  - lia.
  - intros Hz. lia.
Qed.

Lemma update_reward_unknown agent reward b :
  bandit_ok b → agent ∉ agents b →
  update_reward agent reward b = (Raised (KeyError agent), b).
Proof.
  intros (Hrw & _) Hnin. unfold update_reward.
  rewrite bind_gets. unfold getitem.
  destruct (rewards b !! agent) eqn:E; [|done].
  destruct Hnin. apply Hrw. eauto.
Qed.

(** *** [select_ucb1] *)

Section Numpy.
Variable np_log np_sqrt : Q → Q.

Lemma ucb_value_run c agent b :
  bandit_ok b → agent ∈ agents b →
  ∃ v, ucb_value np_log np_sqrt c agent b = (Returned v, b) ∧
       (v = Infinity ↔ selection_count b !! agent = Some 0).
Proof.
  intros (_ & Hcnt & Hcum & _) Hin.
  destruct (proj1 (Hcnt agent) Hin) as [cnt Hc].
  destruct (proj1 (Hcum agent) Hin) as [cum Hcu].
  unfold ucb_value. rewrite bind_gets, (bind_getitem _ _ _ _ _ Hc).
  case_decide as Hz.
  - subst. exists Infinity. by split.
  - rewrite bind_gets, (bind_getitem _ _ _ _ _ Hcu), bind_gets.
    eexists. split; [reflexivity|]. rewrite Hc. split; [done|]. intros [= ?]. done.
Qed.

Lemma ucb_values_run c todo acc b :
  bandit_ok b → (∀ a, a ∈ todo → a ∈ agents b) → scores_ok b acc →
  ∃ vals, ucb_values np_log np_sqrt c todo acc b = (Returned vals, b) ∧
          scores_ok b vals ∧
          (∀ a, a ∈ todo ∨ a ∈ fst <$> acc → a ∈ fst <$> vals).
Proof.
  intros Hok. revert acc. induction todo as [|agent todo IH]; intros acc Htodo Hacc.
  - exists acc. split; [done|]. split; [done|].
    intros a [Hin|Hin]; [by apply elem_of_nil in Hin|done].
  - destruct (ucb_value_run c agent b Hok) as (v & Hv & Hinf);
      [apply Htodo, list_elem_of_here|].
    simpl. rewrite (bind_returned _ _ _ _ _ Hv).
    destruct (IH (odict_set acc agent v)) as (vals & Hrun & Hvals & Hkeys).
    + intros a Ha. by apply Htodo, list_elem_of_further.
    + intros k w Hkw. apply odict_set_elem in Hkw as [[= -> ->]|Hkw].
      * split; [apply Htodo, list_elem_of_here|done].
      * by apply Hacc.
    + exists vals. split; [done|]. split; [done|].
      intros a Ha. apply Hkeys. rewrite elem_of_cons in Ha.
      destruct Ha as [[->|Ha]|Ha]; [right|by left|right];
        apply odict_set_keys_elem; tauto.
Qed.

(** While an arm has never been selected, [select_ucb1] returns such an
    arm and leaves the store alone. *)
Lemma select_ucb1_untried c pick b :
  bandit_ok b → (∃ a, untried b a) →
  ∃ a', select_ucb1 np_log np_sqrt c pick b = (Returned a', b) ∧ untried b a'.
Proof.
  intros Hok (a & Hin & Hzero). unfold select_ucb1. rewrite !bind_gets.
  case_decide as Htot.
  - destruct (random_choice_returns (S:=MultiArmedBandit) (agents b) pick b)
      as (a' & Hrun & Hin'); [by intros E; rewrite E in Hin; apply elem_of_nil in Hin|].
    exists a'. split; [done|]. split; [done|].
    destruct Hok as (_ & Hcnt & _ & _ & _ & Hall).
    destruct (proj1 (Hcnt a') Hin') as [n Hn]. by rewrite Hn, (Hall Htot _ _ Hn).
  - destruct (ucb_values_run c (agents b) [] b Hok) as (vals & Hrun & Hvals & Hkeys);
      [done|by intros k v Hkv; apply elem_of_nil in Hkv|].
    rewrite (bind_returned _ _ _ _ _ Hrun).
    assert (∃ x, x ∈ vals ∧ snd x = Infinity) as Hex.
    { specialize (Hkeys a (or_introl Hin)).
      apply list_elem_of_fmap in Hkeys as ([k v] & -> & Hkv).
      exists (k, v). split; [done|]. simpl in *. by apply (Hvals k v Hkv). }
    destruct vals as [|kv rest]; [by destruct Hex as (x & Hx & _); apply elem_of_nil in Hx|].
    pose proof (max_scan_infinity rest kv Hex) as Hmax.
    pose proof (max_scan_elem (λ x y, score_gtb (snd x) (snd y)) rest kv) as Helem.
    destruct (max_scan (λ x y, score_gtb (snd x) (snd y)) kv rest) as [k' v'] eqn:Escan.
    simpl in Hmax. subst v'.
    exists k'. split; [unfold max_key; by rewrite Escan|].
    destruct (Hvals _ _ Helem) as [Hk' Hinf]. split; [done|]. by apply Hinf.
Qed.

(** *** The first [N] rounds *)

Lemma explored_init ags ic : explored ags (init ags ic) [].
Proof.
  unfold explored. split_and!; try done.
  - apply init_bandit_ok.
  - constructor.
  - intros a Ha. by apply elem_of_nil in Ha.
  - intros a Ha. unfold init. cbn [selection_count].
    rewrite dict_of_keys_lookup, decide_True by done.
    destruct (decide (a ∈ [])) as [Hin|_]; [|done]. by apply elem_of_nil in Hin.
Qed.

Lemma unexplored_arm (ags sel : list string) :
  (length sel < length (remove_dups ags))%nat → ∃ a, a ∈ ags ∧ a ∉ sel.
Proof.
  intros Hlen.
  destruct (Forall_Exists_dec (λ a, a ∈ sel) (λ a, a ∉ sel)
              (λ a, decide (a ∈ sel)) (remove_dups ags)) as [Hall|Hex].
  - rewrite Forall_forall in Hall.
    pose proof (submseteq_length _ _
                  (NoDup_submseteq _ _ (NoDup_remove_dups ags) Hall)). lia.
  - apply Exists_exists in Hex as (a & Ha & Hna).
    exists a. split; [by apply elem_of_remove_dups|done].
Qed.

Lemma explore_step ags c pick reward_of b sel :
  explored ags b sel → (length sel < length (remove_dups ags))%nat →
  ∃ a b', select_ucb1 np_log np_sqrt c pick b = (Returned a, b) ∧
          update_reward a (reward_of a) b = (Returned tt, b') ∧
          explored ags b' (sel ++ [a]).
Proof.
  intros (Hags & Hok & Hsel & Hsub & Hcnt & Htot) Hlen.
  destruct (unexplored_arm ags sel Hlen) as (a0 & Ha0 & Hna0).
  destruct (select_ucb1_untried c pick b Hok) as (a & Hrun & Hin & Hzero).
  { exists a0. split; [by rewrite Hags|]. rewrite (Hcnt _ Ha0). by rewrite decide_False. }
  rewrite Hags in Hin.
  assert (a ∉ sel) as Hna.
  { intros Ha. rewrite (Hcnt _ Hin), decide_True in Hzero by done. done. }
  destruct (update_reward_spec a (reward_of a) b Hok) as
    (b' & cnt & Hupd & Hc & Hags' & Hcnt' & Htot' & Hok'); [by rewrite Hags|].
  exists a, b'. split; [done|]. split; [done|].
  unfold explored. split_and!.
  - congruence.
  - done.
  - apply NoDup_app. split_and!; [done| |apply NoDup_singleton].
    intros x Hx Hx'. apply list_elem_of_singleton in Hx'. by subst.
  - intros x. rewrite elem_of_app, list_elem_of_singleton. intros [Hx| ->]; eauto.
  - intros x Hx. rewrite Hcnt', lookup_insert.
    rewrite Hc in Hzero. injection Hzero as ->.
    case_decide as Hxa.
    + subst x. rewrite decide_True; [done|]. rewrite elem_of_app, list_elem_of_singleton. tauto.
    + rewrite (Hcnt _ Hx).
      destruct (decide (x ∈ sel)) as [Hxs|Hxs].
      * rewrite decide_True; [done|]. rewrite elem_of_app. tauto.
      * rewrite decide_False; [done|].
        rewrite elem_of_app, list_elem_of_singleton. intros [?|?]; congruence.
  - rewrite Htot', Htot, length_app. simpl. lia.
Qed.

Lemma explore_rounds ags c picks outcome_of n k b sel :
  explored ags b sel → (length sel + n ≤ length (remove_dups ags))%nat →
  ∃ sel' b', ucb_rounds np_log np_sqrt c picks outcome_of n k b = (Returned sel', b') ∧
             length sel' = n ∧ explored ags b' (sel ++ sel').
Proof.
  revert k b sel. induction n as [|n IH]; intros k b sel Hexp Hlen.
  - exists [], b. rewrite app_nil_r. by split_and!.
  - destruct (explore_step ags c (picks k) (outcome_of k) b sel Hexp)
      as (a & b1 & Hsel & Hupd & Hexp1); [lia|].
    destruct (IH (S k) b1 (sel ++ [a]) Hexp1) as (sel' & b' & Hrun & Hlen' & Hexp');
      [rewrite length_app; simpl; lia|].
    exists (a :: sel'), b'. simpl.
    rewrite (bind_returned _ _ _ _ _ Hsel), (bind_returned _ _ _ _ _ Hupd),
      (bind_returned _ _ _ _ _ Hrun).
    split_and!; [done|simpl; lia|]. by rewrite <- app_assoc in Hexp'.
Qed.

End Numpy.

(** *** [ContextualBandit] *)

Lemma cb_init_ok ags dim normal : contextual_ok (cb_init ags dim normal).
Proof.
  unfold contextual_ok, cb_init. cbn [cb_agents weights context_dim].
  split; intros a.
  - rewrite (foldl_insert_lookup ags (λ a, normal a <$> seq 0 dim)), lookup_empty.
    case_decide; split; eauto; [done|]. by intros [x Hx].
  - intros w. rewrite (foldl_insert_lookup ags (λ a, normal a <$> seq 0 dim)), lookup_empty.
    case_decide; [|done]. intros [= <-]. by rewrite length_fmap, length_seq.
Qed.

Lemma update_weights_spec agent context reward lr now b :
  contextual_ok b → agent ∈ cb_agents b → length context = context_dim b →
  ∃ b', update_weights agent context reward lr now b = (Returned tt, b') ∧
        contextual_ok b'.
Proof.
  intros [Hkeys Hdim] Hin Hlen.
  destruct (proj1 (Hkeys agent) Hin) as [w Hw].
  pose proof (Hdim _ _ Hw) as Hwlen.
  assert (∃ v, predict_reward agent context b = (Returned v, b)) as [v Hv].
  { unfold predict_reward, np_dot. rewrite bind_gets, (bind_getitem _ _ _ _ _ Hw).
    rewrite decide_True by congruence. by eexists. }
  unfold update_weights. rewrite (bind_returned _ _ _ _ _ Hv).
  cbv zeta. rewrite bind_gets, (bind_getitem _ _ _ _ _ Hw).
  erewrite bind_returned by reflexivity.
  eexists. split; [reflexivity|].
  split; cbn [cb_agents weights context_dim]; intros a.
  - rewrite lookup_insert. case_decide; [subst; split; eauto|apply Hkeys].
  - intros w'. rewrite lookup_insert. case_decide; [|apply Hdim].
    intros [= <-]. rewrite length_zip_with. lia.
Qed.

Lemma update_weights_unknown agent context reward lr now b :
  contextual_ok b → agent ∉ cb_agents b →
  update_weights agent context reward lr now b = (Raised (KeyError agent), b).
Proof.
  intros [Hkeys _] Hnin.
  assert (predict_reward agent context b = (Raised (KeyError agent), b)) as Hp.
  { unfold predict_reward. rewrite bind_gets. unfold getitem.
    destruct (weights b !! agent) eqn:E; [|done].
    destruct Hnin. apply Hkeys. eauto. }
  unfold update_weights. by rewrite (bind_raised _ _ _ _ _ Hp).
Qed.

(** *** The claims about the learning components *)

(** C8.  For a bandit built over any list of agents, [N] of them distinct,
    whatever the random generator picks and whatever rewards are reported,
    [N] rounds of "select with UCB, then [update_reward] for the selected
    arm" return and select a permutation of the distinct arms: every arm
    exactly once.  And in any bandit whose dicts cover its arms (every
    bandit the constructor and [update_reward] produce), as long as some
    arm has never been selected [select_ucb1] returns an arm that has never
    been selected. *)
Theorem ucb_initial_exploration (np_log np_sqrt : Q → Q) (ags : list string)
    (initial_confidence c : Q) (picks : nat → nat) (outcome_of : nat → string → Q)
    (b : MultiArmedBandit) (pick : nat) :
  bandit_ok b →
  (∃ sel b', ucb_rounds np_log np_sqrt c picks outcome_of (length (remove_dups ags)) 0
               (init ags initial_confidence) = (Returned sel, b') ∧
             sel ≡ₚ remove_dups ags) ∧
  ((∃ a, untried b a) →
   ∃ a', select_ucb1 np_log np_sqrt c pick b = (Returned a', b) ∧ untried b a').
Proof.
  intros Hok. split.
  - destruct (explore_rounds np_log np_sqrt ags c picks outcome_of
                (length (remove_dups ags)) 0
                (init ags initial_confidence) [] (explored_init ags initial_confidence))
      as (sel & b' & Hrun & Hlen & Hexp); [simpl; lia|].
    exists sel, b'. split; [done|].
    destruct Hexp as (_ & _ & Hsel & Hsub & _). simpl in Hsel, Hsub.
    apply submseteq_length_Permutation; [|lia].
    apply NoDup_submseteq; [done|].
    intros a Ha. apply elem_of_remove_dups. by apply Hsub.
  - by apply select_ucb1_untried.
Qed.

Lemma ucb_initial_exploration_witness :
  bandit_ok service_bandit ∧
  remove_dups (agents service_bandit) = agents service_bandit ∧
  (∃ sel b', ucb_rounds approx_log approx_sqrt 2.0 (λ _, 1%nat) first_arm_pays 3 0
               service_bandit = (Returned sel, b') ∧
             sel ≡ₚ agents service_bandit) ∧
  (∃ a, untried service_bandit a).
Proof.
  split; [exact (init_bandit_ok _ _)|]. split; [vm_compute; reflexivity|]. split.
  - exact (proj1 (ucb_initial_exploration approx_log approx_sqrt (agents service_bandit)
                    1.0 2.0 (λ _, 1%nat) first_arm_pays service_bandit 0
                    (init_bandit_ok _ _))).
  - exists "DataProcessor_A". split; [apply list_elem_of_here|]. vm_compute. reflexivity.
Defined.

(** The run of the witness, evaluated. *)
Example ucb_rounds_evaluated :
  result (ucb_rounds approx_log approx_sqrt 2.0 (λ _, 1%nat) first_arm_pays 3 0
            service_bandit)
  = Returned ["Translator_B"; "DataProcessor_A"; "Computer_C"].
Proof. vm_compute. reflexivity. Qed.

(** C9, as the code has it.  [update_q_value] returns for every state key
    and optional next state, seen before or not, creating the missing rows
    (for an action among the four and a table whose rows carry the four
    actions).  [update_reward] and [update_weights] return for every arm
    the bandit was constructed with ([update_weights] for a context of the
    bandit's dimension), and raise [KeyError], leaving the bandit as it
    was, for any other name: they do not add arms. *)
Theorem learning_updates_on_unseen (state action : string) (reward : Q)
    (next_state : option string) (st : RLNegotiator)
    (agent : string) (b : MultiArmedBandit)
    (context : list Q) (learning_rate now : Q) (cb : ContextualBandit) :
  table_ok st → action ∈ actions → bandit_ok b → contextual_ok cb →
  (∃ st', update_q_value state action reward next_state st = (Returned tt, st') ∧
          table_ok st' ∧ is_Some (q_table st' !! state) ∧
          (∀ ns, truthy next_state = Some ns → is_Some (q_table st' !! ns))) ∧
  (agent ∈ agents b →
   ∃ b', update_reward agent reward b = (Returned tt, b') ∧ bandit_ok b') ∧
  (agent ∉ agents b → update_reward agent reward b = (Raised (KeyError agent), b)) ∧
  (agent ∈ cb_agents cb → length context = context_dim cb →
   ∃ cb', update_weights agent context reward learning_rate now cb = (Returned tt, cb') ∧
          contextual_ok cb') ∧
  (agent ∉ cb_agents cb →
   update_weights agent context reward learning_rate now cb
   = (Raised (KeyError agent), cb)).
Proof.
  intros Htable Haction Hbandit Hcb. split_and!.
  - destruct (update_q_value_spec state action reward next_state st Htable Haction)
      as (st' & Hrun & Hok & Hrow & Hnext & _).
    by exists st'.
  - intros Hin.
    destruct (update_reward_spec agent reward b Hbandit Hin)
      as (b' & cnt & Hrun & _ & _ & _ & _ & Hok).
    by exists b'.
  - by apply update_reward_unknown.
  - by apply update_weights_spec.
  - by apply update_weights_unknown.
Qed.

Lemma learning_updates_on_unseen_witness :
  table_ok global_negotiator ∧ "accept" ∈ actions ∧
  bandit_ok service_bandit ∧ contextual_ok (contextual_bandit (λ _ _, 0.1%Q)) ∧
  q_table global_negotiator !! "never_seen" = None ∧
  (∃ st', update_q_value "never_seen" "accept" 1.0 (Some "nor_this") global_negotiator
          = (Returned tt, st') ∧ is_Some (q_table st' !! "never_seen")) ∧
  (∃ b', update_reward "Translator_B" 1.0 service_bandit = (Returned tt, b')) ∧
  (∃ cb', update_weights "Translator_B" [0.5; 0.5; 0.4; 0.25]%Q 1.0 0.01 1700000000.0
            (contextual_bandit (λ _ _, 0.1%Q)) = (Returned tt, cb')).
Proof.
  assert ("accept" ∈ actions) as Hact by apply list_elem_of_here.
  assert ("Translator_B" ∈ agents service_bandit) as Hin
    by apply list_elem_of_further, list_elem_of_here.
  destruct (learning_updates_on_unseen "never_seen" "accept" 1.0 (Some "nor_this")
              global_negotiator "Translator_B" service_bandit
              [0.5; 0.5; 0.4; 0.25]%Q 0.01 1700000000.0 (contextual_bandit (λ _ _, 0.1%Q))
              (init_table_ok 0.1 0.9 0.1) Hact (init_bandit_ok _ _) (cb_init_ok _ _ _))
    as (Hq & Hb & _ & Hcb & _).
  split; [exact (init_table_ok 0.1 0.9 0.1)|]. split; [exact Hact|].
  split; [exact (init_bandit_ok _ _)|]. split; [exact (cb_init_ok _ _ _)|].
  split; [reflexivity|]. split_and!.
  - destruct Hq as (st' & Hrun & _ & Hrow & _). by exists st'.
  - destruct (Hb Hin) as (b' & Hrun & _). by exists b'.
  - destruct (Hcb Hin eq_refl) as (cb' & Hrun & _). by exists cb'.
Defined.

(** C9 as stated fails for the bandits: [update_reward] reads
    [self.rewards[agent]] and raises [KeyError] for a name that was not
    among the constructor's agents; no entry is created. *)
Lemma update_reward_unseen_arm_raises :
  ("Newcomer_D" ∉ agents service_bandit) ∧
  (update_reward "Newcomer_D" 1.0 service_bandit
   = (Raised (KeyError "Newcomer_D"), service_bandit)).
Proof.
  split; [|vm_compute; reflexivity].
  unfold service_bandit, init. cbn [agents]. rewrite !elem_of_cons, elem_of_nil.
  intros [H|[H|[H|[]]]]; discriminate H.
Qed.

(** The contextual bandit does the same in [predict_reward]. *)
Example update_weights_unseen_arm_raises :
  result (update_weights "Newcomer_D" [0.5; 0.5; 0.4; 0.25]%Q 1.0 0.01 1700000000.0
            (contextual_bandit (λ _ _, 0.1%Q)))
  = Raised (KeyError "Newcomer_D").
Proof. vm_compute. reflexivity. Qed.

End BanditFacts.

(** ** More on the ledger *)

Section LedgerMore.
Import Py Ledger.
Variable hash : string → Z.

Ltac run_methods :=
  unfold transfer, lock_funds, release_funds, return_locked_funds, create_account,
    getitem, dict_get, store, result, mbind, M_bind, mret, M_ret,
    bind, ret, raise, gets, modify in *;
  simpl in *.

Lemma ledger_eq (st st' : MockLedger) :
  accounts st = accounts st' → transaction_history st = transaction_history st' →
  locked_funds st = locked_funds st' → st = st'.
Proof. destruct st, st'; simpl; by intros -> -> ->. Qed.

(** X1.  For a sender that has an account, [transfer] returns [True]
    exactly when the balance covers the amount.  It then leaves the locks
    alone, appends one record, debits the sender and credits the receiver
    (a transfer to oneself leaves the balance as it was) and touches no
    other account; otherwise it returns [False] and changes nothing. *)
Theorem transfer_with_account (st : MockLedger) (s r : string) (amt : Z)
    (svc : option string) (now : Q) (bal : Z) :
  accounts st !! s = Some bal →
  (amt ≤ bal →
   ∃ st', transfer hash s r amt svc now st = (Returned true, st') ∧
          locked_funds st' = locked_funds st ∧
          transaction_history st'
            = transaction_history st ++ [new_Transaction hash s r amt svc now] ∧
          (s ≠ r → get_balance st' s = bal - amt ∧
                   get_balance st' r = get_balance st r + amt) ∧
          (s = r → get_balance st' s = bal) ∧
          (∀ a, a ≠ s → a ≠ r → accounts st' !! a = accounts st !! a)) ∧
  (bal < amt → transfer hash s r amt svc now st = (Returned false, st)).
Proof.
  intros Hs. split.
  - intros Hle. by apply transfer_sufficient.
  - intros Hlt. apply transfer_insufficient. unfold get_balance, dict_get.
    by rewrite Hs.
Qed.

(** What one call appends to the history: the record of a transfer that
    went through, and nothing otherwise. *)
Lemma exec_history (o : op) (st : MockLedger) :
  transaction_history (exec hash o st) = transaction_history st ∨
  ∃ s r amt svc now,
    o = Transfer s r amt svc now ∧
    result (transfer hash s r amt svc now st) = Returned true ∧
    transaction_history (exec hash o st)
    = transaction_history st ++ [new_Transaction hash s r amt svc now].
Proof.
  destruct o as [a b|s r amt svc now|a amt p t_id t_stamp|l to|l]; simpl.
  - by left.
  - run_methods.
    destruct (accounts st !! s) as [bal|] eqn:Hs; simpl;
      destruct (bool_decide (amt ≤ _)) eqn:Hle; simpl; try by left.
    right. exists s, r, amt, svc, now. rewrite Hs. simpl. by rewrite Hle.
  - left. run_methods. case_bool_decide; simpl; [|done].
    by destruct (accounts st !! a).
  - left. run_methods. by destruct (locked_funds st !! l).
  - left. run_methods. destruct (locked_funds st !! l) as [locked|]; simpl; [|done].
    by destruct (accounts st !! lock_agent locked).
Qed.

(** X2.  The transaction history is append-only: whatever calls are made,
    the old history is kept as it was, in order, and what is added after
    it are records of [transfer] calls of the sequence, at most one per
    call. *)
Theorem history_append_only (ops : list op) (st : MockLedger) :
  ∃ added,
    transaction_history (exec_all hash ops st) = transaction_history st ++ added ∧
    (length added ≤ length ops)%nat ∧
    Forall (λ tx, ∃ s r amt svc now,
                    Transfer s r amt svc now ∈ ops ∧
                    tx = new_Transaction hash s r amt svc now) added.
Proof.
  revert st. induction ops as [|o ops IH]; intros st.
  - exists []. simpl. rewrite app_nil_r. split_and!; [done|done|constructor].
  - destruct (IH (exec hash o st)) as (added & Hadd & Hlen & Hall).
    assert (Forall (λ tx, ∃ s r amt svc now,
                      Transfer s r amt svc now ∈ o :: ops ∧
                      tx = new_Transaction hash s r amt svc now) added) as Hall'.
    { eapply Forall_impl; [exact Hall|]. intros tx (s & r & amt & svc & now & Hin & ->).
      exists s, r, amt, svc, now. split; [by apply list_elem_of_further|done]. }
    assert (exec_all hash (o :: ops) st = exec_all hash ops (exec hash o st)) as Hstep
      by reflexivity.
    destruct (exec_history o st) as [Hsame|(s & r & amt & svc & now & -> & _ & Hone)].
    + exists added. rewrite Hstep, Hadd, Hsame. split_and!; [done|simpl; lia|done].
    + exists (new_Transaction hash s r amt svc now :: added).
      rewrite Hstep, Hadd, Hone, <- app_assoc.
      split_and!; [done|simpl; lia|].
      constructor; [|done]. exists s, r, amt, svc, now. split; [apply list_elem_of_here|done].
Qed.

(** X3.  Locking funds and returning them is a round trip: when the lock
    goes through under an id that was not active, [return_locked_funds] on
    that id returns [True] and gives back the very ledger [lock_funds]
    started from. *)
Theorem lock_return_round_trip (st : MockLedger) (a : string) (amt : Z) (p : string)
    (t_id t_stamp : Q) (bal : Z) :
  accounts st !! a = Some bal → amt ≤ bal →
  locked_funds st !! make_lock_id hash t_id p = None →
  ∃ st1, lock_funds hash a amt p t_id t_stamp st
         = (Returned (Some (make_lock_id hash t_id p)), st1) ∧
         return_locked_funds (make_lock_id hash t_id p) st1 = (Returned true, st).
Proof.
  intros Ha Hle Hfresh. run_methods.
  rewrite Ha. simpl. rewrite bool_decide_true by done. simpl.
  eexists. split; [reflexivity|]. simpl.
  rewrite lookup_insert_eq. simpl. rewrite lookup_insert_eq. simpl. f_equal.
  apply ledger_eq; simpl; [|done|].
  - rewrite insert_insert_eq. replace (bal - amt + amt) with bal by lia.
    by apply insert_id.
  - by apply delete_insert_id.
Qed.

(** X4.  Locking funds and releasing them to [to] moves the money exactly
    as [transfer] would, and leaves the escrow table as it was; but unlike
    [transfer] it records no transaction. *)
Theorem lock_release_is_silent_transfer (st : MockLedger) (a to : string) (amt : Z)
    (p : string) (t_id t_stamp now : Q) (svc : option string) (bal : Z) :
  accounts st !! a = Some bal → amt ≤ bal →
  locked_funds st !! make_lock_id hash t_id p = None →
  ∃ st1 st2 st3,
    lock_funds hash a amt p t_id t_stamp st
    = (Returned (Some (make_lock_id hash t_id p)), st1) ∧
    release_funds (make_lock_id hash t_id p) to st1 = (Returned true, st2) ∧
    transfer hash a to amt svc now st = (Returned true, st3) ∧
    accounts st2 = accounts st3 ∧
    locked_funds st2 = locked_funds st ∧
    transaction_history st2 = transaction_history st ∧
    transaction_history st3 ≠ transaction_history st.
Proof.
  intros Ha Hle Hfresh. run_methods.
  rewrite Ha. simpl. rewrite bool_decide_true by done. simpl.
  eexists _, _, _. split; [reflexivity|]. simpl.
  rewrite !lookup_insert_eq. simpl.
  split; [reflexivity|]. split; [reflexivity|]. simpl.
  split_and!; [done|by apply delete_insert_id|done|].
  intros Heq. apply (f_equal length) in Heq. rewrite length_app in Heq. simpl in Heq. lia.
Qed.

(** No call removes an account. *)
Lemma exec_keeps_accounts (o : op) (st : MockLedger) (a : string) :
  is_Some (accounts st !! a) → is_Some (accounts (exec hash o st) !! a).
Proof.
  intros Ha.
  destruct o as [n b|s r amt svc now|n amt p t_id t_stamp|l to|l]; simpl; run_methods.
  - rewrite lookup_insert. case_decide; eauto.
  - case_bool_decide; simpl; [|done].
    destruct (accounts st !! s) as [bal|] eqn:Hs; simpl; [|done].
    rewrite !lookup_insert. repeat case_decide; eauto.
  - case_bool_decide; simpl; [|done].
    destruct (accounts st !! n) as [bal|] eqn:Hn; simpl; [|done].
    rewrite lookup_insert. case_decide; eauto.
  - destruct (locked_funds st !! l) as [locked|]; simpl; [|done].
    rewrite lookup_insert. case_decide; eauto.
  - destruct (locked_funds st !! l) as [locked|]; simpl; [|done].
    destruct (accounts st !! lock_agent locked) as [bal|] eqn:Hb; simpl; [|done].
    rewrite lookup_insert. case_decide; eauto.
Qed.

(** X6.  No call removes an account: a name that has an account keeps one
    through any sequence of calls, and the number of accounts reported by
    [get_ledger_stats] never goes down. *)
Theorem accounts_never_removed (ops : list op) (st : MockLedger) :
  (∀ a, is_Some (accounts st !! a) → is_Some (accounts (exec_all hash ops st) !! a)) ∧
  (total_accounts (get_ledger_stats st)
   ≤ total_accounts (get_ledger_stats (exec_all hash ops st)))%nat.
Proof.
  assert (∀ a, is_Some (accounts st !! a) →
               is_Some (accounts (exec_all hash ops st) !! a)) as Hkeep.
  { revert st. induction ops as [|o ops IH]; intros st a Ha; simpl; [done|].
    apply IH. by apply exec_keeps_accounts. }
  split; [done|]. simpl.
  rewrite <- !(size_dom (D := gset string)). apply subseteq_size.
  intros a. rewrite !elem_of_dom. apply Hkeep.
Qed.

(** X7.  A transfer that goes through shows up, as the last entry, in the
    history of its sender and in that of its receiver, and in the history
    of no other name. *)
Theorem transfer_shows_in_histories (st : MockLedger) (s r : string) (amt : Z)
    (svc : option string) (now : Q) (bal : Z) (n : string) :
  accounts st !! s = Some bal → amt ≤ bal → n ≠ EmptyString →
  get_transaction_history (store (transfer hash s r amt svc now st)) (Some n)
  = get_transaction_history st (Some n)
    ++ (if decide (n = s ∨ n = r) then [new_Transaction hash s r amt svc now] else []).
Proof.
  intros Hs Hle Hn.
  destruct (transfer_sufficient hash st s r amt svc now bal Hs Hle)
    as (st' & Hrun & _ & Hhist & _).
  rewrite Hrun. unfold store, get_transaction_history. simpl.
  rewrite bool_decide_false by done. rewrite Hhist, filter_app. f_equal.
  rewrite filter_cons, filter_nil. simpl.
  destruct (decide (n = s ∨ n = r)) as [Hor|Hnor].
  - rewrite decide_True; [done|]. destruct Hor; [left|right]; done.
  - rewrite decide_False; [done|]. intros [?|?]; apply Hnor; [left|right]; done.
Qed.

(** X8.  [lock_funds], case by case.  With an account that covers the
    amount it returns the lock id, debits the account, records the lock
    (owner, amount, purpose) under that id and touches neither the other
    locks nor the history; with an account that does not cover it, or
    without an account and a positive amount, it returns [None] and
    changes nothing; without an account and an amount of 0 or less it
    raises [KeyError]. *)
Theorem lock_funds_cases (st : MockLedger) (a : string) (amt : Z) (p : string)
    (t_id t_stamp : Q) :
  (∀ bal, accounts st !! a = Some bal → amt ≤ bal →
     ∃ st', lock_funds hash a amt p t_id t_stamp st
            = (Returned (Some (make_lock_id hash t_id p)), st') ∧
            accounts st' = <[a := bal - amt]> (accounts st) ∧
            locked_funds st' !! make_lock_id hash t_id p
            = Some (mkLock a amt p t_stamp) ∧
            (∀ l, l ≠ make_lock_id hash t_id p →
                  locked_funds st' !! l = locked_funds st !! l) ∧
            transaction_history st' = transaction_history st) ∧
  (get_balance st a < amt →
   lock_funds hash a amt p t_id t_stamp st = (Returned None, st)) ∧
  (accounts st !! a = None → amt ≤ 0 →
   lock_funds hash a amt p t_id t_stamp st = (Raised (KeyError a), st)).
Proof.
  split_and!.
  - intros bal Ha Hle. run_methods. rewrite Ha. simpl.
    rewrite bool_decide_true by done. simpl.
    eexists. split; [reflexivity|]. simpl. split_and!; try done.
    + apply lookup_insert_eq.
    + intros l Hl. by rewrite lookup_insert_ne.
  - unfold get_balance. intros Hlt. run_methods. by rewrite bool_decide_false by lia.
  - intros Ha Hle. run_methods. rewrite Ha. simpl. by rewrite bool_decide_true by done.
Qed.

(** X9.  Settling an active lock.  [release_funds] returns [True], removes
    the lock and credits the recipient with the locked amount, opening an
    account for a recipient that has none; [return_locked_funds] does the
    same for the owner of the lock, when the owner has an account.  Both
    leave every other balance, every other lock and the history alone. *)
Theorem settle_active_lock (st : MockLedger) (l to : string) (locked : Lock) :
  locked_funds st !! l = Some locked →
  (∃ st', release_funds l to st = (Returned true, st') ∧
          accounts st' !! to = Some (get_balance st to + lock_amount locked) ∧
          (∀ a, a ≠ to → accounts st' !! a = accounts st !! a) ∧
          locked_funds st' = delete l (locked_funds st) ∧
          transaction_history st' = transaction_history st) ∧
  (∀ bal, accounts st !! lock_agent locked = Some bal →
     ∃ st', return_locked_funds l st = (Returned true, st') ∧
            accounts st' !! lock_agent locked = Some (bal + lock_amount locked) ∧
            (∀ a, a ≠ lock_agent locked → accounts st' !! a = accounts st !! a) ∧
            locked_funds st' = delete l (locked_funds st) ∧
            transaction_history st' = transaction_history st).
Proof.
  intros Hl. split.
  - unfold get_balance. run_methods. rewrite Hl. simpl.
    eexists. split; [reflexivity|]. simpl. split_and!; try done.
    + apply lookup_insert_eq.
    + intros a Ha. by rewrite lookup_insert_ne.
  - intros bal Hbal. run_methods. rewrite Hl. simpl. rewrite Hbal. simpl.
    eexists. split; [reflexivity|]. simpl. split_and!; try done.
    + apply lookup_insert_eq.
    + intros a Ha. by rewrite lookup_insert_ne.
Qed.

(** X5.  Lock ids collide.  The id of a lock is made of the second of the
    clock and the hash of the purpose, so two [lock_funds] calls in the
    same second with the same purpose get the same id, whoever locks and
    whatever the amounts.  When both succeed, the entry of the second
    replaces that of the first: the first amount has left its owner's
    balance and is in no lock, and the total supply has dropped by it. *)
Theorem lock_id_collision (st st1 st2 : MockLedger) (a1 a2 : string) (amt1 amt2 : Z)
    (p : string) (t1 ts1 t2 ts2 : Q) (l1 l2 : string) :
  locked_funds st !! make_lock_id hash t1 p = None →
  int t2 = int t1 →
  lock_funds hash a1 amt1 p t1 ts1 st = (Returned (Some l1), st1) →
  lock_funds hash a2 amt2 p t2 ts2 st1 = (Returned (Some l2), st2) →
  l2 = l1 ∧
  locked_funds st2 = <[l1 := mkLock a2 amt2 p ts2]> (locked_funds st) ∧
  total_supply st2 = total_supply st - amt1.
Proof.
  intros Hfresh Ht Hrun1 Hrun2.
  assert (make_lock_id hash t2 p = make_lock_id hash t1 p) as Hid.
  { unfold make_lock_id. by rewrite Ht. }
  unfold total_supply. run_methods.
  destruct (bool_decide (amt1 ≤ default 0 (accounts st !! a1))) eqn:E1; [|done].
  destruct (accounts st !! a1) as [bal1|] eqn:Ha1; simpl in Hrun1; [|done].
  injection Hrun1 as <- <-. simpl in *.
  destruct (bool_decide (amt2 ≤ default 0 (<[a1:=bal1 - amt1]> (accounts st) !! a2)))
    eqn:E2; [|done].
  destruct (<[a1:=bal1 - amt1]> (accounts st) !! a2) as [bal2|] eqn:Ha2;
    simpl in Hrun2; [|done].
  injection Hrun2 as <- <-. simpl.
  rewrite Hid. split; [done|]. split; [by rewrite insert_insert_eq|].
  rewrite !sum_values_insert, lookup_insert_eq, Ha1, Ha2, Hfresh. unfold id. simpl. lia.
Qed.

End LedgerMore.

Section LedgerMoreWitnesses.
Import Py Ledger.

Lemma transfer_with_account_witness :
  accounts scenario !! "A" = Some 100 ∧ 50 ≤ 100 ∧ 100 < 150 ∧
  (∃ st', transfer sample_hash "A" "B" 50 None 1700000000.25 scenario
          = (Returned true, st')) ∧
  transfer sample_hash "A" "B" 150 None 1700000000.25 scenario
  = (Returned false, scenario).
Proof.
  assert (accounts scenario !! "A" = Some 100) as Ha by (vm_compute; reflexivity).
  assert (50 ≤ 100) as H1 by lia. assert (100 < 150) as H2 by lia.
  split; [exact Ha|]. split; [exact H1|]. split; [exact H2|]. split.
  - destruct (proj1 (transfer_with_account sample_hash scenario "A" "B" 50 None
                       1700000000.25 100 Ha) H1) as (st' & Hrun & _).
    by exists st'.
  - exact (proj2 (transfer_with_account sample_hash scenario "A" "B" 150 None
                    1700000000.25 100 Ha) H2).
Defined.

Lemma lock_return_round_trip_witness :
  accounts scenario !! "A" = Some 100 ∧ 30 ≤ 100 ∧
  locked_funds scenario !! make_lock_id sample_hash 1700000000.75 "escrow" = None ∧
  ∃ st1, lock_funds sample_hash "A" 30 "escrow" 1700000000.75 1700000000.75 scenario
         = (Returned (Some (make_lock_id sample_hash 1700000000.75 "escrow")), st1) ∧
         return_locked_funds (make_lock_id sample_hash 1700000000.75 "escrow") st1
         = (Returned true, scenario).
Proof.
  assert (accounts scenario !! "A" = Some 100) as Ha by (vm_compute; reflexivity).
  assert (30 ≤ 100) as H1 by lia.
  assert (locked_funds scenario !! make_lock_id sample_hash 1700000000.75 "escrow" = None)
    as Hfresh by (vm_compute; reflexivity).
  split; [exact Ha|]. split; [exact H1|]. split; [exact Hfresh|].
  exact (lock_return_round_trip sample_hash scenario "A" 30 "escrow"
           1700000000.75 1700000000.75 100 Ha H1 Hfresh).
Defined.

Lemma lock_release_is_silent_transfer_witness :
  accounts scenario !! "A" = Some 100 ∧ 30 ≤ 100 ∧
  locked_funds scenario !! make_lock_id sample_hash 1700000000.75 "escrow" = None ∧
  ∃ st1 st2 st3,
    lock_funds sample_hash "A" 30 "escrow" 1700000000.75 1700000000.75 scenario
    = (Returned (Some (make_lock_id sample_hash 1700000000.75 "escrow")), st1) ∧
    release_funds (make_lock_id sample_hash 1700000000.75 "escrow") "B" st1
    = (Returned true, st2) ∧
    transfer sample_hash "A" "B" 30 None 1700000000.75 scenario = (Returned true, st3) ∧
    accounts st2 = accounts st3.
Proof.
  assert (accounts scenario !! "A" = Some 100) as Ha by (vm_compute; reflexivity).
  assert (30 ≤ 100) as H1 by lia.
  assert (locked_funds scenario !! make_lock_id sample_hash 1700000000.75 "escrow" = None)
    as Hfresh by (vm_compute; reflexivity).
  split; [exact Ha|]. split; [exact H1|]. split; [exact Hfresh|].
  destruct (lock_release_is_silent_transfer sample_hash scenario "A" "B" 30 "escrow"
              1700000000.75 1700000000.75 1700000000.75 None 100 Ha H1 Hfresh)
    as (st1 & st2 & st3 & Hl & Hr & Ht & Hacc & _).
  by exists st1, st2, st3.
Defined.

Lemma transfer_shows_in_histories_witness :
  accounts scenario !! "A" = Some 100 ∧ 50 ≤ 100 ∧ "B" ≠ EmptyString ∧
  get_transaction_history
    (store (transfer sample_hash "A" "B" 50 None 1700000000.25 scenario)) (Some "B")
  = [new_Transaction sample_hash "A" "B" 50 None 1700000000.25].
Proof.
  assert (accounts scenario !! "A" = Some 100) as Ha by (vm_compute; reflexivity).
  assert (50 ≤ 100) as H1 by lia.
  assert ("B" ≠ EmptyString) as Hn by discriminate.
  split; [exact Ha|]. split; [exact H1|]. split; [exact Hn|].
  rewrite (transfer_shows_in_histories sample_hash scenario "A" "B" 50 None
             1700000000.25 100 "B" Ha H1 Hn).
  reflexivity.
Defined.

Lemma settle_active_lock_witness :
  locked_funds scenario_locked !! "lock_1700000000_659"
  = Some (mkLock "A" 30 "escrow" 1700000000.75) ∧
  ∃ st', release_funds "lock_1700000000_659" "Newcomer" scenario_locked
         = (Returned true, st') ∧
         accounts st' !! "Newcomer" = Some 30.
Proof.
  assert (locked_funds scenario_locked !! "lock_1700000000_659"
          = Some (mkLock "A" 30 "escrow" 1700000000.75)) as Hl
    by (vm_compute; reflexivity).
  split; [exact Hl|].
  destruct (proj1 (settle_active_lock scenario_locked "lock_1700000000_659" "Newcomer"
                     _ Hl)) as (st' & Hrun & Hto & _).
  exists st'. split; [exact Hrun|]. rewrite Hto. vm_compute. reflexivity.
Defined.

Lemma lock_id_collision_witness :
  locked_funds scenario !! make_lock_id sample_hash 1700000000.1 "escrow" = None ∧
  int 1700000000.9 = int 1700000000.1 ∧
  total_supply scenario = 200 ∧
  total_supply
    (store (lock_funds sample_hash "B" 20 "escrow" 1700000000.9 1700000000.9
              (store (lock_funds sample_hash "A" 30 "escrow" 1700000000.1 1700000000.1
                        scenario)))) = 170.
Proof.
  assert (locked_funds scenario !! make_lock_id sample_hash 1700000000.1 "escrow" = None)
    as Hfresh by (vm_compute; reflexivity).
  assert (int 1700000000.9 = int 1700000000.1) as Ht by (vm_compute; reflexivity).
  split; [exact Hfresh|]. split; [exact Ht|]. split; [vm_compute; reflexivity|].
  assert (lock_funds sample_hash "A" 30 "escrow" 1700000000.1 1700000000.1 scenario
          = (Returned (Some "lock_1700000000_659"),
             store (lock_funds sample_hash "A" 30 "escrow" 1700000000.1 1700000000.1
                      scenario))) as Hrun1 by (vm_compute; reflexivity).
  assert (lock_funds sample_hash "B" 20 "escrow" 1700000000.9 1700000000.9
            (store (lock_funds sample_hash "A" 30 "escrow" 1700000000.1 1700000000.1
                      scenario))
          = (Returned (Some "lock_1700000000_659"),
             store (lock_funds sample_hash "B" 20 "escrow" 1700000000.9 1700000000.9
                      (store (lock_funds sample_hash "A" 30 "escrow" 1700000000.1
                                1700000000.1 scenario))))) as Hrun2
    by (vm_compute; reflexivity).
  rewrite (proj2 (proj2 (lock_id_collision sample_hash scenario _ _ "A" "B" 30 20 "escrow"
                           1700000000.1 1700000000.1 1700000000.9 1700000000.9
                           "lock_1700000000_659" "lock_1700000000_659"
                           Hfresh Ht Hrun1 Hrun2))).
  vm_compute. reflexivity.
Defined.

Lemma lock_funds_cases_witness :
  get_balance scenario "A" < 130 ∧
  accounts scenario !! "Ghost" = None ∧ 0 ≤ 0 ∧
  lock_funds sample_hash "A" 130 "escrow" 1700000000.75 1700000000.75 scenario
  = (Returned None, scenario) ∧
  lock_funds sample_hash "Ghost" 0 "escrow" 1700000000.75 1700000000.75 scenario
  = (Raised (KeyError "Ghost"), scenario).
Proof.
  assert (get_balance scenario "A" < 130) as Hlt by (vm_compute; reflexivity).
  assert (accounts scenario !! "Ghost" = None) as Hg by (vm_compute; reflexivity).
  assert (0 ≤ 0) as H0 by lia.
  split; [exact Hlt|]. split; [exact Hg|]. split; [exact H0|]. split.
  - exact (proj1 (proj2 (lock_funds_cases sample_hash scenario "A" 130 "escrow"
                           1700000000.75 1700000000.75)) Hlt).
  - exact (proj2 (proj2 (lock_funds_cases sample_hash scenario "Ghost" 0 "escrow"
                           1700000000.75 1700000000.75)) Hg H0).
Defined.

End LedgerMoreWitnesses.

(** ** More on the negotiator *)

Section NegotiatorMore.
Import Py Negotiator.

(** *** [max] returns the first maximum *)

Lemma max_scan_first {A : Type} (f : A → Q) (rest pre mid : list A) (best : A) :
  Forall (λ x, (f x < f best)%Q) pre → Forall (λ x, (f x <= f best)%Q) mid →
  ∃ l1 l2,
    pre ++ best :: mid ++ rest
    = l1 ++ max_scan (λ x y, Qgtb (f x) (f y)) best rest :: l2 ∧
    Forall (λ x, (f x < f (max_scan (λ x y, Qgtb (f x) (f y)) best rest))%Q) l1 ∧
    Forall (λ x, (f x <= f (max_scan (λ x y, Qgtb (f x) (f y)) best rest))%Q) l2.
Proof.
  revert pre mid best. induction rest as [|x rest IH]; intros pre mid best Hpre Hmid.
  - exists pre, mid. by rewrite app_nil_r.
  - assert (max_scan (λ x y, Qgtb (f x) (f y)) best (x :: rest)
            = if Qltb (f best) (f x) then max_scan (λ x y, Qgtb (f x) (f y)) x rest
              else max_scan (λ x y, Qgtb (f x) (f y)) best rest) as -> by reflexivity.
    destruct (Qltb (f best) (f x)) eqn:E.
    + apply Qltb_lt in E.
      destruct (IH (pre ++ best :: mid) [] x) as (l1 & l2 & Heq & H1 & H2).
      * rewrite Forall_app, Forall_cons. split_and!; [|done|].
        -- eapply Forall_impl; [exact Hpre|]. intros y Hy. simpl in Hy. lra.
        -- eapply Forall_impl; [exact Hmid|]. intros y Hy. simpl in Hy. lra.
      * constructor.
      * exists l1, l2. split; [|done]. rewrite <- Heq. simpl.
        rewrite <- !app_assoc. simpl. done.
    + apply Qltb_ge in E.
      destruct (IH pre (mid ++ [x]) best) as (l1 & l2 & Heq & H1 & H2).
      * done.
      * rewrite Forall_app, Forall_singleton. done.
      * exists l1, l2. split; [|done]. rewrite <- Heq. by rewrite <- !app_assoc.
Qed.

Lemma max_scan_first_of {A : Type} (f : A → Q) (rest : list A) (best : A) :
  ∃ l1 l2,
    best :: rest = l1 ++ max_scan (λ x y, Qgtb (f x) (f y)) best rest :: l2 ∧
    Forall (λ x, (f x < f (max_scan (λ x y, Qgtb (f x) (f y)) best rest))%Q) l1 ∧
    Forall (λ x, (f x <= f (max_scan (λ x y, Qgtb (f x) (f y)) best rest))%Q) l2.
Proof.
  destruct (max_scan_first f rest [] [] best) as (l1 & l2 & Heq & H1 & H2);
    [constructor|constructor|].
  exists l1, l2. done.
Qed.

(** X10.  The greedy choice of [get_action].  When the generator's draw
    is not below ε, [get_action] returns, on a table whose rows carry the
    four actions, the first action of greatest value in the row of the
    state: every action before it is worth strictly less, every action
    after it at most as much.  The only change to the store is the
    all-zero row of a state seen for the first time, for which the choice
    is [accept]. *)
Theorem get_action_greedy (state : string) (d : Draw) (st : RLNegotiator) :
  table_ok st → (epsilon st <= rand_u d)%Q →
  ∃ a q l1 l2,
    get_action state true d st = (Returned a, ensure_row_store state st) ∧
    row_of st state = l1 ++ (a, q) :: l2 ∧
    Forall (λ x, (snd x < q)%Q) l1 ∧ Forall (λ x, (snd x <= q)%Q) l2 ∧
    (q_table st !! state = None → a = "accept").
Proof.
  intros Hok Hu. rewrite get_action_exploits by done.
  unfold get_action. rewrite (bind_returned _ _ _ _ _ (ensure_row_run state st)).
  rewrite bind_gets. cbn [andb]. rewrite bind_gets.
  assert (q_table (ensure_row_store state st) !! state = Some (row_of st state)) as Hrow.
  { unfold ensure_row_store, row_of. destruct (q_table st !! state) eqn:E; simpl; [done|].
    apply lookup_insert_eq. }
  rewrite (bind_getitem _ _ _ _ _ Hrow).
  assert (fst <$> row_of st state = actions) as Hkeys.
  { unfold row_of. destruct (q_table st !! state) eqn:E; simpl; [by eapply Hok|done]. }
  destruct (row_of st state) as [|kv rest] eqn:Erow; [done|].
  destruct (max_scan_first_of snd rest kv) as (l1 & l2 & Heq & H1 & H2).
  destruct (max_scan (λ x y, Qgtb (snd x) (snd y)) kv rest) as [a q] eqn:Escan.
  exists a, q, l1, l2. split_and!; try done.
  - unfold max_key. by rewrite Escan.
  - intros Hnone. unfold row_of in Erow. rewrite Hnone in Erow. simpl in Erow.
    destruct l1 as [|x l1].
    + rewrite <- Erow in Heq. by injection Heq as <- _.
    + rewrite <- Erow in Heq. simpl in Heq.
      assert ((a, q) ∈ zero_row) as Hin.
      { rewrite Heq. apply list_elem_of_further, elem_of_app. right. apply list_elem_of_here. }
      assert (q = 0.0%Q) as ->.
      { unfold zero_row, actions in Hin. simpl in Hin.
        rewrite !elem_of_cons, elem_of_nil in Hin.
        destruct Hin as [[= _ ->]|[[= _ ->]|[[= _ ->]|[[= _ ->]|[]]]]]; done. }
      injection Heq as <- _. apply Forall_cons in H1 as [Hlt _]. simpl in Hlt.
      by apply Qlt_irrefl in Hlt.
Qed.

Lemma get_action_greedy_witness :
  table_ok global_negotiator ∧ (epsilon global_negotiator <= 0.5)%Q ∧
  get_action "never_seen" true (mkDraw 0.5 3) global_negotiator
  = (Returned "accept", ensure_row_store "never_seen" global_negotiator).
Proof.
  assert (epsilon global_negotiator <= 0.5)%Q as Hu by (vm_compute; discriminate).
  split; [exact (init_table_ok 0.1 0.9 0.1)|]. split; [exact Hu|].
  destruct (get_action_greedy "never_seen" (mkDraw 0.5 3) global_negotiator
              (init_table_ok 0.1 0.9 0.1) Hu) as (a & q & l1 & l2 & Hrun & _ & _ & _ & Hacc).
  rewrite Hrun. by rewrite (Hacc eq_refl).
Defined.

(** *** The update rule *)

Lemma odict_lookup_set_ne {V : Type} (d : list (string * V)) (k k' : string) (v : V) :
  k ≠ k' → odict_lookup (odict_set d k v) k' = odict_lookup d k'.
Proof.
  intros Hne. induction d as [|[k0 v0] d IH]; simpl.
  - by rewrite decide_False.
  - destruct (decide (k0 = k)) as [->|Hk]; simpl.
    + by rewrite !decide_False.
    + by rewrite IH.
Qed.

Lemma ensure_row_store_lookup (s s' : string) (st : RLNegotiator) :
  q_table (ensure_row_store s st) !! s'
  = if decide (s = s') then Some (row_of st s) else q_table st !! s'.
Proof.
  unfold ensure_row_store, row_of.
  destruct (q_table st !! s) as [row|] eqn:E; simpl.
  - case_decide; [by subst|done].
  - rewrite lookup_insert. by case_decide.
Qed.

Lemma row_of_keys (st : RLNegotiator) (s : string) :
  table_ok st → fst <$> row_of st s = actions.
Proof.
  intros Hok. unfold row_of. destruct (q_table st !! s) eqn:E; simpl; [by eapply Hok|done].
Qed.

(** X11.  The rule of [update_q_value], for any state and optional next
    state, seen before or not, and an action among the four: the entry
    [Q(s, a)] becomes [q + α·(r + γ·m − q)], where [q] is its old value
    (0.0 in a new row) and [m] is 0 without a next state and otherwise the
    greatest value in the row of the next state as it was before the call
    (all zeros for a new one).  No other entry of a state already in the
    table changes, and α, γ and ε are left alone. *)
Theorem update_q_value_rule (state action : string) (reward : Q)
    (next_state : option string) (st : RLNegotiator) :
  table_ok st → action ∈ actions →
  ∃ st' q,
    update_q_value state action reward next_state st = (Returned tt, st') ∧
    odict_lookup (row_of st state) action = Some q ∧
    q_value st' state action
    = Some (q + learning_rate st
                * (reward + discount_factor st * bootstrap st next_state - q))%Q ∧
    (∀ s a, is_Some (q_table st !! s) → (s, a) ≠ (state, action) →
            q_value st' s a = q_value st s a) ∧
    grows st st'.
Proof.
  intros Hok Hin. unfold update_q_value.
  rewrite (bind_returned _ _ _ _ _ (ensure_row_run state st)).
  set (st1 := ensure_row_store state st).
  set (st2 := match truthy next_state with
              | Some ns => ensure_row_store ns st1
              | None => st1
              end).
  assert (match truthy next_state with
          | Some ns => ensure_row ns
          | None => mret tt
          end st1 = (Returned tt, st2)) as Hrun2.
  { unfold st2. destruct (truthy next_state); [apply ensure_row_run|done]. }
  rewrite (bind_returned _ _ _ _ _ Hrun2), bind_gets.
  assert (∀ s, q_table st2 !! s
               = if decide (s = state ∨ truthy next_state = Some s)
                 then Some (row_of st s) else q_table st !! s) as Hst2.
  { intros s. unfold st2, st1. destruct (truthy next_state) as [ns|] eqn:Et.
    - rewrite !ensure_row_store_lookup.
      destruct (decide (ns = s)) as [->|Hns].
      + rewrite decide_True by (by right). unfold row_of at 1.
        rewrite ensure_row_store_lookup. case_decide; [by subst|done].
      + destruct (decide (state = s)) as [->|Hs].
        * by rewrite decide_True by (by left).
        * rewrite decide_False; [done|]. intros [?|[= ?]]; congruence.
    - rewrite ensure_row_store_lookup.
      destruct (decide (state = s)) as [->|Hs].
      + by rewrite decide_True by (by left).
      + rewrite decide_False; [done|]. intros [?|?]; congruence. }
  assert (q_table st2 !! state = Some (row_of st state)) as Hrow.
  { rewrite Hst2. by rewrite decide_True by (by left). }
  rewrite (bind_getitem _ _ _ _ _ Hrow).
  pose proof (row_of_keys st state Hok) as Hkeys.
  destruct (odict_lookup_is_Some (row_of st state) action) as [q Hq];
    [by rewrite Hkeys|].
  rewrite (bind_odict_getitem _ _ _ _ _ Hq).
  assert (match truthy next_state with
          | Some ns => row' ← getitem (q_table st2) ns; max_value Qgtb row'
          | None => mret 0%Q
          end st2 = (Returned (bootstrap st next_state), st2)) as Hmx.
  { unfold bootstrap. destruct (truthy next_state) as [ns|] eqn:Et; [|done].
    assert (q_table st2 !! ns = Some (row_of st ns)) as Hns.
    { rewrite Hst2. by rewrite decide_True by (by right). }
    rewrite (bind_getitem _ _ _ _ _ Hns).
    pose proof (row_of_keys st ns Hok) as Hk.
    by destruct (row_of st ns). }
  rewrite (bind_returned _ _ _ _ _ Hmx), !bind_gets.
  assert (learning_rate st2 = learning_rate st ∧ discount_factor st2 = discount_factor st
          ∧ epsilon st2 = epsilon st) as (Hlr & Hdf & Heps).
  { unfold st2, st1, ensure_row_store.
    destruct (truthy next_state) as [ns|]; simpl;
      repeat match goal with |- context [match ?x with Some _ => _ | None => _ end] =>
                               destruct x end; done. }
  eexists _, q. split; [reflexivity|]. split; [done|]. split_and!.
  - unfold q_value. simpl. rewrite lookup_insert_eq. simpl.
    rewrite odict_lookup_set_eq, Hlr, Hdf. done.
  - intros s a Hs Hne. unfold q_value. simpl. rewrite lookup_insert.
    destruct (decide (state = s)) as [<-|Hsne].
    + simpl. rewrite odict_lookup_set_ne by congruence.
      unfold row_of. destruct Hs as [row Hr]. by rewrite Hr.
    + rewrite Hst2. case_decide as Hd; [|done].
      unfold row_of. destruct Hs as [row Hr]. by rewrite Hr.
  - unfold grows. simpl. split_and!; try done.
    intros s Hs. rewrite lookup_insert. case_decide; [eauto|].
    rewrite Hst2. case_decide; eauto.
Qed.

Lemma negotiate_table_ok service_type initial_offer market_price agent_reputation
    max_rounds draws st :
  market_price ≠ 0 → table_ok st →
  table_ok (store (negotiate service_type initial_offer market_price agent_reputation
                     max_rounds draws st)).
Proof.
  intros Hmp Hok.
  destruct (negotiate_rounds_returns service_type market_price agent_reputation max_rounds
              draws (Z.to_nat max_rounds) 0 initial_offer st Hmp Hok)
    as (r & log & st' & Hrun & Hok' & _).
  by rewrite (negotiate_of_logged _ _ _ _ _ _ _ _ _ _ Hrun).
Qed.

Lemma update_q_value_rule_witness :
  table_ok after_first_episode ∧ "counter_high" ∈ actions ∧
  (bootstrap after_first_episode (Some "x_high_high_medium") == 0.1)%Q ∧
  ∃ st' q q',
    update_q_value "x_fair_high_low" "counter_high" (-0.1) (Some "x_high_high_medium")
      after_first_episode = (Returned tt, st') ∧
    odict_lookup (row_of after_first_episode "x_fair_high_low") "counter_high" = Some q ∧
    (q == -0.01)%Q ∧
    q_value st' "x_fair_high_low" "counter_high" = Some q' ∧ (q' == -0.01)%Q.
Proof.
  assert (table_ok after_first_episode) as Hok.
  { apply negotiate_table_ok; [done|apply init_table_ok]. }
  assert ("counter_high" ∈ actions) as Hin by (unfold actions; set_solver).
  split; [exact Hok|]. split; [exact Hin|]. split; [vm_compute; reflexivity|].
  destruct (update_q_value_rule "x_fair_high_low" "counter_high" (-0.1)
              (Some "x_high_high_medium") after_first_episode Hok Hin)
    as (st' & q & Hrun & Hq & Hq' & _).
  exists st', q. eexists. split; [exact Hrun|]. split; [exact Hq|].
  assert (q = (-0.01000)%Q) as ->.
  { vm_compute in Hq. by injection Hq as <-. }
  split; [reflexivity|]. split; [exact Hq'|]. vm_compute. reflexivity.
Defined.

(** *** What an episode leaves in the table *)

Ltac by_elements :=
  repeat match goal with H : grows _ _ |- _ => clear H end;
  intros ?x ?Hx;
  repeat match goal with H : _ ⊆ _ |- _ => specialize (H x) end;
  rewrite ?elem_of_union, ?elem_of_difference, ?elem_of_singleton, ?elem_of_empty in *;
  tauto.

Lemma grows_refl st : grows st st.
Proof. by unfold grows. Qed.

Lemma grows_trans st1 st2 st3 : grows st1 st2 → grows st2 st3 → grows st1 st3.
Proof.
  intros (? & ? & ? & H12) (? & ? & ? & H23). unfold grows.
  split_and!; try congruence. eauto.
Qed.

Lemma learns_pure {A : Type} (Y : gset string) (m : M RLNegotiator A) :
  (∀ st, store (m st) = st) → learns Y 0 m.
Proof.
  intros Hm st. exists ∅. rewrite Hm. split; [by rewrite size_empty|].
  split; [apply grows_refl|by_elements].
Qed.

Lemma learns_weaken {A : Type} (Y Y' : gset string) (n n' : nat) (m : M RLNegotiator A) :
  Y ⊆ Y' → (n ≤ n')%nat → learns Y n m → learns Y' n' m.
Proof.
  intros HY Hn Hm st. destruct (Hm st) as (X & HX & Hg & Hdom).
  exists X. split; [lia|]. split; [done|]. by_elements.
Qed.

Lemma learns_bind {A B : Type} (Y : gset string) (n1 n2 : nat)
    (m : M RLNegotiator A) (k : A → M RLNegotiator B) :
  learns Y n1 m → (∀ a, learns Y n2 (k a)) → learns Y (n1 + n2) (m ≫= k).
Proof.
  intros Hm Hk st. destruct (Hm st) as (X1 & HX1 & Hg1 & Hd1).
  unfold mbind, M_bind, bind. destruct (m st) as [[a|e] st1] eqn:E; simpl in *.
  - destruct (Hk a st1) as (X2 & HX2 & Hg2 & Hd2).
    exists (X1 ∪ X2). split.
    + rewrite size_union_alt.
      assert (X2 ∖ X1 ⊆ X2) as Hsub by by_elements.
      apply subseteq_size in Hsub. lia.
    + split; [by eapply grows_trans|]. by_elements.
  - exists X1. split; [lia|done].
Qed.

Lemma learns_seq {A B : Type} (Y : gset string) (n : nat)
    (m : M RLNegotiator A) (k : A → M RLNegotiator B) :
  learns Y 0 m → (∀ a, learns Y n (k a)) → learns Y n (m ≫= k).
Proof. intros Hm Hk. by apply (learns_bind Y 0 n). Qed.

Lemma learns_close {A : Type} (s : string) (n : nat) (m : M RLNegotiator A) :
  learns {[s]} n m → learns ∅ (S n) m.
Proof.
  intros Hm st. destruct (Hm st) as (X & HX & Hg & Hd).
  exists ({[s]} ∪ X). split; [|split; [done|by_elements]].
  rewrite size_union_alt, size_singleton.
  assert (X ∖ {[s]} ⊆ X) as Hsub by by_elements.
  apply subseteq_size in Hsub. lia.
Qed.

Lemma learns_ensure_row (Y : gset string) (s : string) :
  s ∈ Y → learns Y 0 (ensure_row s).
Proof.
  intros Hs st. exists ∅. split; [by rewrite size_empty|].
  rewrite ensure_row_run. unfold store, ensure_row_store. simpl.
  destruct (q_table st !! s) eqn:E.
  - split; [apply grows_refl|by_elements].
  - split.
    + unfold grows. simpl. split_and!; try done.
      intros s' Hs'. rewrite lookup_insert. case_decide; eauto.
    + simpl. rewrite dom_insert. clear -Hs. intros x.
      rewrite !elem_of_union, elem_of_singleton. intros [->|?]; tauto.
Qed.

Lemma learns_set_row (Y : gset string) (s : string) (row : list (string * Q)) :
  s ∈ Y → learns Y 0 (modify (set_q_table (<[s := row]>))).
Proof.
  intros Hs st. exists ∅. split; [by rewrite size_empty|]. simpl. split.
  - unfold grows. simpl. split_and!; try done.
    intros s' Hs'. rewrite lookup_insert. case_decide; eauto.
  - rewrite dom_insert. clear -Hs. intros x.
    rewrite !elem_of_union, elem_of_singleton. intros [->|?]; tauto.
Qed.

Lemma learns_get_action (Y : gset string) (s : string) (explore : bool) (d : Draw) :
  s ∈ Y → learns Y 0 (get_action s explore d).
Proof.
  intros Hs. unfold get_action.
  apply learns_seq; [by apply learns_ensure_row|]. intros _.
  apply learns_seq; [by apply learns_pure|]. intros eps.
  destruct (explore && Qltb (rand_u d) eps).
  - apply learns_pure. intros st. unfold random_choice.
    by destruct (actions !! _).
  - apply learns_seq; [by apply learns_pure|]. intros tbl.
    apply learns_seq.
    + apply learns_pure. intros st. unfold getitem. by destruct (tbl !! s).
    + intros row. apply learns_pure. intros st. unfold max_key. by destruct row.
Qed.

Lemma learns_update_q_value (Y : gset string) (s a : string) (r : Q) :
  s ∈ Y → learns Y 0 (update_q_value s a r None).
Proof.
  intros Hs. unfold update_q_value.
  apply learns_seq; [by apply learns_ensure_row|]. intros _.
  apply learns_seq; [by apply learns_pure|]. intros _.
  apply learns_seq; [by apply learns_pure|]. intros tbl.
  apply learns_seq.
  { apply learns_pure. intros st. unfold getitem. by destruct (tbl !! s). }
  intros row. apply learns_seq.
  { apply learns_pure. intros st. unfold odict_getitem. by destruct (odict_lookup row a). }
  intros q. apply learns_seq; [by apply learns_pure|]. intros mx.
  apply learns_seq; [by apply learns_pure|]. intros lr.
  apply learns_seq; [by apply learns_pure|]. intros df.
  by apply learns_set_row.
Qed.

Lemma learns_closing (Y : gset string) (s a : string) (price market_price : Z)
    (deal : bool) (r : (string * Z) * list string) :
  s ∈ Y →
  learns Y 0 (reward ← lift (calculate_reward price market_price deal);
              update_q_value s a reward None;; mret r).
Proof.
  intros Hs. apply learns_seq; [by apply learns_pure|]. intros reward.
  apply learns_seq; [by apply learns_update_q_value|]. intros _.
  by apply learns_pure.
Qed.

Lemma learns_negotiate_rounds service_type market_price agent_reputation max_rounds draws
    remaining round_num offer :
  learns ∅ (S remaining)
    (negotiate_rounds service_type market_price agent_reputation max_rounds draws
       remaining round_num offer).
Proof.
  revert round_num offer. induction remaining as [|remaining IH]; intros round_num offer.
  - rewrite negotiate_rounds_O. unfold forced_accept.
    apply (learns_close (get_state service_type offer market_price agent_reputation 1.0)).
    apply learns_seq.
    + apply learns_seq; [by apply learns_pure|]. intros reward.
      apply learns_seq; [by apply learns_update_q_value, elem_of_singleton|]. intros _.
      by apply learns_pure.
    + intros r. by apply learns_pure.
  - rewrite negotiate_rounds_S. cbv zeta.
    set (state := get_state _ _ _ _ _).
    apply (learns_close state).
    apply learns_seq; [by apply learns_get_action, elem_of_singleton|]. intros action.
    destruct (decide (action = "accept")); [apply (learns_weaken {[state]} _ 0);
      [done|lia|by apply learns_closing, elem_of_singleton]|].
    destruct (decide (action = "reject")); [apply (learns_weaken {[state]} _ 0);
      [done|lia|by apply learns_closing, elem_of_singleton]|].
    apply learns_seq.
    + destruct (decide (action = "counter_low")).
      { apply learns_seq; [by apply learns_update_q_value, elem_of_singleton|]. intros _.
        by apply learns_pure. }
      destruct (decide (action = "counter_high")).
      { apply learns_seq; [by apply learns_update_q_value, elem_of_singleton|]. intros _.
        by apply learns_pure. }
      by apply learns_pure.
    + intros offer'. apply (learns_weaken ∅ _ (S remaining)); [by_elements|lia|].
      rewrite <- (Nat.add_0_r (S remaining)).
      apply learns_bind; [apply IH|].
      intros [r log]. by apply learns_pure.
Qed.

(** X12.  Whatever an episode of [negotiate] does, return or raise, and
    whatever the generator draws, it leaves the learning rate, the discount
    factor and the exploration rate as they were, removes no state from the
    table, and adds at most one state per round and one for the forced
    accept: at most [max_rounds + 1] new states. *)
Theorem negotiate_learns_little (service_type : string) (initial_offer market_price : Z)
    (agent_reputation : Q) (max_rounds : Z) (draws : nat → Draw) (st : RLNegotiator) :
  let st' := store (negotiate service_type initial_offer market_price agent_reputation
                      max_rounds draws st) in
  grows st st' ∧
  (size (q_table st') ≤ size (q_table st) + Z.to_nat max_rounds + 1)%nat.
Proof.
  assert (learns ∅ (S (Z.to_nat max_rounds))
            (negotiate service_type initial_offer market_price agent_reputation
               max_rounds draws)) as Hl.
  { unfold negotiate, negotiate_logged.
    pose proof (learns_negotiate_rounds service_type market_price agent_reputation
                  max_rounds draws (Z.to_nat max_rounds) 0 initial_offer) as H.
    apply (learns_bind ∅ _ 0 _ (λ r, mret (fst r))) in H.
    - by rewrite Nat.add_0_r in H.
    - intros r. by apply learns_pure. }
  destruct (Hl st) as (X & HX & Hg & Hd). cbv zeta. split; [done|].
  rewrite <- !size_dom. apply subseteq_size in Hd.
  rewrite (right_id_L ∅ (∪)), size_union_alt in Hd.
  assert (X ∖ dom (q_table st) ⊆ X) as Hsub by by_elements.
  apply subseteq_size in Hsub. lia.
Qed.

(** *** The price an episode settles on *)

Lemma counter_low_bounds (offer : Z) : 1 ≤ offer → 1 ≤ counter_low offer ≤ offer.
Proof.
  intros Ho. unfold counter_low, int. simpl. change (Z.pos (1 * 10)) with 10.
  rewrite Z.quot_div_nonneg by lia.
  pose proof (Z.div_le_upper_bound (offer * 8) 10 offer). lia.
Qed.

Lemma counter_high_bounds (offer : Z) :
  1 ≤ offer → offer ≤ counter_high offer ∧ 5 * counter_high offer ≤ 6 * offer.
Proof.
  intros Ho. unfold counter_high, int. simpl. change (Z.pos (1 * 10)) with 10.
  rewrite Z.quot_div_nonneg by lia.
  pose proof (Z.div_le_lower_bound (offer * 12) 10 offer).
  pose proof (Z.mul_div_le (offer * 12) 10). lia.
Qed.

Lemma apply_counter_bounds (offer : Z) (a : string) :
  is_counter a → 1 ≤ offer →
  1 ≤ apply_counter offer a ∧ 5 * apply_counter offer a ≤ 6 * offer.
Proof.
  intros [-> | ->] Ho; unfold apply_counter; simpl.
  - pose proof (counter_low_bounds offer Ho). lia.
  - pose proof (counter_high_bounds offer Ho). lia.
Qed.

Lemma counters_bounds (cs : list string) (offer : Z) :
  Forall is_counter cs → 1 ≤ offer →
  1 ≤ foldl apply_counter offer cs ∧
  5 ^ Z.of_nat (length cs) * foldl apply_counter offer cs
  ≤ 6 ^ Z.of_nat (length cs) * offer.
Proof.
  intros Hcs. revert offer. induction Hcs as [|c cs Hc Hcs IH]; intros offer Ho.
  - simpl. lia.
  - destruct (apply_counter_bounds offer c Hc Ho) as [H1 H6].
    destruct (IH _ H1) as [Hp Hb]. split; [done|].
    change (foldl apply_counter offer (c :: cs))
      with (foldl apply_counter (apply_counter offer c) cs).
    rewrite length_cons, Nat2Z.inj_succ, !Z.pow_succ_r by lia.
    pose proof (Z.pow_pos_nonneg 6 (Z.of_nat (length cs))). nia.
Qed.

(** X13.  With a non-zero market price and an initial offer of at least 1
    whose counter-offers stay within [price_limit], an episode of
    [negotiate] ends in a reject at price 0 or in an accept at a price
    that is at least 1 and at most the initial offer times 1.2 per round,
    [initial_offer · 1.2^max_rounds], which is within the limit. *)
Theorem negotiate_price_bounds (service_type : string) (initial_offer market_price : Z)
    (agent_reputation : Q) (max_rounds : Z) (draws : nat → Draw) (st : RLNegotiator) :
  market_price ≠ 0 → table_ok st → 1 ≤ initial_offer →
  offers_in_range initial_offer max_rounds →
  ∃ decision price st',
    negotiate service_type initial_offer market_price agent_reputation max_rounds draws st
    = (Returned (decision, price), st') ∧
    ((decision = "reject" ∧ price = 0) ∨
     (decision = "accept" ∧ 1 ≤ price ≤ price_limit ∧
      5 ^ Z.of_nat (Z.to_nat max_rounds) * price
      ≤ 6 ^ Z.of_nat (Z.to_nat max_rounds) * initial_offer)).
Proof.
  intros Hmp Hok Ho Hrange.
  destruct (negotiate_rounds_returns service_type market_price agent_reputation max_rounds
              draws (Z.to_nat max_rounds) 0 initial_offer st Hmp Hok)
    as ([decision price] & log & st' & Hrun & _ & Hlen & Hshape).
  pose proof (episode_in_range initial_offer max_rounds _ _ Hshape Hlen Hrange) as Hlimit.
  destruct Hshape as (cs & Hcs & Hshape). simpl in Hlimit.
  exists decision, price, st'.
  split; [exact (negotiate_of_logged _ _ _ _ _ _ _ _ _ _ Hrun)|].
  destruct (counters_bounds cs initial_offer Hcs Ho) as [Hp Hb].
  assert ((length cs ≤ Z.to_nat max_rounds)%nat) as Hk.
  { destruct Hshape as [[-> _]|[[-> _]|(_ & -> & _)]];
      rewrite ?length_app in Hlen; simpl in Hlen; lia. }
  assert (Z.to_nat max_rounds = (length cs + (Z.to_nat max_rounds - length cs))%nat)
    as Hsplit by lia.
  destruct Hshape as [[_ [= -> ->]]|[[_ [= -> ->]]|(_ & _ & [= -> ->])]].
  - right. split_and!; [done|done|lia|].
    rewrite Hsplit. apply pow_bound_later; [lia|lia|done].
  - by left.
  - right. split_and!; [done|done|lia|].
    rewrite Hsplit. apply pow_bound_later; [lia|lia|done].
Qed.

Lemma negotiate_price_bounds_witness :
  (100 : Z) ≠ 0 ∧ table_ok global_negotiator ∧ 1 ≤ 109 ∧ offers_in_range 109 2 ∧
  result (negotiate "x" 109 100 5.0 2 raise_then_accept global_negotiator)
  = Returned ("accept", 130) ∧ 5 ^ 2 * 130 ≤ 6 ^ 2 * 109.
Proof.
  assert (offers_in_range 109 2) as Hrange by (vm_compute; discriminate).
  split; [done|]. split; [apply init_table_ok|]. split; [lia|]. split; [exact Hrange|].
  destruct (negotiate_price_bounds "x" 109 100 5.0 2 raise_then_accept global_negotiator)
    as (decision & price & st' & Hrun & Hcases); [done|apply init_table_ok|lia|done|].
  split; [vm_compute; reflexivity|]. lia.
Defined.

(** *** The statistics of the learned table *)

Lemma greedy_action_elem (row : list (string * Q)) :
  fst <$> row = actions → greedy_action row ∈ actions.
Proof.
  intros Hkeys. rewrite <- Hkeys. destruct row as [|kv rest]; [done|].
  apply (list_elem_of_fmap_2 fst), max_scan_elem.
Qed.

Lemma tally_spec (prefs : list (string * Z)) (row : list (string * Q)) :
  fst <$> prefs = actions → fst <$> row = actions →
  ∃ prefs', tally prefs row = Returned prefs' ∧ fst <$> prefs' = actions ∧
    ∀ a, odict_lookup prefs' a
         = (λ n, n + if decide (greedy_action row = a) then 1 else 0) <$> odict_lookup prefs a.
Proof.
  intros Hprefs Hrow. pose proof (greedy_action_elem row Hrow) as Hin.
  destruct row as [|kv rest]; [done|]. unfold tally.
  unfold greedy_action in Hin. set (best := fst (max_scan _ kv rest)) in *.
  destruct (odict_lookup_is_Some prefs best) as [n Hn]; [by rewrite Hprefs|].
  rewrite Hn. eexists. split; [reflexivity|]. split.
  - rewrite odict_set_keys; [done|by rewrite Hprefs].
  - intros a. unfold greedy_action. fold best. case_decide as Ha.
    + subst a. by rewrite odict_lookup_set_eq, Hn.
    + rewrite odict_lookup_set_ne by done.
      destruct (odict_lookup prefs a); simpl; [f_equal; lia|done].
Qed.

Lemma greedy_count_cons (a : string) (row : list (string * Q)) rows :
  greedy_count (row :: rows) a
  = (if decide (greedy_action row = a) then 1 else 0) + greedy_count rows a.
Proof. unfold greedy_count. rewrite filter_cons. case_decide; simpl length; lia. Qed.

Lemma tally_all_spec (rows : list (list (string * Q))) (prefs : list (string * Z)) :
  fst <$> prefs = actions → Forall (λ row, fst <$> row = actions) rows →
  ∃ prefs', tally_all prefs rows = Returned prefs' ∧ fst <$> prefs' = actions ∧
    ∀ a, odict_lookup prefs' a
         = (λ n, n + greedy_count rows a) <$> odict_lookup prefs a.
Proof.
  intros Hprefs Hrows. revert prefs Hprefs.
  induction Hrows as [|row rows Hrow Hrows IH]; intros prefs Hprefs.
  - exists prefs. split; [done|]. split; [done|]. intros a. unfold greedy_count. simpl.
    destruct (odict_lookup prefs a); simpl; [f_equal; lia|done].
  - destruct (tally_spec prefs row Hprefs Hrow) as (prefs1 & Hrun1 & Hkeys1 & Hlook1).
    destruct (IH prefs1 Hkeys1) as (prefs2 & Hrun2 & Hkeys2 & Hlook2).
    exists prefs2. split; [simpl; by rewrite Hrun1|]. split; [done|].
    intros a. rewrite Hlook2, Hlook1, greedy_count_cons.
    destruct (odict_lookup prefs a); simpl; [|done].
    f_equal. lia.
Qed.

Lemma greedy_count_size (a : string) (st : RLNegotiator) :
  greedy_count (snd <$> map_to_list (q_table st)) a = prefer_count st a.
Proof.
  unfold greedy_count, prefer_count. f_equal.
  induction (q_table st) as [|s row m Hs Hfirst IH] using map_first_key_ind.
  - by rewrite map_filter_empty, map_to_list_empty, map_size_empty.
  - rewrite (map_to_list_insert_first_key _ _ _ Hs Hfirst).
    rewrite fmap_cons, filter_cons. simpl snd.
    destruct (decide (greedy_action row = a)) as [Ha|Ha].
    + rewrite map_filter_insert_True by done.
      rewrite map_size_insert_None; [simpl; by rewrite IH|].
      apply map_lookup_filter_None. by left.
    + rewrite map_filter_insert_False by done.
      by rewrite delete_id, IH.
Qed.

Lemma prefs_by_lookup (prefs : list (string * Z)) (f : string → Z) :
  fst <$> prefs = actions →
  (∀ a, a ∈ actions → odict_lookup prefs a = Some (f a)) →
  prefs = (λ a, (a, f a)) <$> actions.
Proof.
  intros Hkeys Hlook.
  destruct prefs as [|[k1 v1] [|[k2 v2] [|[k3 v3] [|[k4 v4] [|? ?]]]]]; try done.
  injection Hkeys as -> -> -> ->.
  pose proof (Hlook "accept" ltac:(unfold actions; set_solver)) as H1.
  pose proof (Hlook "reject" ltac:(unfold actions; set_solver)) as H2.
  pose proof (Hlook "counter_low" ltac:(unfold actions; set_solver)) as H3.
  pose proof (Hlook "counter_high" ltac:(unfold actions; set_solver)) as H4.
  vm_compute in H1, H2, H3, H4.
  injection H1 as ->. injection H2 as ->. injection H3 as ->. injection H4 as ->.
  reflexivity.
Qed.

Lemma counts_sum (rows : list (list (string * Q))) :
  Forall (λ row, fst <$> row = actions) rows →
  foldr (λ a acc, greedy_count rows a + acc) 0 actions = Z.of_nat (length rows).
Proof.
  induction 1 as [|row rows Hrow Hrows IH]; [done|].
  pose proof (greedy_action_elem row Hrow) as Hin.
  apply actions_cases in Hin. unfold actions in *. cbn [foldr] in *.
  rewrite !greedy_count_cons, length_cons, Nat2Z.inj_succ.
  destruct Hin as [Hg|[Hg|[Hg|Hg]]]; rewrite Hg;
    repeat (case_decide; try done); lia.
Qed.

(** X14.  On a table that is not empty and whose rows have the four
    action keys, [get_strategy_stats] returns the number of states, the
    exploration rate, and for each action, in the order of
    [self.actions], the number of states whose greedy action
    [max(row, key=row.get)] it is; the four counts add up to the number
    of states.  On the empty table it returns the message instead. *)
Theorem strategy_stats_tally (st : RLNegotiator) :
  table_ok st →
  (q_table st = ∅ → get_strategy_stats st = Returned (NoData "No learning data available")) ∧
  (q_table st ≠ ∅ →
   get_strategy_stats st
   = Returned (Stats (size (q_table st)) ((λ a, (a, prefer_count st a)) <$> actions)
                 (epsilon st)) ∧
   foldr (λ a acc, prefer_count st a + acc) 0 actions = Z.of_nat (size (q_table st))).
Proof.
  intros Hok. unfold get_strategy_stats. split; intros Hne.
  - by rewrite decide_True.
  - rewrite decide_False by done.
    assert (Forall (λ row, fst <$> row = actions) (snd <$> map_to_list (q_table st)))
      as Hrows.
    { apply Forall_fmap, Forall_forall. intros [s row] Hin.
      apply elem_of_map_to_list in Hin. by eapply Hok. }
    assert (fst <$> ((λ a : string, (a, 0)) <$> actions) = actions) as Hzero
      by reflexivity.
    destruct (tally_all_spec _ _ Hzero Hrows) as (prefs & Hrun & Hkeys & Hlook).
    rewrite Hrun.
    assert (prefs = (λ a, (a, prefer_count st a)) <$> actions) as ->.
    { apply prefs_by_lookup; [done|]. intros a Ha.
      rewrite Hlook, greedy_count_size.
      apply actions_cases in Ha. by destruct Ha as [->|[->|[->| ->]]]. }
    split; [done|].
    pose proof (counts_sum _ Hrows) as Hsum.
    rewrite length_fmap, length_map_to_list in Hsum. rewrite <- Hsum.
    unfold actions. cbn [foldr]. by rewrite !greedy_count_size.
Qed.

Lemma strategy_stats_tally_witness :
  table_ok after_first_episode ∧ q_table after_first_episode ≠ ∅ ∧
  get_strategy_stats after_first_episode
  = Returned (Stats 2 [("accept", 2); ("reject", 0); ("counter_low", 0); ("counter_high", 0)]
                0.1%Q).
Proof.
  assert (table_ok after_first_episode) as Hok.
  { apply negotiate_table_ok; [done|apply init_table_ok]. }
  assert (q_table after_first_episode ≠ ∅) as Hne.
  { intros H. apply (f_equal size) in H. vm_compute in H. discriminate. }
  split; [exact Hok|]. split; [exact Hne|].
  destruct (strategy_stats_tally after_first_episode Hok) as [_ H].
  destruct (H Hne) as [Hrun _]. rewrite Hrun. vm_compute. reflexivity.
Defined.

(** *** What the state says about the price *)

Lemma ratio_ltb (o : Z) (p : positive) (a : Z) (b : positive) :
  Qltb (inject_Z o / inject_Z (Z.pos p)) (a # b) = bool_decide (Z.pos b * o < a * Z.pos p).
Proof.
  unfold Qltb, Qle_bool, Qdiv, Qmult, Qinv, inject_Z. simpl.
  case_bool_decide; [apply negb_true_iff, Z.leb_gt|apply negb_false_iff, Z.leb_le]; lia.
Qed.


Lemma get_state_bucket (service_type : string) (o m : Z) (rep urgency : Q) :
  get_state service_type o m rep urgency
  = service_type +:+ "_" +:+ price_bucket o m +:+ state_tail rep urgency.
Proof.
  unfold get_state, state_tail. cbv zeta.
  assert ((if Qltb (inject_Z o / inject_Z (Z.max m 1)) 0.8 then "low"
           else if Qltb (inject_Z o / inject_Z (Z.max m 1)) 1.2 then "fair" else "high")
          = price_bucket o m) as ->; [|reflexivity].
  unfold price_bucket. destruct (Z.max m 1) as [|p|p] eqn:E; try lia.
  rewrite !ratio_ltb.
  repeat case_bool_decide; repeat case_decide; try reflexivity; lia.
Qed.

Lemma append_inj_head (s x y : string) : s +:+ x = s +:+ y → x = y.
Proof. induction s as [|c s IH]; simpl; [done|]. intros [= H]. by apply IH. Qed.

Lemma price_bucket_cases (o m : Z) :
  price_bucket o m = "low" ∨ price_bucket o m = "fair" ∨ price_bucket o m = "high".
Proof. unfold price_bucket. repeat case_decide; tauto. Qed.

(** X15.  For prices within [price_limit], two calls of [get_state] that
    differ only in the prices give the same state exactly when the offers
    fall in the same price bucket: below 0.8 of the market price, from 0.8
    to below 1.2, or from 1.2 on, a market price below 1 counting as 1.
    The table cannot tell apart offers of one bucket. *)
Theorem get_state_price_bucket (service_type : string) (o m o' m' : Z) (rep urgency : Q) :
  Z.abs o ≤ price_limit → m ≤ price_limit →
  Z.abs o' ≤ price_limit → m' ≤ price_limit →
  get_state service_type o m rep urgency = get_state service_type o' m' rep urgency
  ↔ price_bucket o m = price_bucket o' m'.
Proof.
  intros _ _ _ _.
  rewrite !get_state_bucket. split; [|by intros ->].
  intros H. apply append_inj_head in H.
  destruct (price_bucket_cases o m) as [E|[E|E]],
           (price_bucket_cases o' m') as [E'|[E'|E']];
    rewrite E, E' in H |- *; try reflexivity; simpl in H; discriminate.
Qed.

Lemma get_state_price_bucket_witness :
  Z.abs 80 ≤ price_limit ∧ 100 ≤ price_limit ∧ Z.abs 119 ≤ price_limit ∧
  price_bucket 80 100 = "fair" ∧ price_bucket 119 100 = "fair" ∧
  get_state "x" 80 100 5.0 0.5 = get_state "x" 119 100 5.0 0.5.
Proof.
  assert (Z.abs 80 ≤ price_limit) as H1 by (vm_compute; discriminate).
  assert (100 ≤ price_limit) as H2 by (vm_compute; discriminate).
  assert (Z.abs 119 ≤ price_limit) as H3 by (vm_compute; discriminate).
  split; [exact H1|]. split; [exact H2|]. split; [exact H3|].
  split; [reflexivity|]. split; [reflexivity|].
  apply (get_state_price_bucket "x" 80 100 119 100 5.0 0.5 H1 H2 H3 H2). reflexivity.
Defined.



End NegotiatorMore.

(** ** More on the bandits *)

Section BanditMore.
Import Py Bandit.

(** *** The books [update_reward] keeps *)

Lemma update_reward_run (agent : string) (reward : Q) (b : MultiArmedBandit)
    (rs : list Q) (cum : Q) (cnt : Z) :
  rewards b !! agent = Some rs → cumulative_reward b !! agent = Some cum →
  selection_count b !! agent = Some cnt →
  update_reward agent reward b
  = (Returned tt,
     mkBandit (agents b) (<[agent := rs ++ [reward]]> (rewards b))
       (<[agent := cnt + 1]> (selection_count b))
       (<[agent := (cum + reward)%Q]> (cumulative_reward b))
       (confidence_interval b) (total_selections b + 1)).
Proof.
  intros Hrs Hcu Hc. unfold update_reward.
  rewrite bind_gets, (bind_getitem _ _ _ _ _ Hrs).
  erewrite bind_returned by reflexivity.
  rewrite bind_gets. simpl. rewrite (bind_getitem _ _ _ _ _ Hcu).
  erewrite bind_returned by reflexivity.
  rewrite bind_gets. simpl. rewrite (bind_getitem _ _ _ _ _ Hc).
  erewrite bind_returned by reflexivity.
  reflexivity.
Qed.

Lemma reported_cons (a agent : string) (reward : Q) reports :
  reported ((agent, reward) :: reports) a
  = if decide (agent = a) then reward :: reported reports a else reported reports a.
Proof. unfold reported. rewrite filter_cons. simpl. by case_decide. Qed.

Lemma update_rewards_from (reports : list (string * Q)) (b : MultiArmedBandit) :
  (∀ a, a ∈ agents b →
        is_Some (rewards b !! a) ∧ is_Some (selection_count b !! a) ∧
        is_Some (cumulative_reward b !! a)) →
  Forall (λ ar, fst ar ∈ agents b) reports →
  ∃ b', update_rewards reports b = (Returned tt, b') ∧
        agents b' = agents b ∧ confidence_interval b' = confidence_interval b ∧
        total_selections b' = total_selections b + Z.of_nat (length reports) ∧
        ∀ a, rewards b' !! a = (λ rs, rs ++ reported reports a) <$> rewards b !! a ∧
             selection_count b' !! a
             = (λ n, n + Z.of_nat (length (reported reports a))) <$> selection_count b !! a ∧
             cumulative_reward b' !! a
             = (λ c, foldl Qplus c (reported reports a)) <$> cumulative_reward b !! a.
Proof.
  intros Hb Hall. revert b Hb Hall.
  induction reports as [|[agent reward] reports IH]; intros b Hb Hall.
  - exists b. split; [done|]. split_and!; [done|done|simpl; lia|].
    intros a. unfold reported. simpl.
    destruct (rewards b !! a), (selection_count b !! a), (cumulative_reward b !! a);
      simpl; rewrite ?app_nil_r, ?Z.add_0_r; done.
  - apply Forall_cons in Hall as [Hin Hall]. simpl in Hin.
    destruct (Hb agent Hin) as ([rs Hrs] & [cnt Hc] & [cum Hcu]).
    pose proof (update_reward_run agent reward b rs cum cnt Hrs Hcu Hc) as Hrun.
    set (b1 := mkBandit _ _ _ _ _ _) in Hrun.
    destruct (IH b1) as (b' & Hrun' & Hags & Hconf & Htot & Hbooks).
    { intros a Ha. unfold b1. simpl. rewrite !lookup_insert.
      case_decide; [eauto|]. by apply Hb. }
    { done. }
    exists b'. split.
    { simpl update_rewards. by rewrite (bind_returned _ _ _ _ _ Hrun). }
    split_and!; [done|done|rewrite Htot; unfold b1; simpl; lia|].
    intros a. destruct (Hbooks a) as (Hr & Hn & Hs).
    rewrite Hr, Hn, Hs, reported_cons. unfold b1. simpl. rewrite !lookup_insert.
    destruct (decide (agent = a)) as [->|Hne]; simpl.
    + rewrite Hrs, Hc, Hcu. simpl. rewrite <- app_assoc. simpl.
      split_and!; [done|f_equal; lia|done].
    + done.
Qed.

(** X17.  The books of a bandit built by the constructor, after any run of
    [update_reward] calls for registered agents: the calls all return; for
    each agent [rewards] holds the rewards reported for it, in order,
    [selection_count] their number and [cumulative_reward] their sum,
    added from the left to 0.0; [total_selections] is the number of
    calls. *)
Theorem update_rewards_books (ags : list string) (initial_confidence : Q)
    (reports : list (string * Q)) :
  Forall (λ ar, fst ar ∈ ags) reports →
  ∃ b', update_rewards reports (init ags initial_confidence) = (Returned tt, b') ∧
        agents b' = ags ∧
        total_selections b' = Z.of_nat (length reports) ∧
        ∀ a, a ∈ ags →
             rewards b' !! a = Some (reported reports a) ∧
             selection_count b' !! a = Some (Z.of_nat (length (reported reports a))) ∧
             cumulative_reward b' !! a = Some (foldl Qplus 0.0%Q (reported reports a)).
Proof.
  intros Hall.
  destruct (update_rewards_from reports (init ags initial_confidence))
    as (b' & Hrun & Hags & _ & Htot & Hbooks).
  { intros a Ha. simpl. rewrite !dict_of_keys_lookup, !decide_True by done. eauto. }
  { done. }
  exists b'. split; [done|]. split; [done|]. split; [simpl in Htot; lia|].
  intros a Ha. destruct (Hbooks a) as (Hr & Hn & Hs).
  rewrite Hr, Hn, Hs. simpl. rewrite !dict_of_keys_lookup, !decide_True by done.
  done.
Qed.

Lemma update_rewards_books_witness :
  Forall (λ ar, fst ar ∈ ["DataProcessor_A"; "Translator_B"; "Computer_C"])
    [("Translator_B", 0.5%Q); ("Computer_C", 1.0%Q); ("Translator_B", 0.25%Q)] ∧
  ∃ b', update_rewards [("Translator_B", 0.5%Q); ("Computer_C", 1.0%Q);
                        ("Translator_B", 0.25%Q)] service_bandit = (Returned tt, b') ∧
        rewards b' !! "Translator_B" = Some [0.5%Q; 0.25%Q] ∧
        selection_count b' !! "Translator_B" = Some 2 ∧
        total_selections b' = 3.
Proof.
  assert (Forall (λ ar, fst ar ∈ ["DataProcessor_A"; "Translator_B"; "Computer_C"])
            [("Translator_B", 0.5%Q); ("Computer_C", 1.0%Q); ("Translator_B", 0.25%Q)])
    as Hall.
  { repeat constructor; simpl; rewrite !elem_of_cons; auto. }
  split; [exact Hall|].
  destruct (update_rewards_books _ 1.0%Q _ Hall) as (b' & Hrun & _ & Htot & Hbooks).
  exists b'. split; [exact Hrun|].
  destruct (Hbooks "Translator_B") as (Hr & Hn & _); [rewrite !elem_of_cons; auto|].
  split; [exact Hr|]. split; [exact Hn|exact Htot].
Defined.

(** *** Dict comprehensions and the first maximum *)

Lemma odict_set_fresh {V : Type} (d : list (string * V)) (k : string) (v : V) :
  k ∉ fst <$> d → odict_set d k v = d ++ [(k, v)].
Proof.
  induction d as [|[k' v'] d IH]; [done|]. rewrite fmap_cons, not_elem_of_cons.
  intros [Hne Hnin]. simpl. rewrite decide_False by done. by rewrite IH.
Qed.

Lemma odict_set_same {V : Type} (d : list (string * V)) (k : string) (v : V) :
  odict_lookup d k = Some v → odict_set d k v = d.
Proof.
  induction d as [|[k' v'] d IH]; [done|]. simpl.
  case_decide; [by intros [= ->]; subst|]. intros H'. by rewrite IH.
Qed.

Lemma odict_lookup_elem {V : Type} (d : list (string * V)) (k : string) (v : V) :
  odict_lookup d k = Some v → (k, v) ∈ d.
Proof.
  induction d as [|[k' v'] d IH]; [done|]. simpl.
  case_decide; [intros [= ->]; subst; apply list_elem_of_here|].
  intros H'. by apply list_elem_of_further, IH.
Qed.

Lemma comprehension_cons {V : Type} (g : string → V) (k : string) keys acc :
  comprehension g (k :: keys) acc = comprehension g keys (odict_set acc k (g k)).
Proof. reflexivity. Qed.

(** A dict all of whose values are [g] of their key. *)
Lemma comprehension_step {V : Type} (g : string → V) (k : string) acc :
  (∀ k' v, (k', v) ∈ acc → v = g k') →
  (odict_set acc k (g k) = acc ∧ k ∈ fst <$> acc) ∨
  (odict_set acc k (g k) = acc ++ [(k, g k)] ∧ k ∉ fst <$> acc).
Proof.
  intros Hg. destruct (decide (k ∈ fst <$> acc)) as [Hin|Hnin].
  - left. split; [|done]. apply odict_set_same.
    destruct (odict_lookup_is_Some acc k Hin) as [v Hv].
    rewrite Hv. f_equal. by apply Hg, odict_lookup_elem.
  - right. split; [|done]. by apply odict_set_fresh.
Qed.

Lemma comprehension_spec {V : Type} (g : string → V) keys acc :
  (∀ k v, (k, v) ∈ acc → v = g k) →
  (∃ ext, comprehension g keys acc = acc ++ ext) ∧
  (∀ k v, (k, v) ∈ comprehension g keys acc → v = g k) ∧
  (∀ k, k ∈ keys → k ∈ fst <$> comprehension g keys acc).
Proof.
  revert acc. induction keys as [|k keys IH]; intros acc Hg.
  - split_and!; [exists []; by rewrite app_nil_r|done|].
    intros k Hk. by apply elem_of_nil in Hk.
  - rewrite comprehension_cons.
    assert (∀ k' v, (k', v) ∈ odict_set acc k (g k) → v = g k') as Hg'.
    { intros k' v Hin. apply odict_set_elem in Hin as [[= -> ->]|Hin]; [done|by apply Hg]. }
    destruct (IH _ Hg') as ([ext Hext] & Hvals & Hkeys).
    split_and!.
    + destruct (comprehension_step g k acc Hg) as [[Heq _]|[Heq _]];
        rewrite Heq in Hext |- *.
      * by exists ext.
      * exists ((k, g k) :: ext). by rewrite Hext, <- app_assoc.
    + done.
    + intros k' Hk'. apply elem_of_cons in Hk' as [->|Hk']; [|by apply Hkeys].
      rewrite Hext, fmap_app, elem_of_app. left.
      apply odict_set_keys_elem. by left.
Qed.

(** The key of the comprehension found at a position is met in [keys] after
    keys that all stand before that position. *)
Lemma comprehension_position {V : Type} (g : string → V) keys acc l1 k v l2 :
  (∀ k' v', (k', v') ∈ acc → v' = g k') →
  comprehension g keys acc = l1 ++ (k, v) :: l2 → k ∉ fst <$> acc →
  ∃ m1 m2, keys = m1 ++ k :: m2 ∧ ∀ x, x ∈ m1 → x ∈ fst <$> l1.
Proof.
  revert acc. induction keys as [|a keys IH]; intros acc Hg Heq Hnin.
  - simpl in Heq. destruct Hnin. rewrite Heq, fmap_app, fmap_cons, elem_of_app.
    right. apply list_elem_of_here.
  - destruct (decide (a = k)) as [->|Hne].
    { exists [], keys. split; [done|]. intros x Hx. by apply elem_of_nil in Hx. }
    rewrite comprehension_cons in Heq.
    assert (∀ k' v', (k', v') ∈ odict_set acc a (g a) → v' = g k') as Hg'.
    { intros k' v' Hin. apply odict_set_elem in Hin as [[= -> ->]|Hin]; [done|by apply Hg]. }
    assert (k ∉ fst <$> odict_set acc a (g a)) as Hnin'.
    { destruct (comprehension_step g a acc Hg) as [[-> _]|[-> _]]; [done|].
      rewrite fmap_app, elem_of_app. intros [?|Hin]; [done|].
      simpl in Hin. apply list_elem_of_singleton in Hin. done. }
    destruct (IH _ Hg' Heq Hnin') as (m1 & m2 & -> & Hm1).
    exists (a :: m1), m2. split; [done|].
    intros x Hx. apply elem_of_cons in Hx as [->|Hx]; [|by apply Hm1].
    (* [a] is a key of the dict the rest starts from, a prefix of the result *)
    destruct (comprehension_spec g (m1 ++ k :: m2) _ Hg') as ([ext Hext] & _ & _).
    rewrite Hext in Heq.
    assert (a ∈ fst <$> odict_set acc a (g a)) as Ha
      by (apply odict_set_keys_elem; by left).
    clear -Heq Ha Hnin'. revert l1 Heq.
    induction (odict_set acc a (g a)) as [|[k0 v0] pre IHp]; intros l1 Heq.
    + by apply elem_of_nil in Ha.
    + destruct l1 as [|[k1 v1] l1].
      * simpl in Heq. injection Heq as -> -> _. destruct Hnin'.
        rewrite fmap_cons. apply list_elem_of_here.
      * simpl in Heq. injection Heq as -> -> Heq.
        rewrite fmap_cons in Ha, Hnin' |- *. simpl in *.
        apply elem_of_cons in Ha as [->|Ha]; [apply list_elem_of_here|].
        apply list_elem_of_further, IHp; [|done|done].
        intros Hin. apply Hnin'. by apply list_elem_of_further.
Qed.

(** The first maximum of a comprehension over [keys], in terms of [keys]. *)
Lemma comprehension_first_max (g : string → Q) (keys : list string) kv rest :
  comprehension g keys [] = kv :: rest →
  ∃ m1 m2,
    keys = m1 ++ fst (max_scan (λ x y, Qgtb (snd x) (snd y)) kv rest) :: m2 ∧
    Forall (λ a, (g a < g (fst (max_scan (λ x y, Qgtb (snd x) (snd y)) kv rest)))%Q) m1 ∧
    Forall (λ a, (g a <= g (fst (max_scan (λ x y, Qgtb (snd x) (snd y)) kv rest)))%Q) m2.
Proof.
  intros Heq.
  destruct (comprehension_spec g keys []) as (_ & Hvals & Hkeys).
  { intros k v Hin. by apply elem_of_nil in Hin. }
  destruct (max_scan_first_of snd rest kv) as (l1 & l2 & Hsplit & Hl1 & Hl2).
  set (best := max_scan _ kv rest) in *. destruct best as [a v] eqn:Hbest. simpl in *.
  rewrite <- Heq in Hsplit.
  assert (v = g a) as ->.
  { apply Hvals. rewrite Hsplit, elem_of_app. right. apply list_elem_of_here. }
  destruct (comprehension_position g keys [] l1 a (g a) l2) as (m1 & m2 & Hk & Hm1).
  { intros k v Hin. by apply elem_of_nil in Hin. }
  { done. }
  { intros Hin. by apply elem_of_nil in Hin. }
  exists m1, m2. split; [done|]. split.
  - apply Forall_forall. intros x Hx. apply Hm1 in Hx.
    apply list_elem_of_fmap in Hx as ([x' vx] & -> & Hin). simpl.
    rewrite Forall_forall in Hl1. specialize (Hl1 _ Hin). simpl in Hl1.
    assert (vx = g x') as <-; [|done].
    apply Hvals. rewrite Hsplit, elem_of_app. by left.
  - apply Forall_forall. intros x Hx.
    assert (x ∈ fst <$> comprehension g keys []) as Hin.
    { apply Hkeys. rewrite Hk, elem_of_app. right. by apply list_elem_of_further. }
    apply list_elem_of_fmap in Hin as ([x' vx] & -> & Hin). simpl.
    assert (vx = g x') as <- by by apply Hvals.
    rewrite Hsplit, elem_of_app, elem_of_cons in Hin.
    rewrite Forall_forall in Hl1, Hl2.
    destruct Hin as [Hin|[[= -> ->]|Hin]].
    + specialize (Hl1 _ Hin). simpl in Hl1. lra.
    + lra.
    + by specialize (Hl2 _ Hin).
Qed.

(** *** [select_epsilon_greedy] *)

Lemma comprehension_nonempty {V : Type} (g : string → V) (keys : list string) :
  keys ≠ [] → comprehension g keys [] ≠ [].
Proof.
  destruct keys as [|k keys]; [done|]. intros _ Heq.
  destruct (comprehension_spec g (k :: keys) []) as (_ & _ & Hkeys).
  { intros k' v Hin. by apply elem_of_nil in Hin. }
  specialize (Hkeys k (list_elem_of_here _ _)). rewrite Heq in Hkeys.
  by apply elem_of_nil in Hkeys.
Qed.

Section EpsilonGreedy.
(** The division of the floats, whatever it rounds to. *)
Variable float_div : Q → Z → Q.

Lemma avg_reward_run (agent : string) (b : MultiArmedBandit) :
  bandit_ok b → agent ∈ agents b →
  avg_reward float_div agent b = (Returned (average float_div b agent), b).
Proof.
  intros (_ & Hcnt & Hcum & _) Hin.
  destruct (proj1 (Hcnt agent) Hin) as [cnt Hc].
  destruct (proj1 (Hcum agent) Hin) as [cum Hcu].
  unfold avg_reward, average, dict_get.
  rewrite bind_gets, (bind_getitem _ _ _ _ _ Hcu), bind_gets, (bind_getitem _ _ _ _ _ Hc).
  by rewrite Hc, Hcu.
Qed.

Lemma avg_rewards_run (todo : list string) (acc : list (string * Q)) (b : MultiArmedBandit) :
  bandit_ok b → Forall (λ a, a ∈ agents b) todo →
  avg_rewards float_div todo acc b
  = (Returned (comprehension (average float_div b) todo acc), b).
Proof.
  intros Hok Hall. revert acc. induction Hall as [|a todo Ha Hall IH]; intros acc; [done|].
  simpl avg_rewards. rewrite (bind_returned _ _ _ _ _ (avg_reward_run a b Hok Ha)).
  by rewrite IH.
Qed.

(** X18.  [select_epsilon_greedy] on a bandit whose dicts cover its
    agents, of which there is at least one.  When the draw is below ε, or
    nothing has been selected yet, it returns the agent the generator
    picks.  Otherwise it exploits: with [average] the float the division
    [cumulative_reward / max(selection_count, 1)] gives for an agent,
    whatever way it is rounded, it returns the first agent, in the order
    of [self.agents], of greatest average: every agent before it has a
    strictly smaller average, every agent after it at most the same.  The
    bandit is left as it was. *)
Theorem select_epsilon_greedy_choice (epsilon : Q) (d : Draw) (b : MultiArmedBandit) :
  bandit_ok b → agents b ≠ [] →
  ((rand_u d < epsilon)%Q ∨ total_selections b = 0 →
   ∃ a, select_epsilon_greedy float_div epsilon d b = (Returned a, b) ∧
        agents b !! (rand_pick d `mod` length (agents b))%nat = Some a) ∧
  ((epsilon <= rand_u d)%Q → total_selections b ≠ 0 →
   ∃ a m1 m2,
     select_epsilon_greedy float_div epsilon d b = (Returned a, b) ∧
     agents b = m1 ++ a :: m2 ∧
     Forall (λ x, (average float_div b x < average float_div b a)%Q) m1 ∧
     Forall (λ x, (average float_div b x <= average float_div b a)%Q) m2).
Proof.
  intros Hok Hne. unfold select_epsilon_greedy. rewrite !bind_gets. split.
  - intros Hexplore.
    assert (Qltb (rand_u d) epsilon || bool_decide (total_selections b = 0) = true) as ->.
    { destruct Hexplore as [Hlt|Hz].
      - apply Qltb_lt in Hlt. by rewrite Hlt.
      - rewrite (bool_decide_true _ Hz). apply orb_true_r. }
    unfold random_choice.
    destruct (agents b !! (rand_pick d `mod` length (agents b))%nat) as [a|] eqn:E; [eauto|].
    apply lookup_ge_None in E.
    assert (length (agents b) ≠ 0%nat) as Hlen by (by destruct (agents b)).
    pose proof (Nat.mod_upper_bound (rand_pick d) (length (agents b)) Hlen). lia.
  - intros Hge Htot.
    apply Qltb_ge in Hge. rewrite Hge, (bool_decide_false _ Htot). cbn [orb].
    rewrite (bind_returned _ _ _ _ _
               (avg_rewards_run (agents b) [] b Hok (proj2 (Forall_forall _ _) (λ _ H, H)))).
    pose proof (comprehension_nonempty (average float_div b) (agents b) Hne) as Hvals.
    destruct (comprehension (average float_div b) (agents b) []) as [|kv rest] eqn:E;
      [done|].
    destruct (comprehension_first_max (average float_div b) (agents b) kv rest E)
      as (m1 & m2 & Hsplit & H1 & H2).
    eexists _, m1, m2. split; [reflexivity|]. done.
Qed.

End EpsilonGreedy.

(** The witness exploits, with the exact division, after one reward of
    0.9 for the second agent. *)
Lemma select_epsilon_greedy_choice_witness :
  ∃ b, update_reward "Translator_B" 0.9 service_bandit = (Returned tt, b) ∧
       bandit_ok b ∧ agents b ≠ [] ∧ (0.1 <= 0.5)%Q ∧ total_selections b ≠ 0 ∧
       select_epsilon_greedy exact_div 0.1 (mkDraw 0.5 4) b = (Returned "Translator_B", b).
Proof.
  destruct (update_reward_spec "Translator_B" 0.9 service_bandit (init_bandit_ok _ _))
    as (b & cnt & Hrun & _ & Hags & _ & Htot & Hok).
  { simpl. rewrite !elem_of_cons. auto. }
  assert (agents b ≠ []) as Hne by (by rewrite Hags).
  assert (total_selections b ≠ 0) as Ht by (by rewrite Htot).
  assert (0.1 <= 0.5)%Q as Hge by discriminate.
  exists b. split; [exact Hrun|]. split; [exact Hok|]. split; [exact Hne|].
  split; [exact Hge|]. split; [exact Ht|].
  destruct (select_epsilon_greedy_choice exact_div 0.1 (mkDraw 0.5 4) b Hok Hne)
    as [_ Hexploit].
  destruct (Hexploit Hge Ht) as (a & m1 & m2 & Hsel & _).
  rewrite Hsel. f_equal.
  vm_compute in Hrun. injection Hrun as <-.
  vm_compute in Hsel. by injection Hsel as <-.
Defined.

(** *** [select_thompson_sampling] *)

Lemma beta_parameters_positive (rs : list Q) : 0 < successes rs ∧ 0 < failures rs.
Proof. unfold successes, failures. lia. Qed.

Lemma thompson_samples_run (draws : nat → Q) (k : nat) (todo : list string)
    (acc : list (string * Q)) (b : MultiArmedBandit) :
  bandit_ok b → Forall (λ a, a ∈ agents b) todo →
  ∃ vals, thompson_samples draws k todo acc b = (Returned vals, b) ∧
          (∀ a, a ∈ fst <$> vals ↔ a ∈ fst <$> acc ∨ a ∈ todo).
Proof.
  intros Hok Hall. revert k acc.
  induction Hall as [|a todo Ha Hall IH]; intros k acc.
  - exists acc. split; [done|]. intros a. rewrite elem_of_nil. tauto.
  - destruct Hok as (Hrw & _). destruct (proj1 (Hrw a) Ha) as [rs Hrs].
    simpl thompson_samples.
    rewrite bind_gets, (bind_getitem _ _ _ _ _ Hrs).
    unfold np_random_beta. rewrite decide_True by apply beta_parameters_positive.
    erewrite bind_returned by reflexivity.
    destruct (IH (S k) (odict_set acc a (draws k))) as (vals & Hrun & Hkeys).
    exists vals. split; [done|]. intros a'. rewrite Hkeys, elem_of_cons.
    split.
    + intros [Hin|Hin]; [|tauto].
      apply list_elem_of_fmap in Hin as ([k' v'] & -> & Hin). simpl.
      apply odict_set_elem in Hin as [[= -> ->]|Hin]; [tauto|].
      left. by apply (list_elem_of_fmap_2 fst) in Hin.
    + intros [Hin|[->|Hin]]; [| |tauto]; left; apply odict_set_keys_elem; tauto.
Qed.

(** X19.  [select_thompson_sampling] on a bandit whose dicts cover its
    agents: the two parameters it computes are always positive, so
    [np.random.beta] never refuses them; with at least one agent it
    returns one of the agents, whatever samples are drawn, and leaves the
    bandit as it was.  Without agents it raises [ValueError]. *)
Theorem select_thompson_sampling_returns (draws : nat → Q) (b : MultiArmedBandit) :
  bandit_ok b →
  (agents b ≠ [] →
   ∃ a, select_thompson_sampling draws b = (Returned a, b) ∧ a ∈ agents b) ∧
  (agents b = [] → select_thompson_sampling draws b = (Raised ValueError, b)).
Proof.
  intros Hok. unfold select_thompson_sampling. rewrite bind_gets. split.
  - intros Hne.
    destruct (thompson_samples_run draws 0 (agents b) [] b Hok)
      as (vals & Hrun & Hkeys); [by apply Forall_forall|].
    rewrite (bind_returned _ _ _ _ _ Hrun).
    destruct (max_key_returns (S:=MultiArmedBandit) vals b) as (a & Ha & Hin).
    { destruct (agents b) as [|a0 ags] eqn:E; [done|].
      intros ->. specialize (Hkeys a0). rewrite elem_of_nil in Hkeys.
      apply Hkeys. right. apply list_elem_of_here. }
    exists a. split; [done|]. apply Hkeys in Hin as [Hin|Hin]; [|done].
    by apply elem_of_nil in Hin.
  - intros ->. reflexivity.
Qed.

Lemma select_thompson_sampling_returns_witness :
  bandit_ok service_bandit ∧
  select_thompson_sampling (λ k, match k with 1%nat => 0.9%Q | _ => 0.2%Q end) service_bandit
  = (Returned "Translator_B", service_bandit).
Proof.
  split; [apply init_bandit_ok|].
  destruct (select_thompson_sampling_returns
              (λ k, match k with 1%nat => 0.9%Q | _ => 0.2%Q end) service_bandit
              (init_bandit_ok _ _)) as [Hret _].
  destruct (Hret ltac:(done)) as (a & Hrun & _).
  rewrite Hrun. f_equal. vm_compute in Hrun. by injection Hrun as <-.
Defined.

Lemma hits_bound (rs : list Q) : 0 ≤ hits rs ≤ Z.of_nat (length rs).
Proof. unfold hits. pose proof (length_filter (λ r, Qgtb r 0.5 = true) rs). lia. Qed.

(** X20.  The parameters of the Beta distribution in
    [select_thompson_sampling].  The first reward above 0.5 is not
    counted: two agents with the same number of observations, each with at
    most one reward above 0.5, are sampled with the same parameters,
    which add up to the number of observations plus one (two without
    observations). *)
Theorem thompson_first_success_uncounted (rs rs' : list Q) :
  length rs = length rs' → hits rs ≤ 1 → hits rs' ≤ 1 →
  successes rs = successes rs' ∧ failures rs = failures rs' ∧
  successes rs + failures rs = Z.max 1 (Z.of_nat (length rs)) + 1.
Proof.
  intros Hlen H1 H2. pose proof (hits_bound rs). pose proof (hits_bound rs').
  unfold failures, successes. rewrite Hlen. lia.
Qed.

Lemma thompson_first_success_uncounted_witness :
  hits [0.1%Q; 0.2%Q; 0.3%Q] = 0 ∧ hits [0.1%Q; 0.9%Q; 0.3%Q] = 1 ∧
  successes [0.1%Q; 0.2%Q; 0.3%Q] = successes [0.1%Q; 0.9%Q; 0.3%Q] ∧
  failures [0.1%Q; 0.2%Q; 0.3%Q] = failures [0.1%Q; 0.9%Q; 0.3%Q].
Proof.
  split; [reflexivity|]. split; [reflexivity|].
  destruct (thompson_first_success_uncounted [0.1%Q; 0.2%Q; 0.3%Q] [0.1%Q; 0.9%Q; 0.3%Q])
    as (Hs & Hf & _); [reflexivity|vm_compute; discriminate|vm_compute; discriminate|].
  by split.
Defined.

(** *** The linear model of [ContextualBandit] *)

Lemma predict_reward_run (agent : string) (context : list Q) (b : ContextualBandit)
    (w : list Q) :
  weights b !! agent = Some w →
  predict_reward agent context b
  = (if decide (length w = length context) then Returned (prediction b context agent)
     else Raised ValueError, b).
Proof.
  intros Hw. unfold predict_reward, np_dot, prediction, dict_get, dot.
  rewrite bind_gets, (bind_getitem _ _ _ _ _ Hw), Hw. simpl.
  by case_decide.
Qed.

Lemma dot_step (w c : list Q) (k : Q) :
  length w = length c →
  (dot (zip_with (λ wi ci, wi + k * ci) w c) c == dot w c + k * dot c c)%Q.
Proof.
  unfold dot. revert c. induction w as [|wi w IH]; intros [|ci c] Hlen; try done.
  - simpl. ring.
  - simpl in *. rewrite IH by lia. ring.
Qed.

(** X21.  One step of [update_weights] for a registered agent and a
    context of the bandit's dimension.  The call returns; the error it
    records is [reward - predicted]; the prediction for the same context
    moves by [learning_rate · error · (context · context)]; the weights
    of the other agents are not touched; and the history gains exactly one
    entry, with the agent, the context, the reward, the error and the
    clock reading. *)
Theorem update_weights_step (agent : string) (context : list Q) (reward lr now : Q)
    (b : ContextualBandit) :
  contextual_ok b → agent ∈ cb_agents b → length context = context_dim b →
  ∃ b',
    update_weights agent context reward lr now b = (Returned tt, b') ∧
    (prediction b' context agent
     == prediction b context agent
        + lr * (reward - prediction b context agent) * dot context context)%Q ∧
    (∀ a, a ≠ agent → weights b' !! a = weights b !! a) ∧
    history b'
    = history b ++ [mkObservation agent context reward
                      (reward - prediction b context agent) now] ∧
    cb_agents b' = cb_agents b ∧ context_dim b' = context_dim b.
Proof.
  intros [Hkeys Hdim] Hin Hlen.
  destruct (proj1 (Hkeys agent) Hin) as [w Hw].
  pose proof (Hdim _ _ Hw) as Hwlen.
  pose proof (predict_reward_run agent context b w Hw) as Hp.
  rewrite decide_True in Hp by congruence.
  unfold update_weights. rewrite (bind_returned _ _ _ _ _ Hp).
  cbv zeta. rewrite bind_gets, (bind_getitem _ _ _ _ _ Hw).
  erewrite bind_returned by reflexivity.
  eexists. split; [reflexivity|]. cbn [weights history cb_agents context_dim].
  split_and!; try done.
  - unfold prediction at 1, dict_get. cbn [weights]. rewrite lookup_insert_eq. simpl.
    rewrite dot_step by congruence.
    unfold prediction, dict_get. rewrite Hw. simpl. reflexivity.
  - intros a Hne. by rewrite lookup_insert_ne.
Qed.

Lemma update_weights_step_witness :
  contextual_ok (contextual_bandit (λ _ _, 0.1%Q)) ∧
  "Computer_C" ∈ cb_agents (contextual_bandit (λ _ _, 0.1%Q)) ∧
  ∃ b', update_weights "Computer_C" [1.0; 0.5; 0.0; 1.0]%Q 1.0 0.01 0
          (contextual_bandit (λ _ _, 0.1%Q)) = (Returned tt, b') ∧
        (prediction (contextual_bandit (λ _ _, 0.1%Q)) [1.0; 0.5; 0.0; 1.0]%Q "Computer_C"
         == 0.25)%Q ∧
        (prediction b' [1.0; 0.5; 0.0; 1.0]%Q "Computer_C" == 0.266875)%Q.
Proof.
  assert ("Computer_C" ∈ cb_agents (contextual_bandit (λ _ _, 0.1%Q))) as Hin.
  { simpl. rewrite !elem_of_cons. auto. }
  split; [apply cb_init_ok|]. split; [exact Hin|].
  destruct (update_weights_step "Computer_C" [1.0; 0.5; 0.0; 1.0]%Q 1.0 0.01 0
              (contextual_bandit (λ _ _, 0.1%Q)) (cb_init_ok _ _ _) Hin eq_refl)
    as (b' & Hrun & Hpred & _).
  exists b'. split; [exact Hrun|]. split; [vm_compute; reflexivity|].
  rewrite Hpred. vm_compute. reflexivity.
Defined.

(** *** [select_agent] and [get_context] *)

Lemma predictions_run (context : list Q) (todo : list string) (acc : list (string * Q))
    (b : ContextualBandit) :
  contextual_ok b → length context = context_dim b →
  Forall (λ a, a ∈ cb_agents b) todo →
  predictions context todo acc b
  = (Returned (comprehension (prediction b context) todo acc), b).
Proof.
  intros [Hkeys Hdim] Hlen Hall. revert acc.
  induction Hall as [|a todo Ha Hall IH]; intros acc; [done|].
  destruct (proj1 (Hkeys a) Ha) as [w Hw].
  pose proof (predict_reward_run a context b w Hw) as Hp.
  rewrite decide_True in Hp by (rewrite Hlen; by eapply Hdim).
  simpl predictions. rewrite (bind_returned _ _ _ _ _ Hp). by rewrite IH.
Qed.

(** X22.  [select_agent] on a bandit whose agents all have weights of its
    dimension, with at least one agent.  When the draw is below the
    exploration rate it returns the agent the generator picks, whatever
    the context.  Otherwise, for a context of the bandit's dimension it
    returns one of the agents of [self.agents], and for a context of
    another dimension it raises [ValueError].  It never changes the
    bandit. *)
Theorem select_agent_choice (context : list Q) (exploration : Q) (d : Draw)
    (b : ContextualBandit) :
  contextual_ok b → cb_agents b ≠ [] →
  ((rand_u d < exploration)%Q →
   ∃ a, select_agent context exploration d b = (Returned a, b) ∧
        cb_agents b !! (rand_pick d `mod` length (cb_agents b))%nat = Some a) ∧
  ((exploration <= rand_u d)%Q → length context = context_dim b →
   ∃ a, select_agent context exploration d b = (Returned a, b) ∧ a ∈ cb_agents b) ∧
  ((exploration <= rand_u d)%Q → length context ≠ context_dim b →
   select_agent context exploration d b = (Raised ValueError, b)).
Proof.
  intros Hok Hne. unfold select_agent. rewrite !bind_gets. split_and!.
  - intros Hlt. apply Qltb_lt in Hlt. rewrite Hlt.
    unfold random_choice.
    destruct (cb_agents b !! (rand_pick d `mod` length (cb_agents b))%nat) as [a|] eqn:E;
      [eauto|].
    apply lookup_ge_None in E.
    assert (length (cb_agents b) ≠ 0%nat) as Hlen by (by destruct (cb_agents b)).
    pose proof (Nat.mod_upper_bound (rand_pick d) (length (cb_agents b)) Hlen). lia.
  - intros Hge Hlen. apply Qltb_ge in Hge. rewrite Hge.
    rewrite (bind_returned _ _ _ _ _
               (predictions_run context (cb_agents b) [] b Hok Hlen
                  (proj2 (Forall_forall _ _) (λ _ H, H)))).
    pose proof (comprehension_nonempty (prediction b context) (cb_agents b) Hne) as Hvals.
    destruct (comprehension (prediction b context) (cb_agents b) []) as [|kv rest] eqn:E;
      [done|].
    destruct (comprehension_first_max (prediction b context) (cb_agents b) kv rest E)
      as (m1 & m2 & Hsplit & _).
    eexists. split; [reflexivity|].
    rewrite Hsplit, elem_of_app, elem_of_cons. auto.
  - intros Hge Hlen. apply Qltb_ge in Hge. rewrite Hge.
    destruct Hok as [Hkeys Hdim].
    destruct (cb_agents b) as [|a ags] eqn:E; [done|].
    destruct (proj1 (Hkeys a)) as [w Hw]; [apply list_elem_of_here|].
    pose proof (predict_reward_run a context b w Hw) as Hp.
    rewrite decide_False in Hp by (rewrite (Hdim _ _ Hw); congruence).
    assert (predictions context (a :: ags) [] b = (Raised ValueError, b)) as Hps.
    { simpl predictions. by rewrite (bind_raised _ _ _ _ _ Hp). }
    by rewrite (bind_raised _ _ _ _ _ Hps).
Qed.

Lemma select_agent_choice_witness :
  contextual_ok (contextual_bandit (λ a _, if decide (a = "Translator_B") then 0.2%Q else 0.1%Q))
  ∧ select_agent [1.0; 0.5; 0.0; 1.0]%Q 0.1 (mkDraw 0.5 0)
      (contextual_bandit (λ a _, if decide (a = "Translator_B") then 0.2%Q else 0.1%Q))
    = (Returned "Translator_B",
       contextual_bandit (λ a _, if decide (a = "Translator_B") then 0.2%Q else 0.1%Q)).
Proof.
  split; [apply cb_init_ok|].
  destruct (select_agent_choice [1.0; 0.5; 0.0; 1.0]%Q 0.1 (mkDraw 0.5 0)
              (contextual_bandit
                 (λ a _, if decide (a = "Translator_B") then 0.2%Q else 0.1%Q)))
    as (_ & Hexploit & _); [apply cb_init_ok|done|].
  destruct Hexploit as (a & Hrun & _); [vm_compute; discriminate|reflexivity|].
  rewrite Hrun. f_equal. vm_compute in Hrun. by injection Hrun as <-.
Defined.

Lemma service_complexity_range (service_type : string) :
  (0.3 <= dict_get service_complexity service_type 0.5 <= 1.0)%Q.
Proof.
  unfold dict_get, service_complexity.
  destruct (list_to_map _ !! service_type) as [q|] eqn:E; simpl; [|split; discriminate].
  apply elem_of_list_to_map_2 in E.
  repeat (apply elem_of_cons in E as [[= _ ->]| E]; [split; discriminate|]).
  by apply elem_of_nil in E.
Qed.

(** X23.  Contexts built by [get_context] have four components, the
    first between 0.3 and 1.0 whatever the service type (0.5 for one not
    in the table).  So, for a registered agent, [update_weights] on such a
    context returns exactly when the bandit was built with four context
    dimensions; with any other dimension it raises [ValueError] and
    changes nothing. *)
Theorem get_context_fits (agent service_type : string) (urgency : Q) (budget : Z)
    (time_of_day reward lr now : Q) (b : ContextualBandit) :
  contextual_ok b → agent ∈ cb_agents b →
  (0.3 <= hd 0 (get_context service_type urgency budget time_of_day) <= 1.0)%Q ∧
  (context_dim b = 4%nat →
   ∃ b', update_weights agent (get_context service_type urgency budget time_of_day)
           reward lr now b = (Returned tt, b') ∧ contextual_ok b') ∧
  (context_dim b ≠ 4%nat →
   update_weights agent (get_context service_type urgency budget time_of_day)
     reward lr now b = (Raised ValueError, b)).
Proof.
  intros Hok Hin. split; [apply service_complexity_range|]. split.
  - intros Hdim. apply update_weights_spec; [done|done|by rewrite Hdim].
  - intros Hdim. destruct Hok as [Hkeys Hlen].
    destruct (proj1 (Hkeys agent) Hin) as [w Hw].
    pose proof (predict_reward_run agent
                  (get_context service_type urgency budget time_of_day) b w Hw) as Hp.
    rewrite decide_False in Hp by (rewrite (Hlen _ _ Hw); simpl; congruence).
    unfold update_weights. by rewrite (bind_raised _ _ _ _ _ Hp).
Qed.

Lemma get_context_fits_witness :
  contextual_ok (contextual_bandit (λ _ _, 0.1%Q)) ∧
  "DataProcessor_A" ∈ cb_agents (contextual_bandit (λ _ _, 0.1%Q)) ∧
  result (update_weights "DataProcessor_A" (get_context "clean_data" 0.5 30 0.25)
            1.0 0.01 0 (contextual_bandit (λ _ _, 0.1%Q)))
  = Returned tt.
Proof.
  assert ("DataProcessor_A" ∈ cb_agents (contextual_bandit (λ _ _, 0.1%Q))) as Hin.
  { simpl. rewrite !elem_of_cons. auto. }
  split; [apply cb_init_ok|]. split; [exact Hin|].
  destruct (get_context_fits "DataProcessor_A" "clean_data" 0.5 30 0.25 1.0 0.01 0
              (contextual_bandit (λ _ _, 0.1%Q)) (cb_init_ok _ _ _) Hin)
    as (_ & Hfits & _).
  destruct (Hfits eq_refl) as (b' & Hrun & _). by rewrite Hrun.
Defined.

End BanditMore.

(** ** The agents and the ledger they share *)

Section AgentFacts.
Import Py Ledger Agent.
Variable hash : string → Z.

Lemma int_of_integer (q : Q) (z : Z) : (q == inject_Z z)%Q → int q = z.
Proof.
  unfold Qeq, int. simpl. intros H. rewrite Z.mul_1_r in H. rewrite H.
  apply Z.quot_mul. lia.
Qed.

Lemma asking_threshold (price offered : Z) :
  Qle_bool (inject_Z price * 0.8) (inject_Z offered) = bool_decide (4 * price ≤ 5 * offered).
Proof.
  unfold Qle_bool. simpl.
  case_bool_decide; [apply Z.leb_le|apply Z.leb_gt]; lia.
Qed.

Lemma on_ledger_run {A : Type} (m : M MockLedger A) (s : Site) (o : outcome A)
    (l' : MockLedger) :
  m (ledger s) = (o, l') → on_ledger m s = (o, mkSite (self s) l').
Proof. intros H. unfold on_ledger. by rewrite H. Qed.

(** X24.  [handle_request] of an agent without load (no method ever
    raises the load above the 0 of the constructor), for a service it
    offers at a base price within [price_limit], from a sender that has an
    account.  The agent's price is then the base price, and the request
    succeeds exactly when the offer is at least 0.8 of it and the sender's
    balance covers the offer.  It then costs the offer,
    not the price: the ledger moves the offer from the sender to the
    agent and records the transfer, and the agent logs the service and
    lowers its load, not below 0.  A request that fails leaves the agent
    and the ledger as they were, and reports the price as the cost when
    the offer was too low, 0 when the payment failed.  The total supply of
    the ledger is the same in all cases. *)
Theorem handle_request_payment (request : ServiceRequest) (r : Readings) (s : Site)
    (base bal : Z) :
  load (self s) = 0 → Z.abs base ≤ Negotiator.price_limit →
  services (self s) !! service_type request = Some base →
  accounts (ledger s) !! sender request = Some bal →
  ∃ resp s',
    handle_request hash request r s = (Returned resp, s') ∧
    get_dynamic_price (self s) (service_type request) 1.0 = base ∧
    total_supply (ledger s') = total_supply (ledger s) ∧
    (success resp = true
     ↔ 4 * base ≤ 5 * offered_price request ∧ offered_price request ≤ bal) ∧
    (success resp = true →
     cost resp = offered_price request ∧
     transaction_history (ledger s')
     = transaction_history (ledger s)
       ++ [new_Transaction hash (sender request) (name (self s)) (offered_price request)
             None (t_transfer r)] ∧
     (sender request ≠ name (self s) →
      get_balance (ledger s') (sender request) = bal - offered_price request ∧
      get_balance (ledger s') (name (self s))
      = get_balance (ledger s) (name (self s)) + offered_price request) ∧
     service_history (self s')
     = service_history (self s)
       ++ [mkCompleted (service_type request) (offered_price request) (sender request)
             (t_history r)] ∧
     load (self s') = 0) ∧
    (success resp = false →
     s' = s ∧
     cost resp = if decide (4 * base ≤ 5 * offered_price request) then 0 else base).
Proof.
  intros Hload _ Hsvc Hacc. unfold handle_request. rewrite bind_gets.
  rewrite decide_False by (by rewrite Hsvc). cbv zeta.
  assert (get_dynamic_price (self s) (service_type request) 1.0 = base) as Hprice.
  { unfold get_dynamic_price, dict_get. cbv zeta. rewrite Hsvc, Hload. simpl.
    apply int_of_integer. unfold Qeq. simpl. lia. }
  rewrite Hprice. set (price := base).
  rewrite asking_threshold.
  destruct (decide (4 * price ≤ 5 * offered_price request)) as [Hok|Hlow].
  - rewrite (bool_decide_true _ Hok).
    destruct (decide (offered_price request ≤ bal)) as [Hle|Hgt].
    + destruct (transfer_sufficient hash (ledger s) (sender request) (name (self s))
                  (offered_price request) None (t_transfer r) bal Hacc Hle)
        as (l' & Hrun & _ & Hhist & Hmove & _).
      pose proof (transfer_supply hash (ledger s) (sender request) (name (self s))
                    (offered_price request) None (t_transfer r)) as Hsupply.
      rewrite Hrun in Hsupply. simpl in Hsupply.
      rewrite (bind_returned _ _ _ _ _ (on_ledger_run _ s _ _ Hrun)).
      erewrite bind_returned by reflexivity.
      eexists _, _. split; [reflexivity|]. simpl.
      split; [done|]. split; [done|]. split; [tauto|]. split; [|done].
      intros _. split_and!; try done. rewrite Hload. reflexivity.
    + assert (get_balance (ledger s) (sender request) < offered_price request) as Hlt.
      { unfold get_balance, dict_get. rewrite Hacc. simpl. lia. }
      pose proof (transfer_insufficient hash (ledger s) (sender request) (name (self s))
                    (offered_price request) None (t_transfer r) Hlt) as Hrun.
      rewrite (bind_returned _ _ _ _ _ (on_ledger_run _ s _ _ Hrun)).
      eexists _, _. split; [reflexivity|]. simpl.
      split; [done|]. split; [done|]. split; [split; [done|lia]|]. split; [done|].
      intros _. split; [by destruct s|done].
  - rewrite (bool_decide_false _ Hlow).
    eexists _, _. split; [reflexivity|]. simpl.
    split; [done|]. split; [done|]. split; [split; [done|tauto]|]. split; [done|].
    intros _. done.
Qed.

Lemma handle_request_self (request : ServiceRequest) (r : Readings) (s : Site) :
  let s' := store (handle_request hash request r s) in
  name (self s') = name (self s) ∧ services (self s') = services (self s) ∧
  reputation (self s') = reputation (self s) ∧
  (load (self s') = load (self s) ∨ load (self s') = Z.max 0 (load (self s) - 1)) ∧
  total_supply (ledger s') = total_supply (ledger s).
Proof.
  cbv zeta. unfold handle_request. rewrite bind_gets.
  case_decide; [simpl; tauto|]. cbv zeta.
  destruct (Qle_bool _ _); [|simpl; tauto].
  pose proof (transfer_supply hash (ledger s) (sender request) (name (self s))
                (offered_price request) None (t_transfer r)) as Hsupply.
  destruct (transfer hash (sender request) (name (self s)) (offered_price request) None
              (t_transfer r) (ledger s)) as [[paid|e] l'] eqn:Hrun; simpl in Hsupply.
  - rewrite (bind_returned _ _ _ _ _ (on_ledger_run _ s _ _ Hrun)).
    destruct paid; simpl; tauto.
  - rewrite (bind_raised _ _ _ _ _ (on_ledger_run _ s _ _ Hrun)). simpl. tauto.
Qed.

Lemma update_reputation_range (rating rep : Q) :
  (1 <= py_max 1.0 (py_min 5.0 (rep * 0.9 + rating * 0.1)) <= 5)%Q.
Proof.
  unfold py_max, py_min, Qgtb.
  destruct (Qltb (rep * 0.9 + rating * 0.1) 5.0) eqn:E1.
  - apply Qltb_lt in E1.
    destruct (Qltb 1.0 (rep * 0.9 + rating * 0.1)) eqn:E2.
    + apply Qltb_lt in E2. lra.
    + lra.
  - destruct (Qltb 1.0 5.0) eqn:E2; lra.
Qed.

(** X25.  What no run of [handle_request] and [update_reputation] calls
    changes, whether they return or raise, for an agent that starts with
    no load, a reputation between 1 and 5, as the constructor and the
    agent modules set them, and base prices within [price_limit].  The
    load stays 0, so the price [get_dynamic_price] asks for a service is
    always its base price (0 for a service not offered); the name and the
    services stay; the reputation stays between 1 and 5; and the total
    supply of the ledger stays. *)
Theorem agent_invariants (calls : list call) (s : Site) :
  load (self s) = 0 → (1 <= reputation (self s) <= 5)%Q →
  map_Forall (λ _ base, Z.abs base ≤ Negotiator.price_limit) (services (self s)) →
  load (self (run hash calls s)) = 0 ∧
  name (self (run hash calls s)) = name (self s) ∧
  services (self (run hash calls s)) = services (self s) ∧
  (1 <= reputation (self (run hash calls s)) <= 5)%Q ∧
  total_supply (ledger (run hash calls s)) = total_supply (ledger s) ∧
  ∀ service, get_dynamic_price (self (run hash calls s)) service 1.0
             = dict_get (services (self s)) service 0.
Proof.
  intros Hload Hrep _.
  assert (load (self (run hash calls s)) = 0 ∧
          name (self (run hash calls s)) = name (self s) ∧
          services (self (run hash calls s)) = services (self s) ∧
          (1 <= reputation (self (run hash calls s)) <= 5)%Q ∧
          total_supply (ledger (run hash calls s)) = total_supply (ledger s))
    as (Hl & Hn & Hs & Hr & Ht).
  { revert s Hload Hrep. induction calls as [|c calls IH]; intros s Hload Hrep; [done|].
    assert (run hash (c :: calls) s = run hash calls (step hash c s)) as -> by reflexivity.
    assert (load (self (step hash c s)) = 0 ∧
            name (self (step hash c s)) = name (self s) ∧
            services (self (step hash c s)) = services (self s) ∧
            (1 <= reputation (self (step hash c s)) <= 5)%Q ∧
            total_supply (ledger (step hash c s)) = total_supply (ledger s))
      as (Hl1 & Hn1 & Hs1 & Hr1 & Ht1).
    { destruct c as [request r|rating]; simpl step.
      - destruct (handle_request_self request r s) as (Hn1 & Hs1 & Hr1 & Hl1 & Ht1).
        split; [lia|]. split; [done|]. split; [done|]. split; [by rewrite Hr1|done].
      - simpl. split; [done|]. split; [done|]. split; [done|].
        split; [apply update_reputation_range|done]. }
    destruct (IH _ Hl1 Hr1) as (? & ? & ? & ? & ?).
    split; [done|]. split; [congruence|]. split; [congruence|]. split; [done|congruence]. }
  split; [done|]. split; [done|]. split; [done|]. split; [done|]. split; [done|].
  intros service. unfold get_dynamic_price. cbv zeta. rewrite Hl, Hs.
  apply int_of_integer. unfold Qeq. simpl. lia.
Qed.

End AgentFacts.

Section AgentWitnesses.
Import Py Ledger Agent.

Lemma handle_request_payment_witness :
  let s := mkSite (init "Computer_C" {["run_analysis" := 10]} 2) ledger_instance in
  let request := mkRequest "Client_X" "Computer_C" "run_analysis" 8 0 in
  load (self s) = 0 ∧ Z.abs 10 ≤ Negotiator.price_limit ∧
  services (self s) !! service_type request = Some 10 ∧
  accounts (ledger s) !! sender request = Some 200 ∧
  ∃ resp s', handle_request sample_hash request (mkReadings 1 2 3 4) s = (Returned resp, s') ∧
             success resp = true ∧ cost resp = 8 ∧
             get_balance (ledger s') "Client_X" = 192 ∧
             get_balance (ledger s') "Computer_C" = 108.
Proof.
  intros s request.
  assert (services (self s) !! service_type request = Some 10) as Hsvc by reflexivity.
  assert (accounts (ledger s) !! sender request = Some 200) as Hacc by reflexivity.
  assert (Z.abs 10 ≤ Negotiator.price_limit) as Hbase by (vm_compute; discriminate).
  split; [reflexivity|]. split; [exact Hbase|]. split; [exact Hsvc|]. split; [exact Hacc|].
  destruct (handle_request_payment sample_hash request (mkReadings 1 2 3 4) s 10 200
              eq_refl Hbase Hsvc Hacc) as (resp & s' & Hrun & _ & _ & Hiff & Hyes & _).
  exists resp, s'. split; [exact Hrun|].
  assert (success resp = true) as Hs.
  { apply Hiff. vm_compute. split; discriminate. }
  destruct (Hyes Hs) as (Hcost & _ & Hmove & _).
  destruct Hmove as [Hfrom Hto]; [done|].
  split; [done|]. split; [done|]. split; [exact Hfrom|exact Hto].
Defined.

Lemma agent_invariants_witness :
  let s := mkSite (init "Computer_C" {["run_analysis" := 10]} 2) ledger_instance in
  load (self s) = 0 ∧ (1 <= reputation (self s) <= 5)%Q ∧
  map_Forall (λ _ base, Z.abs base ≤ Negotiator.price_limit) (services (self s)) ∧
  get_dynamic_price
    (self (run sample_hash
             [HandleRequest (mkRequest "Client_X" "Computer_C" "run_analysis" 8 0)
                (mkReadings 1 2 3 4);
              UpdateReputation 0.5] s))
    "run_analysis" 1.0 = 10.
Proof.
  intros s.
  assert (1 <= reputation (self s) <= 5)%Q as Hrep by (split; discriminate).
  assert (map_Forall (λ _ base, Z.abs base ≤ Negotiator.price_limit) (services (self s)))
    as Hbase.
  { apply map_Forall_singleton. vm_compute. discriminate. }
  split; [reflexivity|]. split; [exact Hrep|]. split; [exact Hbase|].
  destruct (agent_invariants sample_hash
              [HandleRequest (mkRequest "Client_X" "Computer_C" "run_analysis" 8 0)
                 (mkReadings 1 2 3 4);
               UpdateReputation 0.5] s eq_refl Hrep Hbase) as (_ & _ & _ & _ & _ & Hprice).
  by rewrite Hprice.
Defined.

End AgentWitnesses.

(** ** The simulation loop *)

Section SimulationFacts.
Import Py Simulation.
Variable hash : string → Z.

(** *** Calls through the module-level objects *)

Lemma on_negotiator_run {A : Type} (m : M Negotiator.RLNegotiator A) (w : World)
    (o : outcome A) (n' : Negotiator.RLNegotiator) :
  m (negotiator w) = (o, n') →
  on_negotiator m w
  = (o, mkWorld (agents w) (ledger w) n' (service_bandit w) (contextual_bandit w)).
Proof. intros H. unfold on_negotiator. by rewrite H. Qed.

Lemma on_service_bandit_run {A : Type} (m : M Bandit.MultiArmedBandit A) (w : World)
    (o : outcome A) (b' : Bandit.MultiArmedBandit) :
  m (service_bandit w) = (o, b') →
  on_service_bandit m w
  = (o, mkWorld (agents w) (ledger w) (negotiator w) b' (contextual_bandit w)).
Proof. intros H. unfold on_service_bandit. by rewrite H. Qed.

Lemma on_contextual_bandit_run {A : Type} (m : M Bandit.ContextualBandit A) (w : World)
    (o : outcome A) (b' : Bandit.ContextualBandit) :
  m (contextual_bandit w) = (o, b') →
  on_contextual_bandit m w
  = (o, mkWorld (agents w) (ledger w) (negotiator w) (service_bandit w) b').
Proof. intros H. unfold on_contextual_bandit. by rewrite H. Qed.

Lemma on_agent_run {A : Type} (key : string) (m : M Agent.Site A) (w : World)
    (a : Agent.AgentBase) (o : outcome A) (s' : Agent.Site) :
  odict_lookup (agents w) key = Some a →
  m (Agent.mkSite a (ledger w)) = (o, s') →
  on_agent key m w
  = (o, mkWorld (odict_set (agents w) key (Agent.self s')) (Agent.ledger s')
          (negotiator w) (service_bandit w) (contextual_bandit w)).
Proof. intros Hk H. unfold on_agent. by rewrite Hk, H. Qed.

(** *** The pieces of a round *)

Lemma other_keys_nonempty (keys : list string) (x : string) :
  NoDup keys → (2 ≤ length keys)%nat → filter (λ n, n ≠ x) keys ≠ [].
Proof.
  intros Hnd Hlen. destruct keys as [|a [|b rest]]; simpl in Hlen; try lia.
  apply NoDup_cons in Hnd as [Hab _].
  assert (a ≠ b) as Hne. { intros ->. apply Hab, list_elem_of_here. }
  destruct (decide (a = x)) as [->|Hax].
  - rewrite filter_cons_False by (intros H; by apply H).
    rewrite filter_cons_True by congruence. done.
  - by rewrite filter_cons_True.
Qed.

Lemma odict_lookup_NoDup {V : Type} (d : list (string * V)) (k : string) (v : V) :
  NoDup (fst <$> d) → (k, v) ∈ d → odict_lookup d k = Some v.
Proof.
  induction d as [|[k' v'] d IH]; intros Hnd Hin; [by apply elem_of_nil in Hin|].
  rewrite fmap_cons in Hnd. apply NoDup_cons in Hnd as [Hk' Hnd]. simpl in *.
  apply elem_of_cons in Hin as [[= <- <-]|Hin].
  - by rewrite decide_True.
  - rewrite decide_False; [by apply IH|].
    intros ->. apply Hk'. by apply (list_elem_of_fmap_2 fst) in Hin.
Qed.

Lemma randint_range (base_price : Z) :
  1 ≤ base_price → int (inject_Z base_price * 0.5) ≤ int (inject_Z base_price * 1.5).
Proof.
  intros Hb. unfold int. simpl. change (Z.pos (1 * 10)) with 10.
  rewrite !Z.quot_div_nonneg by lia.
  apply Z.div_le_mono; lia.
Qed.

Lemma select_agent_returns (context : list Q) (exploration : Q) (d : Draw)
    (b : Bandit.ContextualBandit) :
  Bandit.contextual_ok b → Bandit.cb_agents b ≠ [] →
  length context = Bandit.context_dim b →
  ∃ a, Bandit.select_agent context exploration d b = (Returned a, b).
Proof.
  intros Hok Hne Hlen. unfold Bandit.select_agent. rewrite bind_gets.
  destruct (Qltb (rand_u d) exploration).
  - destruct (random_choice_returns (S:=Bandit.ContextualBandit) (Bandit.cb_agents b)
                (rand_pick d) b Hne) as (a & Ha & _). eauto.
  - rewrite (bind_returned _ _ _ _ _
               (predictions_run context (Bandit.cb_agents b) [] b Hok Hlen
                  (proj2 (Forall_forall _ _) (λ _ H, H)))).
    destruct (max_key_returns (S:=Bandit.ContextualBandit)
                (Bandit.comprehension (Bandit.prediction b context) (Bandit.cb_agents b) [])
                b) as (a & Ha & _); [by apply comprehension_nonempty|]. eauto.
Qed.

Lemma update_weights_keeps (agent : string) (context : list Q) (reward lr now : Q)
    (b : Bandit.ContextualBandit) :
  Bandit.contextual_ok b → agent ∈ Bandit.cb_agents b →
  length context = Bandit.context_dim b →
  ∃ b', Bandit.update_weights agent context reward lr now b = (Returned tt, b') ∧
        Bandit.contextual_ok b' ∧ Bandit.cb_agents b' = Bandit.cb_agents b ∧
        Bandit.context_dim b' = Bandit.context_dim b.
Proof.
  intros Hok Hin Hlen.
  destruct (update_weights_spec agent context reward lr now b Hok Hin Hlen)
    as (b' & Hrun & Hok').
  exists b'. split; [done|]. split; [done|].
  destruct Hok as [Hkeys Hdim]. destruct (proj1 (Hkeys agent) Hin) as [w Hw].
  pose proof (predict_reward_run agent context b w Hw) as Hp.
  rewrite decide_True in Hp by (rewrite Hlen; by eapply Hdim).
  unfold Bandit.update_weights in Hrun. rewrite (bind_returned _ _ _ _ _ Hp) in Hrun.
  cbv zeta in Hrun. rewrite bind_gets, (bind_getitem _ _ _ _ _ Hw) in Hrun.
  erewrite bind_returned in Hrun by reflexivity.
  by injection Hrun as <-.
Qed.

Lemma handle_request_returns (request : Agent.ServiceRequest) (r : Agent.Readings)
    (s : Agent.Site) :
  is_Some (Agent.services (Agent.self s) !! Agent.service_type request) →
  is_Some (Ledger.accounts (Agent.ledger s) !! Agent.sender request) →
  ∃ resp s', Agent.handle_request hash request r s = (Returned resp, s') ∧
             (∀ k, is_Some (Ledger.accounts (Agent.ledger s) !! k) →
                   is_Some (Ledger.accounts (Agent.ledger s') !! k)).
Proof.
  intros [base Hsvc] [bal Hacc]. unfold Agent.handle_request. rewrite bind_gets.
  rewrite decide_False by (by rewrite Hsvc). cbv zeta.
  destruct (Qle_bool _ _); [|eauto].
  pose proof (exec_keeps_accounts hash
                (Ledger.Transfer (Agent.sender request) (Agent.name (Agent.self s))
                   (Agent.offered_price request) None (Agent.t_transfer r))
                (Agent.ledger s)) as Hkeep.
  simpl in Hkeep.
  destruct (decide (Agent.offered_price request ≤ bal)) as [Hle|Hgt].
  - destruct (transfer_sufficient hash (Agent.ledger s) (Agent.sender request)
                (Agent.name (Agent.self s)) (Agent.offered_price request) None
                (Agent.t_transfer r) bal Hacc Hle) as (l' & Hrun & _).
    rewrite Hrun in Hkeep. simpl in Hkeep.
    rewrite (bind_returned _ _ _ _ _ (on_ledger_run _ s _ _ Hrun)).
    erewrite bind_returned by reflexivity.
    eexists _, _. split; [reflexivity|]. done.
  - assert (Ledger.get_balance (Agent.ledger s) (Agent.sender request)
            < Agent.offered_price request) as Hlt.
    { unfold Ledger.get_balance, dict_get. rewrite Hacc. simpl. lia. }
    pose proof (transfer_insufficient hash (Agent.ledger s) (Agent.sender request)
                  (Agent.name (Agent.self s)) (Agent.offered_price request) None
                  (Agent.t_transfer r) Hlt) as Hrun.
    rewrite (bind_returned _ _ _ _ _ (on_ledger_run _ s _ _ Hrun)).
    eexists _, _. split; [reflexivity|]. done.
Qed.

(** *** What keeps the invariant of the loop *)

Lemma world_ok_negotiator (w : World) (n' : Negotiator.RLNegotiator) :
  world_ok w → Negotiator.table_ok n' →
  world_ok (mkWorld (agents w) (ledger w) n' (service_bandit w) (contextual_bandit w)).
Proof.
  intros (? & ? & ? & ? & ? & ? & ?) Hn. unfold world_ok. simpl. split_and!; done.
Qed.

Lemma world_ok_service_bandit (w : World) (b' : Bandit.MultiArmedBandit) :
  world_ok w → Bandit.bandit_ok b' → Bandit.agents b' = Bandit.agents (service_bandit w) →
  world_ok (mkWorld (agents w) (ledger w) (negotiator w) b' (contextual_bandit w)).
Proof.
  intros (Hnd & Hlen & Hags & Hsb & Hcb & Hdim & Htab) Hok Heq.
  split; [done|]. split; [done|]. split; [|done].
  intros k a Hin. destruct (Hags k a Hin) as (? & ? & ? & ? & ? & ?).
  simpl. rewrite Heq. done.
Qed.

Lemma world_ok_contextual_bandit (w : World) (b' : Bandit.ContextualBandit) :
  world_ok w → Bandit.contextual_ok b' →
  Bandit.cb_agents b' = Bandit.cb_agents (contextual_bandit w) →
  Bandit.context_dim b' = Bandit.context_dim (contextual_bandit w) →
  world_ok (mkWorld (agents w) (ledger w) (negotiator w) (service_bandit w) b').
Proof.
  intros (Hnd & Hlen & Hags & Hsb & Hcb & Hdim & Htab) Hok Heq Hd.
  split; [done|]. split; [done|]. split.
  - intros k a Hin. destruct (Hags k a Hin) as (? & ? & ? & ? & ? & ?).
    simpl. rewrite Heq. done.
  - simpl. rewrite Hd. done.
Qed.

Lemma world_ok_agent (w : World) (key : string) (a a' : Agent.AgentBase)
    (l' : Ledger.MockLedger) :
  world_ok w → (key, a) ∈ agents w →
  Agent.load a' = 0 → Agent.services a' = Agent.services a →
  (∀ k, is_Some (Ledger.accounts (ledger w) !! k) → is_Some (Ledger.accounts l' !! k)) →
  world_ok (mkWorld (odict_set (agents w) key a') l' (negotiator w) (service_bandit w)
              (contextual_bandit w)).
Proof.
  intros (Hnd & Hlen & Hags & Hsb & Hcb & Hdim & Htab) Hin Hload Hsvc Hacc.
  assert (key ∈ fst <$> agents w) as Hkey by by apply (list_elem_of_fmap_2 fst) in Hin.
  split; [simpl; by rewrite odict_set_keys|].
  split.
  { simpl. rewrite <- (length_fmap fst), odict_set_keys, length_fmap; done. }
  split; [|done].
  intros k b Hb. simpl in Hb. apply odict_set_elem in Hb as [[= -> ->]|Hb]; simpl.
  - destruct (Hags _ _ Hin) as (_ & Hne & Hp & Ha & Hs & Hc).
    rewrite Hsvc. split_and!; auto.
  - destruct (Hags _ _ Hb) as (? & ? & ? & ? & ? & ?). split_and!; auto.
Qed.

(** *** The end of a round *)

Lemma learn_outcome (receiver : string) (context : list Q) (reward now : Q) (w : World) :
  world_ok w → receiver ∈ fst <$> agents w → length context = 4%nat →
  ∃ w', world_ok w' ∧ ledger w' = ledger w ∧ agents w' = agents w ∧
        ∀ (B : Type) (k : M World B),
          (on_contextual_bandit (Bandit.update_weights receiver context reward 0.01 now);;
           on_service_bandit (Bandit.update_reward receiver reward);; k) w
          = k w'.
Proof.
  intros Hok Hin Hlen.
  pose proof Hok as (Hnd & Hl & Hags & Hsb & Hcb & Hdim & Htab).
  apply list_elem_of_fmap in Hin as ([k a] & -> & Hin). simpl.
  destruct (Hags k a Hin) as (_ & _ & _ & _ & Hks & Hkc).
  destruct (update_weights_keeps k context reward 0.01 now (contextual_bandit w) Hcb Hkc)
    as (cb' & Hrun1 & Hcb' & Hcags & Hcdim); [by rewrite Hdim|].
  pose proof (world_ok_contextual_bandit w cb' Hok Hcb' Hcags Hcdim) as Hok1.
  destruct (update_reward_spec k reward (service_bandit w) Hsb Hks)
    as (sb' & cnt & Hrun2 & _ & Hsags & _ & _ & Hsb').
  set (w1 := mkWorld _ _ _ _ cb') in *.
  exists (mkWorld (agents w1) (ledger w1) (negotiator w1) sb' (contextual_bandit w1)).
  split; [by apply (world_ok_service_bandit w1)|]. split; [done|]. split; [done|].
  intros B k'.
  rewrite (bind_returned _ _ _ _ _ (on_contextual_bandit_run _ w _ _ Hrun1)).
  fold w1. by rewrite (bind_returned _ _ _ _ _ (on_service_bandit_run _ w1 _ _ Hrun2)).
Qed.

Lemma settle_ok (i : nat) (inp : Inputs) (sender receiver service_type : string)
    (context : list Q) (market_price : Z) (agent_reputation : Q)
    (negotiated : string * Z) (receiver_agent : Agent.AgentBase) (w : World) :
  world_ok w → (receiver, receiver_agent) ∈ agents w → sender ∈ fst <$> agents w →
  Agent.services receiver_agent !! service_type = Some market_price →
  length context = 4%nat →
  ∃ r w', settle hash i inp sender receiver service_type context market_price
            agent_reputation negotiated w = (Returned (Some r), w') ∧
          world_ok w' ∧
          Ledger.total_supply (ledger w') = Ledger.total_supply (ledger w).
Proof.
  intros Hok Hrecv Hsender Hsvc Hlen. unfold settle. cbv zeta.
  destruct (decide (negotiated.1 = "accept")) as [_|_]; [|eauto].
  pose proof Hok as (Hnd & Hl & Hags & Hsb & Hcb & Hdim & Htab).
  pose proof (odict_lookup_NoDup _ _ _ Hnd Hrecv) as Hlook.
  assert (is_Some (Ledger.accounts (ledger w) !! sender)) as Hacc.
  { apply list_elem_of_fmap in Hsender as ([k a] & -> & Hin).
    by destruct (Hags k a Hin) as (_ & _ & _ & ? & _). }
  set (request := Agent.mkRequest sender receiver service_type negotiated.2
                    (request_clock inp)).
  destruct (handle_request_returns request (readings inp)
              (Agent.mkSite receiver_agent (ledger w)))
    as (resp & s' & Hrun & Hkeep);
    [unfold request; simpl; by rewrite Hsvc|unfold request; by simpl|].
  pose proof (handle_request_self hash request (readings inp)
                (Agent.mkSite receiver_agent (ledger w))) as Hself.
  rewrite Hrun in Hself. cbv zeta in Hself. simpl in Hself.
  destruct Hself as (_ & Hsvcs & _ & Hload & Hsupply).
  destruct (Hags _ _ Hrecv) as (Hl0 & _ & Hprices & _).
  rewrite (bind_returned _ _ _ _ _ (on_agent_run receiver _ w _ _ _ Hlook Hrun)).
  assert (world_ok (mkWorld (odict_set (agents w) receiver (Agent.self s'))
                      (Agent.ledger s') (negotiator w) (service_bandit w)
                      (contextual_bandit w))) as Hok1.
  { apply (world_ok_agent w receiver receiver_agent); [done|done|lia|done|done]. }
  set (w1 := mkWorld _ _ _ _ _) in *.
  assert (receiver ∈ fst <$> agents w1) as Hin1.
  { simpl. apply odict_set_keys_elem. by left. }
  destruct (Agent.success resp).
  - destruct (learn_outcome receiver context (uniform_satisfaction inp) (update_clock inp)
                w1 Hok1 Hin1 Hlen) as (w2 & Hok2 & Hled2 & _ & Hrun2).
    rewrite Hrun2.
    destruct (calculate_reward_returns (Agent.cost resp) market_price true)
      as [reward Hreward]; [left; specialize (Hprices _ _ Hsvc); lia|].
    rewrite Hreward, bind_lift_returned.
    destruct (update_q_value_spec
                (Negotiator.get_state service_type (Agent.cost resp) market_price
                   agent_reputation 0.5)
                "accept" reward None (negotiator w2))
      as (n' & Hrun3 & Htab' & _).
    { by destruct Hok2 as (_ & _ & _ & _ & _ & _ & ?). }
    { unfold Negotiator.actions. apply list_elem_of_here. }
    rewrite (bind_returned _ _ _ _ _ (on_negotiator_run _ w2 _ _ Hrun3)).
    eexists _, _. split; [reflexivity|]. split.
    + by apply world_ok_negotiator.
    + simpl. by rewrite Hled2.
  - destruct (learn_outcome receiver context (-0.5) (update_clock inp)
                w1 Hok1 Hin1 Hlen) as (w2 & Hok2 & Hled2 & _ & Hrun2).
    rewrite Hrun2.
    eexists _, _. split; [reflexivity|]. split; [done|]. by rewrite Hled2.
Qed.

(** *** A round, and the loop *)

Lemma simulation_round_ok (i : nat) (inp : Inputs) (w : World) :
  world_ok w →
  ∃ r w', simulation_round hash i inp w = (Returned (Some r), w') ∧
          world_ok w' ∧
          Ledger.total_supply (ledger w') = Ledger.total_supply (ledger w).
Proof.
  intros Hok. pose proof Hok as (Hnd & Hl & Hags & Hsb & Hcb & Hdim & Htab).
  unfold simulation_round. rewrite bind_gets.
  (* the sender *)
  destruct (random_choice_returns (S:=World) (fst <$> agents w) (pick_sender inp) w)
    as (sender & Hrun & Hsender).
  { destruct (agents w); simpl in *; [lia|done]. }
  rewrite (bind_returned _ _ _ _ _ Hrun). clear Hrun. cbv zeta.
  (* the receiver *)
  destruct (random_choice_returns (S:=World)
              (filter (λ n, n ≠ sender) (fst <$> agents w)) (pick_receiver inp) w)
    as (receiver & Hrun & Hreceiver).
  { apply other_keys_nonempty; [done|by rewrite length_fmap]. }
  rewrite (bind_returned _ _ _ _ _ Hrun). clear Hrun.
  apply list_elem_of_filter in Hreceiver as [Hother Hreceiver].
  destruct (odict_lookup_is_Some _ _ Hreceiver) as [receiver_agent Hlook].
  rewrite (bind_odict_getitem _ _ _ _ _ Hlook).
  pose proof (odict_lookup_elem _ _ _ Hlook) as Hrecv.
  destruct (Hags _ _ Hrecv) as (_ & Hservices & Hprices & _).
  rewrite decide_False by done.
  (* the service and the offer *)
  destruct (random_choice_returns (S:=World)
              (fst <$> map_to_list (Agent.services receiver_agent)) (pick_service inp) w)
    as (service_type & Hrun & Hservice).
  { intros Hnil. apply fmap_nil_inv, map_to_list_empty_iff in Hnil. done. }
  rewrite (bind_returned _ _ _ _ _ Hrun). clear Hrun.
  apply list_elem_of_fmap in Hservice as ([s base_price] & -> & Hservice). simpl.
  apply elem_of_map_to_list in Hservice.
  rewrite (bind_getitem _ _ _ _ _ Hservice).
  unfold random_randint at 1.
  rewrite decide_True by (apply randint_range; by eapply Hprices).
  rewrite bind_pure.
  set (offered_price := int (inject_Z base_price * 0.5)
                        + Z.of_nat (pick_offer inp)
                          `mod` (int (inject_Z base_price * 1.5)
                                 - int (inject_Z base_price * 0.5) + 1)).
  (* the agents that can serve *)
  set (capable := fst <$> filter (λ na, is_Some (Agent.services (snd na) !! s)
                                        ∧ fst na ≠ sender) (agents w)).
  assert (∀ k, k ∈ capable →
               k ≠ sender ∧
               ∃ a, (k, a) ∈ agents w ∧ is_Some (Agent.services a !! s)) as Hcapable.
  { intros k Hk. apply list_elem_of_fmap in Hk as ([k' a] & -> & Hk).
    apply list_elem_of_filter in Hk as [[Hs Hne] Hin]. simpl in *. eauto. }
  assert (receiver ∈ capable) as Hrc.
  { apply (list_elem_of_fmap_2 fst (filter _ _) (receiver, receiver_agent)).
    apply list_elem_of_filter. simpl. split; [split; [by rewrite Hservice|done]|done]. }
  rewrite decide_False by (intros Hnil; rewrite Hnil in Hrc; by apply elem_of_nil in Hrc).
  (* the bandit *)
  set (context := Bandit.get_context s (random_urgency inp) offered_price (time_of_day inp)).
  destruct (select_agent_returns context 0.1 (select_draw inp) (contextual_bandit w))
    as (selected & Hrun); [done| |by rewrite Hdim|].
  { intros Hnil. destruct (Hags _ _ Hrecv) as (_ & _ & _ & _ & _ & Hc).
    rewrite Hnil in Hc. by apply elem_of_nil in Hc. }
  rewrite (bind_returned _ _ _ _ _ (on_contextual_bandit_run _ w _ _ Hrun)). clear Hrun.
  assert (mkWorld (agents w) (ledger w) (negotiator w) (service_bandit w)
            (contextual_bandit w) = w) as -> by by destruct w.
  assert (∃ selected_agent,
            (if decide (selected ∈ capable) then mret selected
             else random_choice capable (pick_capable inp)) w
            = (Returned selected_agent, w) ∧ selected_agent ∈ capable)
    as (selected_agent & Hrun & Hsel).
  { case_decide; [by exists selected|].
    apply random_choice_returns. intros Hnil. rewrite Hnil in Hrc.
    by apply elem_of_nil in Hrc. }
  rewrite (bind_returned _ _ _ _ _ Hrun). clear Hrun.
  (* the receiver it may redirect to *)
  assert (∃ final_receiver,
            (if decide (selected_agent = receiver) then mret (receiver, receiver_agent)
             else a ← odict_getitem (agents w) selected_agent; mret (selected_agent, a)) w
            = (Returned final_receiver, w) ∧
            final_receiver ∈ agents w ∧
            is_Some (Agent.services (snd final_receiver) !! s))
    as ([final final_agent] & Hrun & Hfinal & [market_price Hmarket]).
  { case_decide.
    - exists (receiver, receiver_agent). split; [done|]. split; [done|].
      simpl. by rewrite Hservice.
    - destruct (Hcapable _ Hsel) as (_ & a & Hin & Hs).
      exists (selected_agent, a).
      rewrite (bind_odict_getitem _ _ _ _ _ (odict_lookup_NoDup _ _ _ Hnd Hin)).
      done. }
  rewrite (bind_returned _ _ _ _ _ Hrun). clear Hrun. cbv zeta. cbn [fst snd].
  simpl in Hmarket.
  rewrite decide_False by (by rewrite Hmarket).
  rewrite (bind_getitem _ _ _ _ _ Hmarket).
  (* the negotiation *)
  destruct (Hags _ _ Hfinal) as (_ & _ & Hprices' & _).
  destruct (negotiate_rounds_returns s market_price (Agent.reputation final_agent) 3
              (negotiation_draws inp) (Z.to_nat 3) 0 offered_price (negotiator w))
    as (negotiated & log & n' & Hrun & Htab' & _).
  { specialize (Hprices' _ _ Hmarket). lia. }
  { done. }
  apply negotiate_of_logged in Hrun.
  rewrite (bind_returned _ _ _ _ _ (on_negotiator_run _ w _ _ Hrun)). clear Hrun.
  (* the request *)
  destruct (settle_ok i inp sender final s context market_price
              (Agent.reputation final_agent) negotiated final_agent
              (mkWorld (agents w) (ledger w) n' (service_bandit w) (contextual_bandit w)))
    as (r & w' & Hrun & Hok' & Hsupply); [by apply world_ok_negotiator|done..|].
  exists r, w'. done.
Qed.

Lemma simulation_rounds_ok (inputs : nat → Inputs) (n i : nat) (w : World) :
  world_ok w →
  ∃ results w', simulation_rounds hash inputs n i w = (Returned results, w') ∧
                length results = n ∧ world_ok w' ∧
                Ledger.total_supply (ledger w') = Ledger.total_supply (ledger w).
Proof.
  revert i w. induction n as [|n IH]; intros i w Hok.
  - exists [], w. done.
  - destruct (simulation_round_ok i (inputs i) w Hok) as (r & w1 & Hrun1 & Hok1 & Hs1).
    destruct (IH (S i) w1 Hok1) as (rest & w' & Hrun & Hlen & Hok' & Hs).
    exists (r :: rest), w'. split; [|split; [simpl; by rewrite Hlen|split; [done|congruence]]].
    simpl simulation_rounds.
    rewrite (bind_returned _ _ _ _ _ Hrun1), (bind_returned _ _ _ _ _ Hrun). done.
Qed.

(** X26.  One call of [run_simulation], from any world that satisfies
    the invariant of the loop and for any draws of the generator and any
    clock: the call returns, with one result per round; it leaves a world
    that satisfies the invariant; and the total supply of the ledger is
    what it was.  No round raises, and none is skipped. *)
Theorem run_simulation_safe (inputs : nat → Inputs) (num_rounds : Z) (w : World) :
  world_ok w →
  ∃ results w',
    run_simulation hash inputs num_rounds w = (Returned results, w') ∧
    Z.of_nat (length results) = Z.max num_rounds 0 ∧
    world_ok w' ∧
    Ledger.total_supply (ledger w') = Ledger.total_supply (ledger w).
Proof.
  intros Hok.
  destruct (simulation_rounds_ok inputs (Z.to_nat num_rounds) 0 w Hok)
    as (results & w' & Hrun & Hlen & Hok' & Hsupply).
  exists results, w'. split; [done|]. split; [lia|done].
Qed.

End SimulationFacts.

Section SimulationWitnesses.
Import Py Simulation.

Lemma initial_world_ok (normal : string → nat → Q) : world_ok (initial_world normal).
Proof.
  unfold world_ok, initial_world. simpl.
  split; [repeat constructor; rewrite ?elem_of_cons, ?elem_of_nil; intros H;
          repeat destruct H as [H|H]; done|].
  split; [lia|]. split.
  - intros k a Hin.
    repeat (apply elem_of_cons in Hin as [[= -> ->]|Hin]);
      [| | |by apply elem_of_nil in Hin].
    all: split; [reflexivity|].
    all: split; [intros H; apply (f_equal size) in H; vm_compute in H; discriminate|].
    all: split;
      [intros s p Hs; apply elem_of_list_to_map_2 in Hs;
       repeat (apply elem_of_cons in Hs as [[= _ ->]|Hs]); try lia;
       by apply elem_of_nil in Hs|].
    all: split; [vm_compute; eauto|].
    all: split; rewrite !elem_of_cons; auto.
  - split; [apply init_bandit_ok|]. split; [apply cb_init_ok|]. split; [done|].
    apply init_table_ok.
Qed.

Lemma run_simulation_safe_witness :
  world_ok (initial_world (λ _ _, 0.1%Q)) ∧
  Ledger.total_supply (ledger (initial_world (λ _ _, 0.1%Q))) = 500 ∧
  ∃ results w',
    run_simulation Ledger.sample_hash
      (λ _, mkInputs 0 0 0 3 0.5 0.5 (mkDraw 0.5 0) 0 (λ _, mkDraw 0.05 0) 0
              (Agent.mkReadings 1 2 3 4) 0.9 5)
      10 (initial_world (λ _ _, 0.1%Q))
    = (Returned results, w') ∧
    length results = 10%nat ∧ Ledger.total_supply (ledger w') = 500.
Proof.
  split; [apply initial_world_ok|]. split; [vm_compute; reflexivity|].
  destruct (run_simulation_safe Ledger.sample_hash
              (λ _, mkInputs 0 0 0 3 0.5 0.5 (mkDraw 0.5 0) 0 (λ _, mkDraw 0.05 0) 0
                      (Agent.mkReadings 1 2 3 4) 0.9 5)
              10 (initial_world (λ _ _, 0.1%Q)) (initial_world_ok _))
    as (results & w' & Hrun & Hlen & _ & Hsupply).
  exists results, w'. split; [exact Hrun|]. split; [lia|].
  rewrite Hsupply. vm_compute. reflexivity.
Defined.

End SimulationWitnesses.
